(** * pyassem: flow graphs, block ordering, jump fix-up, operand interning,
      stack depth and byte packing of [opy/compiler2/pyassem.py]

    The development is a shallow embedding of the assembler.  Block objects
    are identified by their [bid] (the value of [gBlockCounter] when the
    block was created, which is also its hash); Python exceptions are values
    of [exn]; loops that Python runs with [while] carry an explicit fuel. *)

From Stdlib Require Import ZArith Lia.
From stdpp Require Import functions gmap list sorting strings pretty.

Local Open Scope Z_scope.

(** ** Exceptions and results *)

Inductive exn : Type :=
| AssertionError
| AttributeError
| IndexError
| KeyError
| ValueError
| TypeError
| OverflowError.

(** The outcome of running a piece of the assembler: a value, a raised
    exception, or fuel exhausted before the loop finished. *)
Inductive result (A : Type) : Type :=
| Ret (a : A)
| Raise (e : exn)
| OutOfFuel.

Arguments Ret {A} a.
Arguments Raise {A} e.
Arguments OutOfFuel {A}.

Global Instance result_ret : MRet result := @Ret.

Global Instance result_bind : MBind result := λ A B k m,
  match m with
  | Ret a => k a
  | Raise e => Raise e
  | OutOfFuel => OutOfFuel
  end.

Global Instance result_fmap : FMap result := λ A B f m,
  match m with
  | Ret a => Ret (f a)
  | Raise e => Raise e
  | OutOfFuel => OutOfFuel
  end.

(** [for x in l: a = f(a, x)] where [f] may raise. *)
Fixpoint foldM {A B : Type} (f : A → B → result A) (a : A) (l : list B)
  : result A :=
  match l with
  | [] => Ret a
  | x :: l' => a' ← f a x; foldM f a' l'
  end.

(** ** Python values used as symbolic operands

    Names are [str]; constants are [None], booleans, [int], [long], [str]
    and tuples of constants.  Floating-point, complex and unicode constants
    and nested code generators are not represented. *)

#[warnings="-register-all"]
Inductive pyval : Type :=
| PyNone
| PyBool (b : bool)
| PyInt (z : Z)
| PyLong (z : Z)
| PyStr (s : string)
| PyTuple (l : list pyval).

Inductive pytype : Type := TNone | TBool | TInt | TLong | TStr | TTuple.

Global Instance pytype_eq_dec : EqDecision pytype.
Proof. solve_decision. Defined.

(** [type(v)] *)
Definition py_type (v : pyval) : pytype :=
  match v with
  | PyNone => TNone
  | PyBool _ => TBool
  | PyInt _ => TInt
  | PyLong _ => TLong
  | PyStr _ => TStr
  | PyTuple _ => TTuple
  end.

(** The number a numeric value denotes; [bool] is a subclass of [int]. *)
Definition py_num (v : pyval) : option Z :=
  match v with
  | PyBool b => Some (if b then 1 else 0)
  | PyInt z => Some z
  | PyLong z => Some z
  | _ => None
  end.

(** Python's [v == w]: numbers compare by value across [bool], [int] and
    [long]; strings by contents; tuples element by element. *)
Fixpoint py_eq (v w : pyval) : bool :=
  match v, w with
  | PyNone, PyNone => true
  | PyStr a, PyStr b => bool_decide (a = b)
  | PyTuple l1, PyTuple l2 =>
      (fix go (l1 l2 : list pyval) : bool :=
         match l1, l2 with
         | [], [] => true
         | x :: l1', y :: l2' => py_eq x y && go l1' l2'
         | _, _ => false
         end) l1 l2
  | _, _ =>
      match py_num v, py_num w with
      | Some a, Some b => bool_decide (a = b)
      | _, _ => false
      end
  end.

(** The test of [_NameToIndex]: [t == type(item) and item == name]
    with [t = type(name)]. *)
Definition strict_eq (name item : pyval) : bool :=
  bool_decide (py_type name = py_type item) && py_eq item name.

(** ** Instructions and blocks *)

Definition block_id : Type := nat.

(** The second field of an instruction tuple: a target block or a value. *)
Inductive oparg : Type :=
| ArgBlock (b : block_id)
| ArgVal (v : pyval).

(** An instruction is a tuple [(opname,)] or [(opname, oparg)]. *)
Inductive inst : Type :=
| Inst1 (op : string)
| Inst2 (op : string) (arg : oparg).

Definition inst_opname (i : inst) : string :=
  match i with
  | Inst1 op => op
  | Inst2 op _ => op
  end.

(** ** [_NameToIndex] *)

(** The [for i, item in enumerate(L)] scan, started at index [i]. *)
Fixpoint find_index (name : pyval) (L : list pyval) (i : nat) : option nat :=
  match L with
  | [] => None
  | item :: L' =>
      if strict_eq name item then Some i else find_index name L' (S i)
  end.

(** Returns the index and the list after the call (the list is mutated in
    place by [L.append]). *)
Definition _NameToIndex (name : pyval) (L : list pyval) : nat * list pyval :=
  match find_index name L 0 with
  | Some i => (i, L)
  | None => (length L, L ++ [name])
  end.

(** ** The [dis] module

    [dis] is the standard library module that supplies the opcode tables;
    the assembler reads [dis.opname], [dis.hasjrel], [dis.hasjabs] and
    [dis.cmp_op]. *)

Class Dis : Type := {
  dis_opname : list string;
  dis_hasjrel : list nat;
  dis_hasjabs : list nat;
  dis_cmp_op : list string;
}.

(** [HAS_JREL = set(dis.opname[op] for op in dis.hasjrel)].  An opcode
    number outside [dis.opname] would stop the import of the module with
    [IndexError]; it contributes no name here. *)
Definition HAS_JREL `{Dis} : gset string :=
  list_to_set (omap (λ op, dis_opname !! op) dis_hasjrel).

(** [HAS_JABS = set(dis.opname[op] for op in dis.hasjabs)] *)
Definition HAS_JABS `{Dis} : gset string :=
  list_to_set (omap (λ op, dis_opname !! op) dis_hasjabs).

(** [OPNUM = dict((name, i) for i, name in enumerate(dis.opname))]: a later
    pair replaces an earlier one with the same name. *)
Definition OPNUM `{Dis} : gmap string Z :=
  foldl (λ m p, <[p.2 := Z.of_nat p.1]> m) ∅ (imap pair dis_opname).

(** ** Iteration order of Python sets

    The order in which a [set] is iterated is a property of the interpreter.
    Sets of blocks hold objects compared by identity and are [gset]s of
    block ids.  Sets of values compare their members with [==]; they are
    kept as lists without [==]-duplicates, in insertion order. *)

Class SetIter : Type := {
  block_set_iter : gset block_id → list block_id;
  val_set_iter : list pyval → list pyval;
}.

(** What every interpreter guarantees: iteration visits each member once. *)
Class SetIterLaws `{SetIter} : Prop := {
  block_set_iter_perm : ∀ s : gset block_id, block_set_iter s ≡ₚ elements s;
  val_set_iter_perm : ∀ l : list pyval, val_set_iter l ≡ₚ l;
}.

(** [v in s] for a set or list of values *)
Definition py_in (v : pyval) (l : list pyval) : bool :=
  existsb (λ item, py_eq item v) l.

(** [set(l)] *)
Definition py_set (l : list pyval) : list pyval :=
  foldl (λ s v, if py_in v s then s else s ++ [v]) [] l.

(** [s - t] *)
Definition py_set_difference (s t : list pyval) : list pyval :=
  filter (λ v, py_in v t = false) s.

(** ** [Block] *)

Record Block : Type := {
  label : string;
  insts : list inst;
  outEdges : gset block_id;
  next : list block_id;
  prev : list block_id;
}.

(** The object heap: the block a block id denotes. *)
Definition heap : Type := block_id → Block.

Definition _uncond_transfer : list string :=
  ["RETURN_VALUE"; "RAISE_VARARGS"; "JUMP_ABSOLUTE"; "JUMP_FORWARD";
   "CONTINUE_LOOP"].

(** [None] is Python's [None], returned by the bare [return] of the
    [except (IndexError, ValueError)] branch: [self.insts[-1]] raises
    [IndexError] on an empty list and [op, arg = ...] raises [ValueError]
    on a 1-tuple. *)
Definition has_unconditional_transfer (b : Block) : option bool :=
  match last (insts b) with
  | None => None
  | Some (Inst1 _) => None
  | Some (Inst2 op _) => Some (bool_decide (op ∈ _uncond_transfer))
  end.

(** Truth value of a result of [has_unconditional_transfer]. *)
Definition truthy (r : option bool) : bool := default false r.

(** [list(self.outEdges) + self.next] *)
Definition get_children `{SetIter} (b : Block) : list block_id :=
  block_set_iter (outEdges b) ++ next b.

(** [get_followers]: a 1-field relative jump raises [IndexError] at
    [inst[1]]; an operand that is not a block enters the set in Python and
    makes [OrderBlocks] raise [AttributeError] at its [c.prev], which is
    reported here. *)
Definition get_followers `{Dis} (b : Block) : result (gset block_id) :=
  foldM (λ followers i,
           if bool_decide (inst_opname i ∈ HAS_JREL) then
             match i with
             | Inst1 _ => Raise IndexError
             | Inst2 _ (ArgBlock t) => Ret ({[t]} ∪ followers)
             | Inst2 _ (ArgVal _) => Raise AttributeError
             end
           else Ret followers)
        (list_to_set (next b)) (insts b).

(** ** [OrderBlocks] *)

(** The first loop of [OrderBlocks]: collect the blocks to be emitted.
    [todo] is the Python stack with its last element first, so that
    [todo.pop()] takes the head and [todo.append(c)] conses. *)
Fixpoint find_blocks `{SetIter} (fuel : nat) (h : heap)
    (todo : list block_id) (remaining : gset block_id)
  : result (gset block_id) :=
  match fuel with
  | O => match todo with [] => Ret remaining | _ => OutOfFuel end
  | S fuel' =>
      match todo with
      | [] => Ret remaining
      | b :: todo' =>
          if decide (b ∈ remaining) then find_blocks fuel' h todo' remaining
          else
            let remaining' := {[b]} ∪ remaining in
            let todo'' :=
              foldl (λ td c, if decide (c ∈ remaining') then td else c :: td)
                    todo' (get_children (h b)) in
            find_blocks fuel' h todo'' remaining'
      end
  end.

(** [dominators.setdefault(c, set()).add(b)] *)
Definition add_dominator (c b : block_id)
    (dominators : gmap block_id (gset block_id))
  : gmap block_id (gset block_id) :=
  <[c := {[b]} ∪ default ∅ (dominators !! c)]> dominators.

(** The [while 1] loop that walks the [prev] links back from a follower. *)
Fixpoint walk_prev (fuel : nat) (h : heap) (b c : block_id)
    (dominators : gmap block_id (gset block_id))
  : result (gmap block_id (gset block_id)) :=
  match fuel with
  | O => OutOfFuel
  | S fuel' =>
      let dominators' := add_dominator c b dominators in
      match prev (h c) with
      | p :: _ =>
          if decide (p = b) then Ret dominators'
          else walk_prev fuel' h b p dominators'
      | [] => Ret dominators'
      end
  end.

(** [assert b is b.next[0].prev[0]], checked when [b.next] is not empty. *)
Definition check_next (h : heap) (b : block_id) : result unit :=
  match next (h b) with
  | [] => Ret ()
  | n :: _ =>
      match prev (h n) with
      | [] => Raise IndexError
      | p :: _ => if decide (p = b) then Ret () else Raise AssertionError
      end
  end.

(** The body of [for b in remaining] that fills [dominators]. *)
Definition dominate_block `{Dis, SetIter} (fuel : nat) (h : heap)
    (dominators : gmap block_id (gset block_id)) (b : block_id)
  : result (gmap block_id (gset block_id)) :=
  _ ← check_next h b;
  let dominators := <[b := default ∅ (dominators !! b)]> dominators in
  followers ← get_followers (h b);
  foldM (λ doms c, walk_prev fuel h b c doms) dominators
        (block_set_iter followers).

Definition compute_dominators `{Dis, SetIter} (fuel : nat) (h : heap)
    (remaining : gset block_id)
  : result (gmap block_id (gset block_id)) :=
  foldM (dominate_block fuel h) ∅ (block_set_iter remaining).

(** The inner [for c in dominators[b]] of [find_next]: [true] when the
    [else] branch of the loop is reached. *)
Definition can_emit `{SetIter} (dominators : gmap block_id (gset block_id))
    (remaining : gset block_id) (b : block_id) : result bool :=
  match dominators !! b with
  | None => Raise KeyError
  | Some ds =>
      Ret (forallb (λ c, bool_decide (c ∉ remaining)) (block_set_iter ds))
  end.

Fixpoint find_next_in `{SetIter} (dominators : gmap block_id (gset block_id))
    (remaining : gset block_id) (candidates : list block_id)
  : result block_id :=
  match candidates with
  | [] => Raise AssertionError
  | b :: candidates' =>
      ok ← can_emit dominators remaining b;
      if ok : bool then Ret b
      else find_next_in dominators remaining candidates'
  end.

Definition find_next `{SetIter} (dominators : gmap block_id (gset block_id))
    (remaining : gset block_id) : result block_id :=
  find_next_in dominators remaining (block_set_iter remaining).

(** The final [while 1] loop, entered with the block [b] to emit. *)
Fixpoint emit_loop `{SetIter} (fuel : nat) (h : heap) (exit_block : block_id)
    (dominators : gmap block_id (gset block_id))
    (b : block_id) (order : list block_id) (remaining : gset block_id)
  : result (list block_id) :=
  match fuel with
  | O => OutOfFuel
  | S fuel' =>
      let order := order ++ [b] in
      let remaining := remaining ∖ {[b]} in
      match next (h b) with
      | n :: _ => emit_loop fuel' h exit_block dominators n order remaining
      | [] =>
          let order :=
            if bool_decide (b ≠ exit_block)
               && negb (truthy (has_unconditional_transfer (h b)))
            then order ++ [exit_block] else order in
          if decide (remaining = ∅) then Ret order
          else
            b' ← find_next dominators remaining;
            emit_loop fuel' h exit_block dominators b' order remaining
      end
  end.

Definition OrderBlocks `{Dis, SetIter} (fuel : nat) (h : heap)
    (start_block exit_block : block_id) : result (list block_id) :=
  remaining ← find_blocks fuel h [start_block] ∅;
  dominators ← compute_dominators fuel h remaining;
  emit_loop fuel h exit_block dominators start_block [] remaining.

(** ** [StackDepthTracker] *)

(** [StackDepthTracker.effect] *)
Definition effect : gmap string Z :=
  list_to_map
    [("POP_TOP", -1); ("DUP_TOP", 1); ("LIST_APPEND", -1); ("SET_ADD", -1);
     ("MAP_ADD", -2); ("SLICE+1", -1); ("SLICE+2", -1); ("SLICE+3", -2);
     ("STORE_SLICE+0", -1); ("STORE_SLICE+1", -2); ("STORE_SLICE+2", -2);
     ("STORE_SLICE+3", -3); ("DELETE_SLICE+0", -1); ("DELETE_SLICE+1", -2);
     ("DELETE_SLICE+2", -2); ("DELETE_SLICE+3", -3); ("STORE_SUBSCR", -3);
     ("DELETE_SUBSCR", -2); ("PRINT_ITEM", -1); ("RETURN_VALUE", -1);
     ("YIELD_VALUE", -1); ("EXEC_STMT", -3); ("BUILD_CLASS", -2);
     ("STORE_NAME", -1); ("STORE_ATTR", -2); ("DELETE_ATTR", -1);
     ("STORE_GLOBAL", -1); ("BUILD_MAP", 1); ("COMPARE_OP", -1);
     ("STORE_FAST", -1); ("IMPORT_STAR", -1); ("IMPORT_NAME", -1);
     ("IMPORT_FROM", 1); ("LOAD_ATTR", 0); ("SETUP_EXCEPT", 3);
     ("SETUP_FINALLY", 3); ("FOR_ITER", 1); ("WITH_CLEANUP", -1)].

(** [StackDepthTracker.patterns] *)
Definition patterns : list (string * Z) := [("BINARY_", -1); ("LOAD_", 1)].

(** The number an operand denotes in arithmetic, if it is a number. *)
Definition arg_num (arg : oparg) : option Z :=
  match arg with
  | ArgBlock _ => None
  | ArgVal v => py_num v
  end.

Definition UNPACK_SEQUENCE (count : Z) : Z := count - 1.
Definition BUILD_TUPLE (count : Z) : Z := - count + 1.
Definition BUILD_LIST (count : Z) : Z := - count + 1.
Definition BUILD_SET (count : Z) : Z := - count + 1.
Definition CALL_FUNCTION (argc : Z) : Z :=
  let hi := argc / 256 in
  let lo := argc mod 256 in
  - (lo + hi * 2).
Definition CALL_FUNCTION_VAR (argc : Z) : Z := CALL_FUNCTION argc - 1.
Definition CALL_FUNCTION_KW (argc : Z) : Z := CALL_FUNCTION argc - 1.
Definition CALL_FUNCTION_VAR_KW (argc : Z) : Z := CALL_FUNCTION argc - 2.
Definition MAKE_FUNCTION (argc : Z) : Z := - argc.
Definition MAKE_CLOSURE (argc : Z) : Z := - argc.
(** [None] when [argc] is neither 2 nor 3 *)
Definition BUILD_SLICE (argc : Z) : option Z :=
  if decide (argc = 2) then Some (-1)
  else if decide (argc = 3) then Some (-2)
  else None.
Definition DUP_TOPX (argc : Z) : Z := argc.

(** [getattr(self, opname, None)] for the opcode methods of the tracker;
    the value is what [depth + meth(i[1])] adds, or [None] when the
    addition raises [TypeError]. *)
Definition tracker_method (opname : string) : option (Z → option Z) :=
  if decide (opname = "UNPACK_SEQUENCE") then Some (λ n, Some (UNPACK_SEQUENCE n))
  else if decide (opname = "BUILD_TUPLE") then Some (λ n, Some (BUILD_TUPLE n))
  else if decide (opname = "BUILD_LIST") then Some (λ n, Some (BUILD_LIST n))
  else if decide (opname = "BUILD_SET") then Some (λ n, Some (BUILD_SET n))
  else if decide (opname = "CALL_FUNCTION") then Some (λ n, Some (CALL_FUNCTION n))
  else if decide (opname = "CALL_FUNCTION_VAR") then
    Some (λ n, Some (CALL_FUNCTION_VAR n))
  else if decide (opname = "CALL_FUNCTION_KW") then
    Some (λ n, Some (CALL_FUNCTION_KW n))
  else if decide (opname = "CALL_FUNCTION_VAR_KW") then
    Some (λ n, Some (CALL_FUNCTION_VAR_KW n))
  else if decide (opname = "MAKE_FUNCTION") then Some (λ n, Some (MAKE_FUNCTION n))
  else if decide (opname = "MAKE_CLOSURE") then Some (λ n, Some (MAKE_CLOSURE n))
  else if decide (opname = "BUILD_SLICE") then Some BUILD_SLICE
  else if decide (opname = "DUP_TOPX") then Some (λ n, Some (DUP_TOPX n))
  else None.

(** The stack effect [findDepth] adds to [depth] for one instruction:
    the exact table, else the first matching prefix pattern, else the
    method named after the opcode, else nothing. *)
Definition inst_effect (i : inst) : result Z :=
  let opname := inst_opname i in
  match effect !! opname with
  | Some delta => Ret delta
  | None =>
      match List.find (λ p, String.prefix p.1 opname) patterns with
      | Some (_, pat_delta) => Ret pat_delta
      | None =>
          match tracker_method opname with
          | None => Ret 0
          | Some meth =>
              match i with
              | Inst1 _ => Raise IndexError
              | Inst2 _ arg =>
                  match arg_num arg ≫= meth with
                  | Some delta => Ret delta
                  | None => Raise TypeError
                  end
              end
          end
      end
  end.

(** One iteration of the loop of [findDepth] on the pair
    [(depth, maxDepth)]. *)
Definition findDepth_step (st : Z * Z) (i : inst) : result (Z * Z) :=
  delta ← inst_effect i;
  let depth := st.1 + delta in
  Ret (depth, if decide (depth > st.2) then depth else st.2).

Definition findDepth (insts : list inst) : result Z :=
  st ← foldM findDepth_step (0, 0) insts;
  Ret st.2.

(** ** [ComputeStackDepth] *)

(** [for b in blocks: depth[b] = TRACKER.findDepth(b.getInstructions())] *)
Definition block_depths `{SetIter} (h : heap) (blocks : gset block_id)
  : result (gmap block_id Z) :=
  foldM (λ depth b, d ← findDepth (insts (h b)); Ret (<[b := d]> depth))
        ∅ (block_set_iter blocks).

(** [max_depth(b, d)]; the dictionary [seen] is threaded through the
    calls. *)
Fixpoint max_depth `{SetIter} (fuel : nat) (h : heap) (exit_block : block_id)
    (depth : gmap block_id Z) (b : block_id) (d : Z) (seen : gset block_id)
  : result (Z * gset block_id) :=
  match fuel with
  | O => OutOfFuel
  | S fuel' =>
      if decide (b ∈ seen) then Ret (d, seen)
      else
        let seen := {[b]} ∪ seen in
        match depth !! b with
        | None => Raise KeyError
        | Some db =>
            let d := d + db in
            match get_children (h b) with
            | [] =>
                if decide (label (h b) = "exit") then Ret (d, seen)
                else max_depth fuel' h exit_block depth exit_block d seen
            | c :: children =>
                first ← max_depth fuel' h exit_block depth c d seen;
                foldM (λ acc c,
                         r ← max_depth fuel' h exit_block depth c d acc.2;
                         Ret (Z.max acc.1 r.1, r.2))
                      first children
            end
        end
  end.

Definition ComputeStackDepth `{SetIter} (fuel : nat) (h : heap)
    (blocks : gset block_id) (entry_block exit_block : block_id) : result Z :=
  depth ← block_depths h blocks;
  r ← max_depth fuel h exit_block depth entry_block 0 ∅;
  Ret r.1.

(** ** [FlattenGraph] *)

(** Bytes an instruction occupies: what both passes add to [pc]. *)
Definition inst_size (i : inst) : Z :=
  match i with
  | Inst1 _ => 1
  | Inst2 op _ => if decide (op = "SET_LINENO") then 0 else 3
  end.

(** State of the first pass: [(insts, pc, begin, end)]. *)
Record layout : Type := {
  l_insts : list inst;
  l_pc : Z;
  l_begin : gmap block_id Z;
  l_end : gmap block_id Z;
}.

(** The body of [for b in blocks] in the first pass. *)
Definition layout_block (h : heap) (st : layout) (b : block_id) : layout :=
  let begin := <[b := l_pc st]> (l_begin st) in
  let r := foldl (λ acc i, (acc.1 ++ [i], acc.2 + inst_size i))
                 (l_insts st, l_pc st) (insts (h b)) in
  {| l_insts := r.1; l_pc := r.2; l_begin := begin;
     l_end := <[b := r.2]> (l_end st) |}.

Definition layout_pass (h : heap) (blocks : list block_id) : layout :=
  foldl (layout_block h)
        {| l_insts := []; l_pc := 0; l_begin := ∅; l_end := ∅ |} blocks.

(** [begin[oparg]] *)
Definition lookup_begin (begin : gmap block_id Z) (arg : oparg) : result Z :=
  match arg with
  | ArgBlock b =>
      match begin !! b with
      | Some pc => Ret pc
      | None => Raise KeyError
      end
  | ArgVal _ => Raise KeyError
  end.

(** The body of the second pass for one instruction, with [pc] already
    advanced past it. *)
Definition fixup_inst `{Dis} (begin : gmap block_id Z) (pc : Z) (i : inst)
  : result inst :=
  let opname := inst_opname i in
  if bool_decide (opname ∈ HAS_JREL) then
    match i with
    | Inst1 _ => Raise IndexError
    | Inst2 _ oparg =>
        target ← lookup_begin begin oparg;
        Ret (Inst2 opname (ArgVal (PyInt (target - pc))))
    end
  else if bool_decide (opname ∈ HAS_JABS) then
    match i with
    | Inst1 _ => Raise IndexError
    | Inst2 _ oparg =>
        target ← lookup_begin begin oparg;
        Ret (Inst2 opname (ArgVal (PyInt target)))
    end
  else Ret i.

(** The second pass over the flat instruction list. *)
Fixpoint fixup_pass `{Dis} (begin : gmap block_id Z) (pc : Z)
    (insts : list inst) : result (list inst) :=
  match insts with
  | [] => Ret []
  | i :: rest =>
      let pc := pc + inst_size i in
      i' ← fixup_inst begin pc i;
      rest' ← fixup_pass begin pc rest;
      Ret (i' :: rest')
  end.

Definition FlattenGraph `{Dis} (h : heap) (blocks : list block_id)
  : result (list inst) :=
  let st := layout_pass h blocks in
  fixup_pass (l_begin st) 0 (l_insts st).

(** ** [Assembler] *)

Record Assembler : Type := {
  code : list Ascii.ascii;
  codeOffset : Z;
  firstline : Z;
  lastline : Z;
  lastoff : Z;
  lnotab : list Z;
}.

(** [Assembler()] *)
Definition new_Assembler : Assembler :=
  {| code := []; codeOffset := 0; firstline := 0; lastline := 0;
     lastoff := 0; lnotab := [] |}.

(** [sys.maxint] of CPython 2.7 on a platform whose C [long] has 64 bits:
    a C [long] ranges over [[-maxint - 1, maxint]]. *)
Definition maxint : Z := 2 ^ 63 - 1.

(** The exception of [chr(arg)] for an argument outside [range(256)]:
    [OverflowError] when the argument does not fit a C [long], which is
    how [chr] receives it, and [ValueError] otherwise. *)
Definition chr_error (arg : Z) : exn :=
  if decide (- maxint - 1 ≤ arg ≤ maxint) then ValueError
  else OverflowError.

(** [chr(arg)] *)
Definition chr (arg : Z) : result Ascii.ascii :=
  if decide (0 ≤ arg < 256) then Ret (Ascii.ascii_of_N (Z.to_N arg))
  else Raise (chr_error arg).

(** [addCode]: one character per argument *)
Definition addCode (ass : Assembler) (args : list Z) : result Assembler :=
  code' ← foldM (λ code arg, c ← chr arg; Ret (code ++ [c])) (code ass) args;
  Ret {| code := code';
         codeOffset := codeOffset ass + Z.of_nat (length args);
         firstline := firstline ass; lastline := lastline ass;
         lastoff := lastoff ass; lnotab := lnotab ass |}.

(** [while addr > 255: push(255); push(0); addr -= 255], on the pair
    [(addr, lnotab)].  The fuel is the number of tests the loop may make. *)
Fixpoint addr_loop (fuel : nat) (addr : Z) (lnotab : list Z) : Z * list Z :=
  match fuel with
  | O => (addr, lnotab)
  | S fuel' =>
      if decide (addr > 255) then addr_loop fuel' (addr - 255) (lnotab ++ [255; 0])
      else (addr, lnotab)
  end.

(** [while line > 255: push(addr); push(255); line -= 255; addr = 0], on
    the triple [(addr, line, lnotab)]. *)
Fixpoint line_loop (fuel : nat) (addr line : Z) (lnotab : list Z)
  : Z * Z * list Z :=
  match fuel with
  | O => (addr, line, lnotab)
  | S fuel' =>
      if decide (line > 255) then
        line_loop fuel' 0 (line - 255) (lnotab ++ [addr; 255])
      else (addr, line, lnotab)
  end.

(** [nextLine(lineno)].  Each loop gets as many tests as its counter can
    need: the counter loses 255 at every turn. *)
Definition nextLine (ass : Assembler) (lineno : Z) : Assembler :=
  if decide (firstline ass = 0) then
    {| code := code ass; codeOffset := codeOffset ass;
       firstline := lineno; lastline := lineno;
       lastoff := lastoff ass; lnotab := lnotab ass |}
  else
    let addr := codeOffset ass - lastoff ass in
    let line := lineno - lastline ass in
    if decide (line >= 0) then
      let r1 := addr_loop (Z.to_nat addr) addr (lnotab ass) in
      let r2 := line_loop (Z.to_nat line) r1.1 line r1.2 in
      let addr := r2.1.1 in
      let line := r2.1.2 in
      let tab := r2.2 in
      let tab := if decide (addr > 0 ∨ line > 0) then tab ++ [addr; line]
                 else tab in
      {| code := code ass; codeOffset := codeOffset ass;
         firstline := firstline ass; lastline := lineno;
         lastoff := codeOffset ass; lnotab := tab |}
    else ass.

(** [Bytecode()] *)
Definition Bytecode (ass : Assembler) : list Ascii.ascii := code ass.

(** [LineNumberTable()] *)
Definition LineNumberTable (ass : Assembler) : result (list Ascii.ascii) :=
  foldM (λ s c, ch ← chr c; Ret (s ++ [ch])) [] (lnotab ass).

(** The body of the loop of [Assemble].  An operand that is not a number
    raises [TypeError] at [divmod].  The line of a [SET_LINENO] is taken
    as a number as well: for an operand that is not a number [TypeError]
    is reported here, where the code stores the operand in [firstline]
    while that is 0 and raises [TypeError] at the subtraction of the next
    [SET_LINENO] or in [types.CodeType]; what is proved of [Assemble]
    returning is stated for line numbers that are numbers. *)
Definition Assemble_inst `{Dis} (ass : Assembler) (t : inst)
  : result Assembler :=
  match t with
  | Inst1 opname =>
      match OPNUM !! opname with
      | Some n => addCode ass [n]
      | None => Raise KeyError
      end
  | Inst2 opname oparg =>
      if decide (opname = "SET_LINENO") then
        match arg_num oparg with
        | Some lineno => Ret (nextLine ass lineno)
        | None => Raise TypeError
        end
      else
        match arg_num oparg with
        | None => Raise TypeError
        | Some n =>
            let hi := n / 256 in
            let lo := n mod 256 in
            match OPNUM !! opname with
            | Some op => addCode ass [op; lo; hi]
            | None => Raise KeyError
            end
        end
  end.

Definition Assemble `{Dis} (insts : list inst) : result Assembler :=
  foldM Assemble_inst new_Assembler insts.

(** ** [ArgEncoder] *)

Record ArgEncoder : Type := {
  enc_klass : option pyval;
  enc_consts : list pyval;
  enc_names : list pyval;
  enc_varnames : list pyval;
  enc_closure : list pyval;
}.

Definition intern_consts (enc : ArgEncoder) (arg : pyval) : nat * ArgEncoder :=
  let r := _NameToIndex arg (enc_consts enc) in
  (r.1, {| enc_klass := enc_klass enc; enc_consts := r.2;
           enc_names := enc_names enc; enc_varnames := enc_varnames enc;
           enc_closure := enc_closure enc |}).

Definition intern_names (enc : ArgEncoder) (arg : pyval) : nat * ArgEncoder :=
  let r := _NameToIndex arg (enc_names enc) in
  (r.1, {| enc_klass := enc_klass enc; enc_consts := enc_consts enc;
           enc_names := r.2; enc_varnames := enc_varnames enc;
           enc_closure := enc_closure enc |}).

Definition intern_varnames (enc : ArgEncoder) (arg : pyval) : nat * ArgEncoder :=
  let r := _NameToIndex arg (enc_varnames enc) in
  (r.1, {| enc_klass := enc_klass enc; enc_consts := enc_consts enc;
           enc_names := enc_names enc; enc_varnames := r.2;
           enc_closure := enc_closure enc |}).

Definition intern_closure (enc : ArgEncoder) (arg : pyval) : nat * ArgEncoder :=
  let r := _NameToIndex arg (enc_closure enc) in
  (r.1, {| enc_klass := enc_klass enc; enc_consts := enc_consts enc;
           enc_names := enc_names enc; enc_varnames := enc_varnames enc;
           enc_closure := r.2 |}).

(** A converter returns the index and the encoder with its tables as the
    call leaves them. *)
Definition converter : Type := ArgEncoder → pyval → result (nat * ArgEncoder).

Definition _convert_LOAD_CONST : converter := λ enc arg,
  Ret (intern_consts enc arg).

Definition _convert_LOAD_FAST : converter := λ enc arg,
  let enc := (intern_names enc arg).2 in
  Ret (intern_varnames enc arg).

Definition _convert_LOAD_NAME : converter := λ enc arg,
  let enc :=
    match enc_klass enc with
    | None => (intern_varnames enc arg).2
    | Some _ => enc
    end in
  Ret (intern_names enc arg).

Definition _convert_NAME : converter := λ enc arg,
  let enc :=
    match enc_klass enc with
    | None => (intern_varnames enc arg).2
    | Some _ => enc
    end in
  Ret (intern_names enc arg).

Definition _convert_DEREF : converter := λ enc arg,
  let enc := (intern_names enc arg).2 in
  let enc := (intern_varnames enc arg).2 in
  Ret (intern_closure enc arg).

Definition _convert_LOAD_CLOSURE : converter := λ enc arg,
  let enc := (intern_varnames enc arg).2 in
  Ret (intern_closure enc arg).

(** [self._cmp.index(arg)]: the first entry that [==] the operand. *)
Fixpoint cmp_index (arg : pyval) (l : list string) (i : nat) : result nat :=
  match l with
  | [] => Raise ValueError
  | s :: l' => if py_eq (PyStr s) arg then Ret i else cmp_index arg l' (S i)
  end.

Definition _convert_COMPARE_OP `{Dis} : converter := λ enc arg,
  i ← cmp_index arg dis_cmp_op 0;
  Ret (i, enc).

(** [_converters]: every class attribute whose name starts with
    [_convert_], under the rest of its name. *)
Definition _converters `{Dis} : gmap string converter :=
  list_to_map
    [("LOAD_CONST", _convert_LOAD_CONST);
     ("LOAD_FAST", _convert_LOAD_FAST);
     ("STORE_FAST", _convert_LOAD_FAST);
     ("DELETE_FAST", _convert_LOAD_FAST);
     ("LOAD_NAME", _convert_LOAD_NAME);
     ("NAME", _convert_NAME);
     ("STORE_NAME", _convert_NAME);
     ("DELETE_NAME", _convert_NAME);
     ("IMPORT_NAME", _convert_NAME);
     ("IMPORT_FROM", _convert_NAME);
     ("STORE_ATTR", _convert_NAME);
     ("LOAD_ATTR", _convert_NAME);
     ("DELETE_ATTR", _convert_NAME);
     ("LOAD_GLOBAL", _convert_NAME);
     ("STORE_GLOBAL", _convert_NAME);
     ("DELETE_GLOBAL", _convert_NAME);
     ("DEREF", _convert_DEREF);
     ("LOAD_DEREF", _convert_DEREF);
     ("STORE_DEREF", _convert_DEREF);
     ("LOAD_CLOSURE", _convert_LOAD_CLOSURE);
     ("COMPARE_OP", _convert_COMPARE_OP)].

(** [Get(opname)] *)
Definition Get `{Dis} (opname : string) : option converter :=
  _converters !! opname.

(** The body of the encoding loop of [MakeCodeObject].  The tables hold
    values only, so a converter applied to a block operand is reported as
    [TypeError]. *)
Definition encode_inst `{Dis} (st : list inst * ArgEncoder) (t : inst)
  : result (list inst * ArgEncoder) :=
  match t with
  | Inst1 _ => Ret (st.1 ++ [t], st.2)
  | Inst2 opname oparg =>
      match Get opname with
      | None => Ret (st.1 ++ [t], st.2)
      | Some method =>
          match oparg with
          | ArgBlock _ => Raise TypeError
          | ArgVal v =>
              r ← method st.2 v;
              Ret (st.1 ++ [Inst2 opname (ArgVal (PyInt (Z.of_nat r.1)))], r.2)
          end
      end
  end.

(** ** [PyFlowGraph] *)

(** Modelled from the spec: the flag bits of [consts.py], which is not
    among the sources: [OPTIMIZED=1], [NEWLOCALS=2], [VARARGS=4],
    [VARKEYWORDS=8]. *)
Definition CO_OPTIMIZED : Z := 1.
Definition CO_NEWLOCALS : Z := 2.
Definition CO_VARARGS : Z := 4.
Definition CO_VARKEYWORDS : Z := 8.

(** The attributes set by [FlowGraph.__init__] and
    [PyFlowGraph.__init__]. *)
Record PyFlowGraph : Type := {
  current : block_id;
  entry : block_id;
  exit : block_id;
  blocks : gset block_id;
  name : string;
  filename : string;
  docstring : pyval;
  klass : option pyval;
  flags : Z;
  consts : list pyval;
  names : list pyval;
  freevars : list pyval;
  cellvars : list pyval;
  closure : list pyval;
  varnames : list pyval;
  argcount : Z;
}.

(** [setFlag(flag)] *)
Definition setFlag (g : PyFlowGraph) (flag : Z) : PyFlowGraph :=
  {| current := current g; entry := entry g; exit := exit g;
     blocks := blocks g; name := name g; filename := filename g;
     docstring := docstring g; klass := klass g;
     flags := Z.lor (flags g) flag;
     consts := consts g; names := names g; freevars := freevars g;
     cellvars := cellvars g; closure := closure g; varnames := varnames g;
     argcount := if decide (flag = CO_VARARGS) then argcount g - 1
                 else argcount g |}.

(** [checkFlag(flag)]: [Some 1], or [None] for the implicit [return]. *)
Definition checkFlag (g : PyFlowGraph) (flag : Z) : option Z :=
  if decide (Z.land (flags g) flag = 0) then None else Some 1.

(** The new [self.cellvars] of [MakeCodeObject]:
    [[n for n in self.varnames if n in lookup]] extended with the
    iteration of the set [lookup - set(self.varnames)]. *)
Definition rearranged_cellvars `{SetIter} (g : PyFlowGraph) : list pyval :=
  let lookup := py_set (cellvars g) in
  let remaining := py_set_difference lookup (py_set (varnames g)) in
  filter (λ n, py_in n lookup = true) (varnames g) ++ val_set_iter remaining.

(** The statements of [MakeCodeObject] from [self.consts.insert] to the
    assignment of [self.closure]. *)
Definition rearrange `{SetIter} (g : PyFlowGraph) : PyFlowGraph :=
  let cellvars' := rearranged_cellvars g in
  {| current := current g; entry := entry g; exit := exit g;
     blocks := blocks g; name := name g; filename := filename g;
     docstring := docstring g; klass := klass g; flags := flags g;
     consts := docstring g :: consts g;
     names := names g; freevars := freevars g;
     cellvars := cellvars';
     closure := cellvars' ++ freevars g;
     varnames := varnames g; argcount := argcount g |}.

(** The arguments of [types.CodeType]. *)
Record CodeType : Type := {
  co_argcount : Z;
  co_nlocals : Z;
  co_stacksize : Z;
  co_flags : Z;
  co_code : list Ascii.ascii;
  co_consts : list pyval;
  co_names : list pyval;
  co_varnames : list pyval;
  co_filename : string;
  co_name : string;
  co_firstlineno : Z;
  co_lnotab : list Ascii.ascii;
  co_freevars : list pyval;
  co_cellvars : list pyval;
}.

(** [MakeCodeObject]: the graph as the call leaves it, and the code
    object.  The encoder works on the lists of the graph themselves, so its
    tables are the graph's tables afterwards. *)
Definition MakeCodeObject `{Dis, SetIter} (fuel : nat) (h : heap)
    (g : PyFlowGraph) : result (PyFlowGraph * CodeType) :=
  stacksize ← ComputeStackDepth fuel h (blocks g) (entry g) (exit g);
  order ← OrderBlocks fuel h (entry g) (exit g);
  insts ← FlattenGraph h order;
  let g := rearrange g in
  let enc := {| enc_klass := klass g; enc_consts := consts g;
                enc_names := names g; enc_varnames := varnames g;
                enc_closure := closure g |} in
  r ← foldM encode_inst ([], enc) insts;
  let enc := r.2 in
  ass ← Assemble r.1;
  let nlocals :=
    if decide (Z.land (flags g) CO_NEWLOCALS = 0) then 0
    else Z.of_nat (length (enc_varnames enc)) in
  let argcount' :=
    if decide (Z.land (flags g) CO_VARKEYWORDS = 0) then argcount g
    else argcount g - 1 in
  table ← LineNumberTable ass;
  let g' :=
    {| current := current g; entry := entry g; exit := exit g;
       blocks := blocks g; name := name g; filename := filename g;
       docstring := docstring g; klass := klass g; flags := flags g;
       consts := enc_consts enc; names := enc_names enc;
       freevars := freevars g; cellvars := cellvars g;
       closure := enc_closure enc; varnames := enc_varnames enc;
       argcount := argcount' |} in
  Ret (g',
       {| co_argcount := argcount'; co_nlocals := nlocals;
          co_stacksize := stacksize; co_flags := flags g;
          co_code := Bytecode ass; co_consts := enc_consts enc;
          co_names := enc_names enc; co_varnames := enc_varnames enc;
          co_filename := filename g; co_name := name g;
          co_firstlineno := firstline ass; co_lnotab := table;
          co_freevars := freevars g; co_cellvars := cellvars g |}).

(** ** Instances of the interpreter parameters

    The opcode table of CPython 2.7 ([opcode.py]): every name is [<n>]
    unless [def_op] replaces it. *)

Definition def_ops27 : list (nat * string) :=
  [(0, "STOP_CODE"); (1, "POP_TOP"); (2, "ROT_TWO"); (3, "ROT_THREE");
   (4, "DUP_TOP"); (5, "ROT_FOUR"); (9, "NOP"); (10, "UNARY_POSITIVE");
   (11, "UNARY_NEGATIVE"); (12, "UNARY_NOT"); (13, "UNARY_CONVERT");
   (15, "UNARY_INVERT"); (19, "BINARY_POWER"); (20, "BINARY_MULTIPLY");
   (21, "BINARY_DIVIDE"); (22, "BINARY_MODULO"); (23, "BINARY_ADD");
   (24, "BINARY_SUBTRACT"); (25, "BINARY_SUBSCR");
   (26, "BINARY_FLOOR_DIVIDE"); (27, "BINARY_TRUE_DIVIDE");
   (28, "INPLACE_FLOOR_DIVIDE"); (29, "INPLACE_TRUE_DIVIDE");
   (30, "SLICE+0"); (31, "SLICE+1"); (32, "SLICE+2"); (33, "SLICE+3");
   (40, "STORE_SLICE+0"); (41, "STORE_SLICE+1"); (42, "STORE_SLICE+2");
   (43, "STORE_SLICE+3"); (50, "DELETE_SLICE+0"); (51, "DELETE_SLICE+1");
   (52, "DELETE_SLICE+2"); (53, "DELETE_SLICE+3"); (54, "STORE_MAP");
   (55, "INPLACE_ADD"); (56, "INPLACE_SUBTRACT"); (57, "INPLACE_MULTIPLY");
   (58, "INPLACE_DIVIDE"); (59, "INPLACE_MODULO"); (60, "STORE_SUBSCR");
   (61, "DELETE_SUBSCR"); (62, "BINARY_LSHIFT"); (63, "BINARY_RSHIFT");
   (64, "BINARY_AND"); (65, "BINARY_XOR"); (66, "BINARY_OR");
   (67, "INPLACE_POWER"); (68, "GET_ITER"); (70, "PRINT_EXPR");
   (71, "PRINT_ITEM"); (72, "PRINT_NEWLINE"); (73, "PRINT_ITEM_TO");
   (74, "PRINT_NEWLINE_TO"); (75, "INPLACE_LSHIFT"); (76, "INPLACE_RSHIFT");
   (77, "INPLACE_AND"); (78, "INPLACE_XOR"); (79, "INPLACE_OR");
   (80, "BREAK_LOOP"); (81, "WITH_CLEANUP"); (82, "LOAD_LOCALS");
   (83, "RETURN_VALUE"); (84, "IMPORT_STAR"); (85, "EXEC_STMT");
   (86, "YIELD_VALUE"); (87, "POP_BLOCK"); (88, "END_FINALLY");
   (89, "BUILD_CLASS"); (90, "STORE_NAME"); (91, "DELETE_NAME");
   (92, "UNPACK_SEQUENCE"); (93, "FOR_ITER"); (94, "LIST_APPEND");
   (95, "STORE_ATTR"); (96, "DELETE_ATTR"); (97, "STORE_GLOBAL");
   (98, "DELETE_GLOBAL"); (99, "DUP_TOPX"); (100, "LOAD_CONST");
   (101, "LOAD_NAME"); (102, "BUILD_TUPLE"); (103, "BUILD_LIST");
   (104, "BUILD_SET"); (105, "BUILD_MAP"); (106, "LOAD_ATTR");
   (107, "COMPARE_OP"); (108, "IMPORT_NAME"); (109, "IMPORT_FROM");
   (110, "JUMP_FORWARD"); (111, "JUMP_IF_FALSE_OR_POP");
   (112, "JUMP_IF_TRUE_OR_POP"); (113, "JUMP_ABSOLUTE");
   (114, "POP_JUMP_IF_FALSE"); (115, "POP_JUMP_IF_TRUE");
   (116, "LOAD_GLOBAL"); (119, "CONTINUE_LOOP"); (120, "SETUP_LOOP");
   (121, "SETUP_EXCEPT"); (122, "SETUP_FINALLY"); (124, "LOAD_FAST");
   (125, "STORE_FAST"); (126, "DELETE_FAST"); (130, "RAISE_VARARGS");
   (131, "CALL_FUNCTION"); (132, "MAKE_FUNCTION"); (133, "BUILD_SLICE");
   (134, "MAKE_CLOSURE"); (135, "LOAD_CLOSURE"); (136, "LOAD_DEREF");
   (137, "STORE_DEREF"); (140, "CALL_FUNCTION_VAR");
   (141, "CALL_FUNCTION_KW"); (142, "CALL_FUNCTION_VAR_KW");
   (143, "SETUP_WITH"); (145, "EXTENDED_ARG"); (146, "SET_ADD");
   (147, "MAP_ADD")]%nat.

Definition opname27 : list string :=
  foldl (λ l p, <[p.1 := p.2]> l)
        ((λ op : nat, "<" +:+ pretty op +:+ ">") <$> seq 0 256) def_ops27.

Definition dis27 : Dis :=
  {| dis_opname := opname27;
     dis_hasjrel := [93; 110; 120; 121; 122; 143]%nat;
     dis_hasjabs := [111; 112; 113; 114; 115; 119]%nat;
     dis_cmp_op := ["<"; "<="; "=="; "!="; ">"; ">="; "in"; "not in"; "is";
                    "is not"; "exception match"; "BAD"] |}.

(** The hash of a [str] in CPython 2.7 without hash randomisation, as a
    64-bit unsigned number ([-1] is replaced by [-2]). *)
Definition str_hash27 (s : string) : Z :=
  match s with
  | EmptyString => 0
  | String c _ =>
      let step (x : Z) (c : Ascii.ascii) : Z :=
        Z.lxor ((1000003 * x) mod 2 ^ 64) (Z.of_N (Ascii.N_of_ascii c)) in
      let x := Z.shiftl (Z.of_N (Ascii.N_of_ascii c)) 7 in
      let x := foldl step x (String.list_ascii_of_string s) in
      let x := Z.lxor x (Z.of_nat (String.length s)) in
      if decide (x = 2 ^ 64 - 1) then 2 ^ 64 - 2 else x
  end.

(** Slot of a value in a hash table of eight entries. *)
Definition slot8 (v : pyval) : Z :=
  match v with
  | PyStr s => Z.land (str_hash27 s) 7
  | _ => match py_num v with Some n => Z.land n 7 | None => 0 end
  end.

Definition slot_le (v w : pyval) : Prop := slot8 v ≤ slot8 w.

Global Instance slot_le_dec : RelDecision slot_le :=
  λ v w, decide (slot8 v ≤ slot8 w).

(** Iteration by increasing block id, and by increasing slot in a table of
    eight entries.  The latter is the order of CPython 2.7 on a set of up to
    five strings that fall into different slots; the former is its order
    on a set of up to five blocks with ids below 8, a block being hashed
    to its id.  The examples that use this instance have such sets. *)
Definition sorted_iter : SetIter :=
  {| block_set_iter := λ s, merge_sort Nat.le (elements s);
     val_set_iter := merge_sort slot_le |}.


(** What the tables of [dis] satisfy in every CPython 2 release: there are
    256 opcode names, no opcode is both a relative and an absolute jump,
    and [SET_LINENO], which is not an opcode of the interpreter, is not a
    relative jump. *)
Class DisLaws `{Dis} : Prop := {
  opname_length : length dis_opname = 256%nat;
  jrel_jabs_disjoint : HAS_JREL ∩ HAS_JABS = ∅;
  SET_LINENO_not_jrel : "SET_LINENO" ∉ HAS_JREL;
}.

(** ** States of an [Assembler]

    The states [Assemble] can bring a fresh assembler to. *)
Inductive asm_reachable : Assembler → Prop :=
| reach_new : asm_reachable new_Assembler
| reach_addCode ass args ass' :
    asm_reachable ass → addCode ass args = Ret ass' → asm_reachable ass'
| reach_nextLine ass lineno :
    asm_reachable ass → asm_reachable (nextLine ass lineno).

(** The assembler after it has emitted the bytes [bytes], each in
    [[0, 255]]: one character per byte at the end of [code]. *)
Definition emitted (ass : Assembler) (bytes : list Z) : Assembler :=
  {| code := code ass ++ ((λ b, Ascii.ascii_of_N (Z.to_N b)) <$> bytes);
     codeOffset := codeOffset ass + Z.of_nat (length bytes);
     firstline := firstline ass; lastline := lastline ass;
     lastoff := lastoff ass; lnotab := lnotab ass |}.

(** ** Definitions that follow the words of the specification *)

Definition sum_Z (l : list Z) : Z := foldr Z.add 0 l.

(** "Compute a per-block delta by summing per-opcode effects." *)
Definition sum_of_effects (insts : list inst) : result Z :=
  foldM (λ s i, delta ← inst_effect i; Ret (s + delta)) 0 insts.

(** "A 1-field instruction occupies 1 byte; a 2-field instruction occupies
    3 bytes unless its opcode is [SET_LINENO] (in which case it occupies 0
    bytes)." *)
Definition occupies (i : inst) : Z :=
  match i with
  | Inst1 _ => 1
  | Inst2 opname _ => if String.eqb opname "SET_LINENO" then 0 else 3
  end.

(** The bytes a sequence of instructions occupies, by these widths. *)
Definition bytes_of (l : list inst) : Z :=
  foldr (λ i n, occupies i + n) 0 l.

(** ** Example blocks *)

(** A block that loads a constant and pops it. *)
Definition load_pop_block : Block :=
  {| label := ""; insts := [Inst2 "LOAD_CONST" (ArgVal PyNone); Inst1 "POP_TOP"];
     outEdges := ∅; next := []; prev := [] |}.

(** A heap in which every block id denotes [load_pop_block]. *)
Definition load_pop_heap : heap := λ _, load_pop_block.

(** A function graph without instructions, with the given argument names,
    cell variables and free variables. *)
Definition names_graph (args cells frees : list string) : PyFlowGraph :=
  {| current := 0%nat; entry := 0%nat; exit := 1%nat;
     blocks := {[0%nat; 1%nat]}; name := "f"; filename := "f.py";
     docstring := PyNone; klass := None;
     flags := Z.lor CO_OPTIMIZED CO_NEWLOCALS;
     consts := []; names := [];
     freevars := PyStr <$> frees; cellvars := PyStr <$> cells;
     closure := []; varnames := PyStr <$> args;
     argcount := Z.of_nat (length args) |}.

(** "Entries that also appear in [varnames] come first, preserving the
    [varnames] order, then the rest in original [cellvars] order." *)
Definition cellvars_in_original_order (g : PyFlowGraph) : list pyval :=
  filter (λ n, py_in n (cellvars g) = true) (varnames g)
  ++ filter (λ n, py_in n (varnames g) = false) (cellvars g).

(** No two entries of the list are [==]. *)
Definition py_distinct (l : list pyval) : Prop :=
  ∀ i j x y, l !! i = Some x → l !! j = Some y → py_eq x y = true → i = j.

(** ** Layout of the flat instruction list *)

(** The instructions of the blocks of a list, in order. *)
Definition flat_insts (h : heap) (blocks : list block_id) : list inst :=
  concat ((λ b, insts (h b)) <$> blocks).

(** Bytes a list of instructions occupies: 1 for a 1-field instruction,
    0 for [SET_LINENO], 3 for any other 2-field instruction. *)
Definition code_size (l : list inst) : Z := sum_Z (inst_size <$> l).

(** A jump instruction can be resolved against a block list when it has
    two fields and its operand is a block of the list. *)
Definition resolvable `{Dis} (blocks : list block_id) (i : inst) : Prop :=
  inst_opname i ∈ HAS_JREL ∪ HAS_JABS →
  match i with
  | Inst2 _ (ArgBlock B) => B ∈ blocks
  | _ => False
  end.

Global Instance resolvable_dec `{Dis} (blocks : list block_id) (i : inst) :
  Decision (resolvable blocks i).
Proof.
  unfold resolvable. destruct i as [op|op [B|v]]; apply _.
Defined.

(** Two blocks, the first with a forward jump to the second and the second
    with an absolute jump back to the first. *)
Definition two_block_heap : heap := λ b,
  match b with
  | O => {| label := "";
            insts := [Inst2 "SET_LINENO" (ArgVal (PyInt 1));
                      Inst2 "JUMP_FORWARD" (ArgBlock 1%nat);
                      Inst1 "POP_TOP"];
            outEdges := {[1%nat]}; next := []; prev := [] |}
  | _ => {| label := "";
            insts := [Inst2 "JUMP_ABSOLUTE" (ArgBlock 0%nat);
                      Inst1 "RETURN_VALUE"];
            outEdges := {[0%nat]}; next := []; prev := [] |}
  end.

(** ** Reachability in the flow graph *)

(** [c] is a child of [b]: the target of an out-edge or the next block. *)
Definition child (h : heap) (b c : block_id) : Prop :=
  c ∈ outEdges (h b) ∨ c ∈ next (h b).

(** The blocks reachable from [start] through out-edges and next links. *)
Definition reachable (h : heap) (start : block_id) : block_id → Prop :=
  rtc (child h) start.

(** [ds] is in [dominators[c]]. *)
Definition dominates (dominators : gmap block_id (gset block_id))
    (c b : block_id) : Prop :=
  ∃ ds, dominators !! c = Some ds ∧ b ∈ ds.

(** An entry block with a conditional absolute jump to block 2, the exit
    block 1, and the empty block 2. *)
Definition branch_heap : heap := λ b,
  match b with
  | 0%nat => {| label := "";
                insts := [Inst2 "POP_JUMP_IF_FALSE" (ArgBlock 2%nat)];
                outEdges := {[2%nat]}; next := []; prev := [] |}
  | 1%nat => {| label := "exit"; insts := []; outEdges := ∅;
                next := []; prev := [] |}
  | _ => {| label := ""; insts := []; outEdges := ∅;
            next := []; prev := [] |}
  end.

(** ** Invariants of the emission loop of [OrderBlocks] *)

(** What holds of the emitted [order] while the blocks [R] of the
    reachable set [R0] remain: a block other than the exit block is never
    in [order] and in [R] at once, nor twice in [order]; every reachable
    block is in one of them; [order] holds reachable blocks and the exit
    block only. *)
Definition order_inv (exit_block : block_id) (R0 : gset block_id)
    (order : list block_id) (R : gset block_id) : Prop :=
  (∀ x, x ∈ order → x ≠ exit_block → x ∉ R)
  ∧ NoDup (filter (λ x, x ≠ exit_block) order)
  ∧ (∀ x, x ∈ R0 → x ∈ R ∨ x ∈ order)
  ∧ (∀ x, x ∈ order → x = exit_block ∨ x ∈ R0).

(** What holds at the head of the loop, where [b] is emitted: [b] remains;
    the next block of a remaining block remains; and no remaining block
    has [b] as its next block. *)
Definition emit_inv (h : heap) (exit_block : block_id) (R0 : gset block_id)
    (b : block_id) (order : list block_id) (R : gset block_id) : Prop :=
  b ∈ R ∧ R ⊆ R0
  ∧ (∀ y n, y ∈ R → head (next (h y)) = Some n → n ∈ R)
  ∧ (∀ y, y ∈ R → head (next (h y)) ≠ Some b)
  ∧ order_inv exit_block R0 order R.

(** Turns of the first loop of [OrderBlocks] that the blocks of a set can
    still cause: one to add the block and one for each child pushed. *)
Definition pending_work `{SetIter} (h : heap) (s : gset block_id) : nat :=
  sum_list_with (λ b, S (length (get_children (h b)))) (elements s).

(** An entry block 0 that jumps to block 2, whose next block is the entry
    block again; block 1 is the exit block. *)
Definition loop_heap : heap := λ b,
  match b with
  | 0%nat => {| label := "";
                insts := [Inst2 "JUMP_ABSOLUTE" (ArgBlock 2%nat)];
                outEdges := {[2%nat]}; next := []; prev := [2%nat] |}
  | 1%nat => {| label := "exit"; insts := []; outEdges := ∅;
                next := []; prev := [] |}
  | _ => {| label := ""; insts := []; outEdges := ∅;
            next := [0%nat]; prev := [] |}
  end.

(** ** Fall-through in an emitted sequence *)

(** In [l] every block other than the exit block is followed by its next
    block. *)
Definition followed (h : heap) (exit_block : block_id) (l : list block_id)
  : Prop :=
  ∀ i y n, y ≠ exit_block → l !! i = Some y →
           head (next (h y)) = Some n → l !! S i = Some n.

(** The same for the blocks of [order] once [b] has been appended. *)
Definition followed_with (h : heap) (exit_block : block_id)
    (order : list block_id) (b : block_id) : Prop :=
  ∀ i y n, y ≠ exit_block → order !! i = Some y →
           head (next (h y)) = Some n → (order ++ [b]) !! S i = Some n.

(** ** Relative jumps in an emitted sequence *)

(** [x] is a block that only [find_next] can emit: it heads its chain of
    next links and is neither the entry block nor the exit block. *)
Definition picked_only (h : heap) (start_block exit_block x : block_id)
  : Prop :=
  x ≠ start_block ∧ x ≠ exit_block ∧ prev (h x) = [].

(** Each block of [l] that only [find_next] can emit comes after every
    reachable block that dominates it. *)
Definition dominators_first (h : heap) (start_block exit_block : block_id)
    (R0 : gset block_id) (dominators : gmap block_id (gset block_id))
    (l : list block_id) : Prop :=
  ∀ i x y, l !! i = Some x → picked_only h start_block exit_block x →
           y ∈ R0 → dominates dominators x y →
           ∃ j, (j < i)%nat ∧ l !! j = Some y.

(** The dominators of [b] are in [order] already, if only [find_next] can
    emit [b]. *)
Definition dominators_emitted (h : heap) (start_block exit_block : block_id)
    (R0 : gset block_id) (dominators : gmap block_id (gset block_id))
    (order : list block_id) (b : block_id) : Prop :=
  picked_only h start_block exit_block b →
  ∀ y, y ∈ R0 → dominates dominators b y → y ∈ order.

(** An entry block 0 that jumps to block 3, which has a forward jump to
    block 2; block 1 is the exit block. *)
Definition jump_heap : heap := λ b,
  match b with
  | 0%nat => {| label := "";
                insts := [Inst2 "JUMP_ABSOLUTE" (ArgBlock 3%nat)];
                outEdges := {[3%nat]}; next := []; prev := [] |}
  | 1%nat => {| label := "exit"; insts := []; outEdges := ∅;
                next := []; prev := [] |}
  | 2%nat => {| label := ""; insts := [Inst1 "POP_TOP"]; outEdges := ∅;
                next := []; prev := [] |}
  | _ => {| label := "";
            insts := [Inst2 "JUMP_FORWARD" (ArgBlock 2%nat)];
            outEdges := {[2%nat]}; next := []; prev := [] |}
  end.

(** ** The line-number table as a list of pairs *)

(** The bytes of a list of [(addr, line)] pairs. *)
Definition pair_bytes (pairs : list (Z * Z)) : list Z :=
  concat ((λ p, [p.1; p.2]) <$> pairs).

(** Both bytes of a pair are in [[0, 255]]. *)
Definition byte_pair (p : Z * Z) : Prop :=
  (0 ≤ p.1 ≤ 255) ∧ (0 ≤ p.2 ≤ 255).

(** ** Tables without duplicates *)


(** ** The table an encoded operand indexes *)

Inductive table_id : Type := Consts | Names | Varnames | Closure.

Definition table_of (t : table_id) (enc : ArgEncoder) : list pyval :=
  match t with
  | Consts => enc_consts enc
  | Names => enc_names enc
  | Varnames => enc_varnames enc
  | Closure => enc_closure enc
  end.

(** The table in which the converter of an opcode looks up the index it
    returns: the argument of the [_NameToIndex] call in its [return]
    statement.  [COMPARE_OP] and the opcodes without converter have
    none. *)
Definition operand_table (opname : string) : option table_id :=
  if decide (opname = "LOAD_CONST") then Some Consts
  else if decide (opname ∈ ["LOAD_FAST"; "STORE_FAST"; "DELETE_FAST"]) then
    Some Varnames
  else if decide (opname ∈ ["LOAD_NAME"; "NAME"; "STORE_NAME"; "DELETE_NAME";
                            "IMPORT_NAME"; "IMPORT_FROM"; "STORE_ATTR";
                            "LOAD_ATTR"; "DELETE_ATTR"; "LOAD_GLOBAL";
                            "STORE_GLOBAL"; "DELETE_GLOBAL"]) then
    Some Names
  else if decide (opname ∈ ["DEREF"; "LOAD_DEREF"; "STORE_DEREF";
                            "LOAD_CLOSURE"]) then
    Some Closure
  else None.

(** Every table of [enc'] starts with the same table of [enc]. *)
Definition enc_extends (enc enc' : ArgEncoder) : Prop :=
  enc_klass enc' = enc_klass enc
  ∧ ∀ t, table_of t enc `prefix_of` table_of t enc'.

(** What the encoding loop of [MakeCodeObject] leaves in place of the
    instruction [t] when the final tables are those of [enc']: an
    instruction without converter is kept; an operand with a converter is
    replaced by an index, which for the converters that return a
    [_NameToIndex] result points in their table to an entry with the type
    and the value of the operand. *)
Definition encodes `{Dis} (enc' : ArgEncoder) (t t' : inst) : Prop :=
  match t with
  | Inst1 _ => t' = t
  | Inst2 opname oparg =>
      match Get opname, oparg with
      | None, _ => t' = t
      | Some _, ArgBlock _ => False
      | Some _, ArgVal v =>
          ∃ idx : nat,
            t' = Inst2 opname (ArgVal (PyInt (Z.of_nat idx)))
            ∧ ∀ tb, operand_table opname = Some tb →
                    ∃ item, table_of tb enc' !! idx = Some item
                            ∧ strict_eq v item = true
      end
  end.

(** ** Building a graph: [Block()] and the methods of [FlowGraph] *)

(** The objects a program that builds graphs works on: the blocks
    allocated so far, under their [bid], and the module variable
    [gBlockCounter]. *)
Record store : Type := {
  s_heap : heap;
  gBlockCounter : nat;
}.

(** [Block(label)]: the new block has the counter as its [bid]. *)
Definition new_Block (label : string) (s : store) : block_id * store :=
  let bid := gBlockCounter s in
  (bid,
   {| s_heap := <[bid := {| label := label; insts := []; outEdges := ∅;
                            next := []; prev := [] |}]> (s_heap s);
      gBlockCounter := S bid |}).

(** [Block.emit(inst)] *)
Definition Block_emit (h : heap) (self : block_id) (i : inst) : heap :=
  let b := h self in
  <[self := {| label := label b; insts := insts b ++ [i];
               outEdges := outEdges b; next := next b; prev := prev b |}]> h.

(** [Block.addOutEdge(block)] *)
Definition addOutEdge (h : heap) (self block : block_id) : heap :=
  let b := h self in
  <[self := {| label := label b; insts := insts b;
               outEdges := {[block]} ∪ outEdges b;
               next := next b; prev := prev b |}]> h.

(** [Block.addNext(block)]: each [append] is followed by its [assert]. *)
Definition addNext (h : heap) (self block : block_id) : result heap :=
  let b := h self in
  let h := <[self := {| label := label b; insts := insts b;
                        outEdges := outEdges b; next := next b ++ [block];
                        prev := prev b |}]> h in
  if decide (length (next (h self)) = 1%nat) then
    let c := h block in
    let h := <[block := {| label := label c; insts := insts c;
                           outEdges := outEdges c; next := next c;
                           prev := prev c ++ [self] |}]> h in
    if decide (length (prev (h block)) = 1%nat) then Ret h
    else Raise AssertionError
  else Raise AssertionError.

(** The attributes of the base class [FlowGraph]. *)
Record FlowGraph : Type := {
  fg_current : block_id;
  fg_entry : block_id;
  fg_exit : block_id;
  fg_blocks : gset block_id;
}.

(** [FlowGraph.__init__] *)
Definition new_FlowGraph (s : store) : FlowGraph * store :=
  let r1 := new_Block "" s in
  let r2 := new_Block "exit" r1.2 in
  ({| fg_current := r1.1; fg_entry := r1.1; fg_exit := r2.1;
      fg_blocks := {[r2.1]} ∪ ({[r1.1]} ∪ ∅) |}, r2.2).

(** [startBlock(block)], with [DEBUG] false as the class has it. *)
Definition startBlock (g : FlowGraph) (block : block_id) : FlowGraph :=
  {| fg_current := block; fg_entry := fg_entry g; fg_exit := fg_exit g;
     fg_blocks := fg_blocks g |}.

(** [newBlock()] *)
Definition newBlock (g : FlowGraph) (s : store)
  : block_id * FlowGraph * store :=
  let r := new_Block "" s in
  (r.1,
   {| fg_current := fg_current g; fg_entry := fg_entry g;
      fg_exit := fg_exit g; fg_blocks := {[r.1]} ∪ fg_blocks g |},
   r.2).

(** [nextBlock(block=None)] *)
Definition nextBlock (g : FlowGraph) (s : store) (block : option block_id)
  : result (FlowGraph * store) :=
  let r := match block with
           | None => newBlock g s
           | Some b => (b, g, s)
           end in
  let block := r.1.1 in
  let g := r.1.2 in
  let s := r.2 in
  h ← addNext (s_heap s) (fg_current g) block;
  Ret (startBlock g block,
       {| s_heap := h; gBlockCounter := gBlockCounter s |}).

(** [startExitBlock()] *)
Definition startExitBlock (g : FlowGraph) : FlowGraph :=
  startBlock g (fg_exit g).

(** [FlowGraph.emit(inst...)] *)
Definition FlowGraph_emit (g : FlowGraph) (s : store) (i : inst) : store :=
  let h := s_heap s in
  let h := match i with
           | Inst2 _ (ArgBlock block) => addOutEdge h (fg_current g) block
           | _ => h
           end in
  {| s_heap := Block_emit h (fg_current g) i;
     gBlockCounter := gBlockCounter s |}.

(** The attributes a [PyFlowGraph] inherits. *)
Definition base (g : PyFlowGraph) : FlowGraph :=
  {| fg_current := current g; fg_entry := entry g; fg_exit := exit g;
     fg_blocks := blocks g |}.

(** The graphs a program obtains from [FlowGraph()] by calls of the
    methods above, with blocks of the graph as arguments. *)
Inductive built : FlowGraph → store → Prop :=
| built_init (s : store) :
    built (new_FlowGraph s).1 (new_FlowGraph s).2
| built_startBlock (g : FlowGraph) (s : store) (block : block_id) :
    built g s → block ∈ fg_blocks g → built (startBlock g block) s
| built_newBlock (g : FlowGraph) (s : store) :
    built g s → built (newBlock g s).1.2 (newBlock g s).2
| built_nextBlock (g g' : FlowGraph) (s s' : store)
    (block : option block_id) :
    built g s → (∀ b, block = Some b → b ∈ fg_blocks g) →
    nextBlock g s block = Ret (g', s') → built g' s'
| built_startExitBlock (g : FlowGraph) (s : store) :
    built g s → built (startExitBlock g) s
| built_emit (g : FlowGraph) (s : store) (i : inst) :
    built g s →
    (∀ op block, i = Inst2 op (ArgBlock block) → block ∈ fg_blocks g) →
    built g (FlowGraph_emit g s i).

(** What the methods keep true of the blocks of a graph: the attributes of
    the graph are blocks of it, its blocks are allocated, their links lead
    to blocks of the graph, a block operand is an out-edge, and a next
    link is mirrored by the only [prev] link of its target. *)
Definition graph_inv (g : FlowGraph) (s : store) : Prop :=
  let h := s_heap s in
  fg_current g ∈ fg_blocks g ∧ fg_entry g ∈ fg_blocks g
  ∧ fg_exit g ∈ fg_blocks g
  ∧ (∀ b, b ∈ fg_blocks g → (b < gBlockCounter s)%nat)
  ∧ (∀ b c, b ∈ fg_blocks g → child h b c → c ∈ fg_blocks g)
  ∧ (∀ b op t, b ∈ fg_blocks g → Inst2 op (ArgBlock t) ∈ insts (h b) →
               t ∈ outEdges (h b))
  ∧ (∀ b n, b ∈ fg_blocks g → n ∈ next (h b) →
            next (h b) = [n] ∧ prev (h n) = [b]).

(** A graph built through the methods from an empty module: the entry
    block 0 tests a constant and jumps to the new block 2, which is also
    made its next block and returns; block 1 is the exit block. *)
Definition sample_store : store :=
  {| s_heap := λ _, {| label := ""; insts := []; outEdges := ∅;
                       next := []; prev := [] |};
     gBlockCounter := 0 |}.

Definition sample_new : block_id * FlowGraph * store :=
  newBlock (new_FlowGraph sample_store).1 (new_FlowGraph sample_store).2.

Definition sample_jump : store :=
  FlowGraph_emit sample_new.1.2
    (FlowGraph_emit sample_new.1.2 sample_new.2
       (Inst2 "LOAD_CONST" (ArgVal (PyInt 1))))
    (Inst2 "POP_JUMP_IF_FALSE" (ArgBlock sample_new.1.1)).

Definition sample_next : result (FlowGraph * store) :=
  nextBlock sample_new.1.2 sample_jump (Some sample_new.1.1).

Definition sample_graph : FlowGraph * store :=
  match sample_next with
  | Ret (g, s) =>
      (g, FlowGraph_emit g
            (FlowGraph_emit g s (Inst2 "LOAD_CONST" (ArgVal PyNone)))
            (Inst1 "RETURN_VALUE"))
  | _ => (sample_new.1.2, sample_jump)
  end.

(** The sample graph as the graph of a function [f(a, **kw)]. *)
Definition sample_function : PyFlowGraph :=
  {| current := fg_current sample_graph.1; entry := fg_entry sample_graph.1;
     exit := fg_exit sample_graph.1; blocks := fg_blocks sample_graph.1;
     name := "f"; filename := "f.py"; docstring := PyStr "doc";
     klass := None;
     flags := Z.lor (Z.lor CO_OPTIMIZED CO_NEWLOCALS) CO_VARKEYWORDS;
     consts := []; names := []; freevars := []; cellvars := [];
     closure := []; varnames := [PyStr "a"; PyStr "kw"]; argcount := 2 |}.

(** ** The order [OrderBlocks] must respect *)





(** An entry block 0 with a loop set-up that targets block 3 and a
    conditional absolute jump to block 4; its next block is 2, whose next
    block is 3; block 4 jumps back to block 3; block 1 is the exit
    block. *)
Definition chain_heap : heap := λ b,
  match b with
  | 0%nat => {| label := "";
                insts := [Inst2 "SETUP_LOOP" (ArgBlock 3%nat);
                          Inst2 "POP_JUMP_IF_FALSE" (ArgBlock 4%nat)];
                outEdges := {[3%nat; 4%nat]}; next := [2%nat]; prev := [] |}
  | 1%nat => {| label := "exit"; insts := []; outEdges := ∅;
                next := []; prev := [] |}
  | 2%nat => {| label := ""; insts := [Inst1 "POP_TOP"]; outEdges := ∅;
                next := [3%nat]; prev := [0%nat] |}
  | 3%nat => {| label := ""; insts := [Inst1 "POP_BLOCK"]; outEdges := ∅;
                next := []; prev := [2%nat] |}
  | 4%nat => {| label := "";
                insts := [Inst2 "JUMP_ABSOLUTE" (ArgBlock 3%nat)];
                outEdges := {[3%nat]}; next := []; prev := [] |}
  | _ => {| label := ""; insts := []; outEdges := ∅;
            next := []; prev := [] |}
  end.

(** A position for each block of [chain_heap]. *)
Definition chain_pos (b : block_id) : nat :=
  match b with
  | 2%nat => 1
  | 3%nat => 2
  | 4%nat => 3
  | _ => 0
  end.
(** The instructions the loop of [Assemble] packs without raising: the name
    is a key of [OPNUM], and the operand of a 2-field instruction other than
    [SET_LINENO] is a number that [divmod] splits in two bytes. *)
Definition packable `{Dis} (t : inst) : Prop :=
  match t with
  | Inst1 opname => is_Some (OPNUM !! opname)
  | Inst2 opname oparg =>
      opname = "SET_LINENO"
      ∨ is_Some (OPNUM !! opname)
        ∧ ∃ n, arg_num oparg = Some n ∧ 0 ≤ n ≤ 65535
  end.

(** The line numbers of an instruction list are numbers. *)
Definition numbered_lines (insts : list inst) : Prop :=
  ∀ arg, Inst2 "SET_LINENO" arg ∈ insts → is_Some (arg_num arg).


(** * Properties *)

(** ** The result monad *)

Lemma bind_Ret_inv {A B} (m : result A) (k : A → result B) (b : B) :
  m ≫= k = Ret b → ∃ a, m = Ret a ∧ k a = Ret b.
Proof. destruct m; simpl; intros H; try discriminate. eauto. Qed.

Lemma foldM_app {A B} (f : A → B → result A) (a : A) (l1 l2 : list B) :
  foldM f a (l1 ++ l2) = foldM f a l1 ≫= λ a', foldM f a' l2.
Proof.
  revert a. induction l1 as [|x l1 IH]; intros a; simpl; [done|].
  destruct (f a x); simpl; auto.
Qed.

Ltac inv_bind H :=
  let a := fresh "r" in
  let H1 := fresh "Hr" in
  apply bind_Ret_inv in H as (a & H1 & H).

(** ** Equality of values *)

Lemma pyval_nested_ind (P : pyval → Prop) :
  P PyNone →
  (∀ b, P (PyBool b)) →
  (∀ z, P (PyInt z)) →
  (∀ z, P (PyLong z)) →
  (∀ s, P (PyStr s)) →
  (∀ l, Forall P l → P (PyTuple l)) →
  ∀ v, P v.
Proof.
  intros HN HB HI HL HS HT. fix IH 1.
  intros [|b|z|z|s|l];
    [apply HN | apply HB | apply HI | apply HL | apply HS | apply HT].
  induction l as [|x l IHl]; constructor; [apply IH | apply IHl].
Qed.

Lemma py_eq_refl (v : pyval) : py_eq v v = true.
Proof.
  induction v as [ | | | | |l IHv] using pyval_nested_ind; simpl;
    try done; try (by apply bool_decide_eq_true).
  induction IHv as [|x l Hx _ IHl]; [done|].
  by rewrite Hx, IHl.
Qed.

Lemma strict_eq_spec (name item : pyval) :
  strict_eq name item = true ↔
  py_type item = py_type name ∧ py_eq item name = true.
Proof.
  unfold strict_eq. rewrite andb_true_iff, bool_decide_eq_true.
  split; intros [H1 H2]; split; auto.
Qed.

Lemma strict_eq_refl (v : pyval) : strict_eq v v = true.
Proof. apply strict_eq_spec. split; [done | apply py_eq_refl]. Qed.

(** ** [_NameToIndex] *)

Lemma find_index_Some name L i j :
  find_index name L i = Some j →
  ∃ k item, j = (i + k)%nat ∧ L !! k = Some item ∧ strict_eq name item = true.
Proof.
  revert i. induction L as [|x L IH]; intros i; simpl; [done|].
  destruct (strict_eq name x) eqn:E.
  - intros [= <-]. exists 0%nat, x. split; [lia | done].
  - intros (k & item & -> & Hk & Hs)%IH.
    exists (S k), item. split; [lia | done].
Qed.

Lemma find_index_None name L i :
  find_index name L i = None ↔ Forall (λ item, strict_eq name item = false) L.
Proof.
  revert i. induction L as [|x L IH]; intros i; simpl.
  - split; [constructor | done].
  - destruct (strict_eq name x) eqn:E.
    + split; [done | by inversion 1; congruence].
    + rewrite IH. split; [by constructor | by inversion 1].
Qed.

Lemma find_index_app_fresh name L i :
  Forall (λ item, strict_eq name item = false) L →
  find_index name (L ++ [name]) i = Some (i + length L)%nat.
Proof.
  intros HL. revert i. induction HL as [|x L Hx _ IH]; intros i; simpl.
  - rewrite strict_eq_refl. f_equal. lia.
  - rewrite Hx, IH. f_equal. lia.
Qed.

Lemma find_index_app_found name L L' i j :
  find_index name L i = Some j → find_index name (L ++ L') i = Some j.
Proof.
  revert i. induction L as [|x L IH]; intros i; simpl; [done|].
  destruct (strict_eq name x); auto.
Qed.

Lemma NameToIndex_cases name L :
  (Forall (λ item, strict_eq name item = false) L
   ∧ _NameToIndex name L = (length L, L ++ [name]))
  ∨ (∃ k item, L !! k = Some item ∧ strict_eq name item = true
       ∧ _NameToIndex name L = (k, L)).
Proof.
  unfold _NameToIndex. destruct (find_index name L 0) as [j|] eqn:E.
  - right. apply find_index_Some in E as (k & item & -> & Hk & Hs). eauto.
  - left. by apply find_index_None in E.
Qed.

Lemma NameToIndex_lookup name L :
  ∃ item, (_NameToIndex name L).2 !! (_NameToIndex name L).1 = Some item
          ∧ strict_eq name item = true.
Proof.
  destruct (NameToIndex_cases name L) as [[_ ->]|(k & item & Hk & Hs & ->)];
    simpl.
  - exists name. split; [|apply strict_eq_refl].
    rewrite lookup_app_r by lia. by rewrite Nat.sub_diag.
  - eauto.
Qed.

Lemma NameToIndex_idempotent name L :
  _NameToIndex name (_NameToIndex name L).2 = _NameToIndex name L.
Proof.
  destruct (NameToIndex_cases name L) as [[HL E]|(k & item & Hk & Hs & E)].
  - rewrite E. simpl. unfold _NameToIndex at 1.
    by rewrite find_index_app_fresh.
  - by rewrite E.
Qed.

Lemma NameToIndex_prefix name L :
  ∃ L', (_NameToIndex name L).2 = L ++ L'.
Proof.
  destruct (NameToIndex_cases name L) as [[_ ->]|(k & item & _ & _ & ->)];
    simpl; [by eexists | exists []; by rewrite app_nil_r].
Qed.

(** C4: the entry at the returned index has the type and the value of the
    operand; the table grows by the operand exactly when no entry has both
    its type and its value, and is unchanged otherwise; interning [2] and
    then [2L] gives two entries at two indices, and interning a value a
    second time changes nothing and returns the same index. *)
Theorem NameToIndex_type_strict (name : pyval) (L : list pyval) :
  (∃ item, (_NameToIndex name L).2 !! (_NameToIndex name L).1 = Some item
           ∧ py_type item = py_type name ∧ py_eq item name = true)
  ∧ ((_NameToIndex name L).2 = L ++ [name] ↔
     ∀ item, item ∈ L →
             ¬ (py_type item = py_type name ∧ py_eq item name = true))
  ∧ ((_NameToIndex name L).2 = L ∨ (_NameToIndex name L).2 = L ++ [name])
  ∧ (let r1 := _NameToIndex (PyInt 2) L in
     let r2 := _NameToIndex (PyLong 2) r1.2 in
     r1.1 ≠ r2.1
     ∧ r2.2 !! r1.1 = Some (PyInt 2) ∧ r2.2 !! r2.1 = Some (PyLong 2))
  ∧ _NameToIndex name (_NameToIndex name L).2 = _NameToIndex name L.
Proof.
  split; [|split; [|split; [|split]]].
  - destruct (NameToIndex_lookup name L) as (item & Hi & Hs).
    apply strict_eq_spec in Hs. eauto.
  - destruct (NameToIndex_cases name L) as [[HL ->]|(k & item & Hk & Hs & ->)];
      simpl.
    + split; [|done]. intros _ item Hin Hs%strict_eq_spec.
      rewrite Forall_forall in HL. specialize (HL _ Hin). congruence.
    + split.
      * intros E. apply (f_equal length) in E.
        rewrite length_app in E. simpl in E. lia.
      * intros HL. exfalso. apply (HL item).
        -- by eapply list_elem_of_lookup_2.
        -- by apply strict_eq_spec.
  - destruct (NameToIndex_cases name L) as [[_ ->]|(k & item & _ & _ & ->)];
      auto.
  - intros r1 r2.
    assert (H1 : r2.2 !! r1.1 = Some (PyInt 2)).
    { destruct (NameToIndex_lookup (PyInt 2) L) as (item & Hi & Hs).
      destruct (NameToIndex_prefix (PyLong 2) r1.2) as [L' HL'].
      subst r2. rewrite HL'. apply lookup_app_l_Some. subst r1.
      rewrite Hi. f_equal.
      apply strict_eq_spec in Hs as [Ht He].
      destruct item; try discriminate. simpl in He.
      by apply bool_decide_eq_true in He as ->. }
    assert (H2 : r2.2 !! r2.1 = Some (PyLong 2)).
    { destruct (NameToIndex_lookup (PyLong 2) r1.2) as (item & Hi & Hs).
      subst r2. rewrite Hi. f_equal.
      apply strict_eq_spec in Hs as [Ht He].
      destruct item; try discriminate. simpl in He.
      by apply bool_decide_eq_true in He as ->. }
    split; [|done]. intros E. rewrite E in H1. congruence.
  - apply NameToIndex_idempotent.
Qed.

(** ** [ArgEncoder._convert_LOAD_NAME] *)

(** C8: [_convert_LOAD_NAME] returns the index of the operand in [names],
    where it is interned; with [klass] set [varnames] is left as it was, and
    with [klass] unset the operand is interned in [varnames] as well.  The
    other tables are not touched. *)
Theorem convert_LOAD_NAME_tables (enc : ArgEncoder) (arg : pyval) :
  ∃ (i : nat) (enc' : ArgEncoder),
    _convert_LOAD_NAME enc arg = Ret (i, enc')
    ∧ i = (_NameToIndex arg (enc_names enc)).1
    ∧ enc_names enc' = (_NameToIndex arg (enc_names enc)).2
    ∧ (∃ item, enc_names enc' !! i = Some item
               ∧ py_type item = py_type arg ∧ py_eq item arg = true)
    ∧ enc_varnames enc' =
        match enc_klass enc with
        | Some _ => enc_varnames enc
        | None => (_NameToIndex arg (enc_varnames enc)).2
        end
    ∧ (enc_klass enc = None →
       ∃ j item, enc_varnames enc' !! j = Some item
                 ∧ py_type item = py_type arg ∧ py_eq item arg = true)
    ∧ enc_consts enc' = enc_consts enc
    ∧ enc_closure enc' = enc_closure enc
    ∧ enc_klass enc' = enc_klass enc.
Proof.
  unfold _convert_LOAD_NAME. eexists _, _. split; [reflexivity|].
  destruct (NameToIndex_lookup arg (enc_names enc)) as (item & Hi & Hs).
  apply strict_eq_spec in Hs.
  destruct (enc_klass enc) as [k|] eqn:Ek; simpl; rewrite ?Ek;
    (repeat split; try done; try (by exists item)).
  intros _.
  destruct (NameToIndex_lookup arg (enc_varnames enc)) as (it & Hj & Hs').
  apply strict_eq_spec in Hs'. eauto.
Qed.

(** ** [Block.has_unconditional_transfer] *)

Lemma has_unconditional_transfer_two_fields (b : Block) (op : string)
    (arg : oparg) :
  last (insts b) = Some (Inst2 op arg) →
  has_unconditional_transfer b = Some (bool_decide (op ∈ _uncond_transfer)).
Proof. unfold has_unconditional_transfer. by intros ->. Qed.

Lemma has_unconditional_transfer_one_field (b : Block) (op : string) :
  last (insts b) = Some (Inst1 op) → has_unconditional_transfer b = None.
Proof. unfold has_unconditional_transfer. by intros ->. Qed.

(** C3: on a block that ends with the 1-field instruction
    [('RETURN_VALUE',)] the method returns [None], which is false, although
    [RETURN_VALUE] is in [_uncond_transfer]. *)
Theorem has_unconditional_transfer_bare_RETURN_VALUE (lbl : string)
    (before : list inst) (out : gset block_id) (nx pv : list block_id) :
  let b := {| label := lbl; insts := before ++ [Inst1 "RETURN_VALUE"];
              outEdges := out; next := nx; prev := pv |} in
  "RETURN_VALUE" ∈ _uncond_transfer
  ∧ has_unconditional_transfer b = None
  ∧ truthy (has_unconditional_transfer b) = false.
Proof.
  intros b. split; [apply list_elem_of_here|].
  assert (has_unconditional_transfer b = None) as ->; [|done].
  apply (has_unconditional_transfer_one_field b "RETURN_VALUE").
  subst b. simpl. apply last_snoc.
Qed.

(** ** [PyFlowGraph.setFlag] *)

(** C10: [setFlag(CO_VARARGS)] takes one off [argcount] whatever [flags]
    holds, so twice in a row takes two off; any other flag value leaves
    [argcount] alone; [flags] becomes [flags | flag] and no other attribute
    changes. *)
Theorem setFlag_argcount (g : PyFlowGraph) (flag : Z) :
  argcount (setFlag g CO_VARARGS) = argcount g - 1
  ∧ argcount (setFlag (setFlag g CO_VARARGS) CO_VARARGS) = argcount g - 2
  ∧ (flag ≠ CO_VARARGS → argcount (setFlag g flag) = argcount g)
  ∧ flags (setFlag g flag) = Z.lor (flags g) flag
  ∧ current (setFlag g flag) = current g
  ∧ entry (setFlag g flag) = entry g
  ∧ exit (setFlag g flag) = exit g
  ∧ blocks (setFlag g flag) = blocks g
  ∧ name (setFlag g flag) = name g
  ∧ filename (setFlag g flag) = filename g
  ∧ docstring (setFlag g flag) = docstring g
  ∧ klass (setFlag g flag) = klass g
  ∧ consts (setFlag g flag) = consts g
  ∧ names (setFlag g flag) = names g
  ∧ freevars (setFlag g flag) = freevars g
  ∧ cellvars (setFlag g flag) = cellvars g
  ∧ closure (setFlag g flag) = closure g
  ∧ varnames (setFlag g flag) = varnames g.
Proof.
  repeat split; simpl; try done.
  - lia.
  - intros Hne. by destruct (decide (flag = CO_VARARGS)).
Qed.

(** ** The tables of CPython 2.7 *)

Global Instance dis27_laws : @DisLaws dis27.
Proof.
  split.
  - reflexivity.
  - apply (bool_decide_unpack _). by vm_compute.
  - apply (bool_decide_unpack _). by vm_compute.
Qed.

Lemma foldl_insert_lookup (l : list (nat * string)) (m : gmap string Z)
    (name : string) (op : Z) :
  foldl (λ m p, <[p.2 := Z.of_nat p.1]> m) m l !! name = Some op →
  m !! name = Some op ∨ ∃ i, (i, name) ∈ l ∧ op = Z.of_nat i.
Proof.
  revert m. induction l as [|[i s] l IH]; intros m; simpl; [auto|].
  intros [H|(j & Hj & ->)]%IH.
  - destruct (decide (s = name)) as [->|Hne].
    + rewrite lookup_insert_eq in H. injection H as <-.
      right. exists i. split; [apply list_elem_of_here | done].
    + rewrite lookup_insert_ne in H by done. auto.
  - right. exists j. split; [by apply list_elem_of_further | done].
Qed.

Lemma OPNUM_range `{Dis} (name : string) (op : Z) :
  OPNUM !! name = Some op → 0 ≤ op < Z.of_nat (length dis_opname).
Proof.
  unfold OPNUM. intros [H0|(i & Hi & ->)]%foldl_insert_lookup.
  - by rewrite lookup_empty in H0.
  - apply elem_of_lookup_imap in Hi as (j & y & [= -> ->] & Hj).
    apply lookup_lt_Some in Hj. lia.
Qed.

(** ** Packing one instruction *)

Lemma chr_Ret (n : Z) :
  0 ≤ n < 256 → chr n = Ret (Ascii.ascii_of_N (Z.to_N n)).
Proof. intros Hn. unfold chr. by destruct (decide (0 ≤ n < 256)). Qed.

Lemma chr_Raise (n : Z) : ¬ 0 ≤ n < 256 → chr n = Raise (chr_error n).
Proof. intros Hn. unfold chr. by destruct (decide (0 ≤ n < 256)). Qed.

(** C9: for an instruction [(opname, oparg)] other than [SET_LINENO] whose
    [opname] is in [OPNUM] and whose [oparg] is the number [n], packing
    raises exactly when [n] is not in [[0, 65535]]: the exception is that
    of [chr(n div 256)], [ValueError], or [OverflowError] when [n div 256]
    does not fit a C [long].  Otherwise it appends the three bytes [op],
    [n mod 256], [n div 256], each in [[0, 255]], and advances
    [codeOffset] by 3. *)
Theorem Assemble_inst_oparg_range `{Dis} (laws : DisLaws) (ass : Assembler)
    (opname : string) (oparg : oparg) (op n : Z) :
  opname ≠ "SET_LINENO" →
  OPNUM !! opname = Some op →
  arg_num oparg = Some n →
  ((∃ e, Assemble_inst ass (Inst2 opname oparg) = Raise e) ↔ ¬ 0 ≤ n ≤ 65535)
  ∧ (¬ 0 ≤ n ≤ 65535 →
     Assemble_inst ass (Inst2 opname oparg)
     = Raise (if decide (- maxint - 1 ≤ n / 256 ≤ maxint) then ValueError
              else OverflowError))
  ∧ (0 ≤ n ≤ 65535 →
     0 ≤ op < 256 ∧ 0 ≤ n mod 256 < 256 ∧ 0 ≤ n / 256 < 256
     ∧ Assemble_inst ass (Inst2 opname oparg) =
       Ret (emitted ass [op; n mod 256; n / 256])).
Proof.
  intros Hop Hnum Harg.
  assert (Hopr : 0 ≤ op < 256).
  { pose proof (OPNUM_range _ _ Hnum) as Hr. rewrite opname_length in Hr. lia. }
  assert (Hlo : 0 ≤ n mod 256 < 256) by (apply Z.mod_pos_bound; lia).
  assert (Hin : 0 ≤ n ≤ 65535 →
    Assemble_inst ass (Inst2 opname oparg) =
       Ret (emitted ass [op; n mod 256; n / 256])).
  { intros Hn.
    assert (Hhi : 0 ≤ n / 256 < 256).
    { split; [apply Z.div_pos; lia | apply Z.div_lt_upper_bound; lia]. }
    unfold Assemble_inst. destruct (decide (opname = "SET_LINENO")); [done|].
    rewrite Harg, Hnum. unfold addCode, emitted. simpl.
    rewrite (chr_Ret op), (chr_Ret (n mod 256)), (chr_Ret (n / 256)) by done.
    simpl. by rewrite <- !app_assoc. }
  assert (Hout : ¬ 0 ≤ n ≤ 65535 →
    Assemble_inst ass (Inst2 opname oparg) = Raise (chr_error (n / 256))).
  { intros Hn.
    assert (Hhi : ¬ 0 ≤ n / 256 < 256).
    { intros [Hh1 Hh2]. apply Hn.
      pose proof (Z.div_mod n 256 ltac:(lia)) as Hdm. lia. }
    unfold Assemble_inst. destruct (decide (opname = "SET_LINENO")); [done|].
    rewrite Harg, Hnum. unfold addCode. simpl.
    rewrite (chr_Ret op), (chr_Ret (n mod 256)) by done. simpl.
    by rewrite (chr_Raise (n / 256)). }
  split; [|split].
  - split.
    + intros [e He] Hn. rewrite (Hin Hn) in He. discriminate.
    + intros Hn. eexists. by apply Hout.
  - done.
  - intros Hn. repeat split; try lia; try (by apply Hin).
    + apply Z.div_pos; lia.
    + apply Z.div_lt_upper_bound; lia.
Qed.

(** The instruction [('LOAD_CONST', 258)] under the tables of CPython
    2.7. *)
Lemma Assemble_inst_oparg_range_witness :
  "LOAD_CONST" ≠ "SET_LINENO"
  ∧ @OPNUM dis27 !! "LOAD_CONST" = Some 100
  ∧ arg_num (ArgVal (PyInt 258)) = Some 258
  ∧ ((∃ e, @Assemble_inst dis27 new_Assembler
             (Inst2 "LOAD_CONST" (ArgVal (PyInt 258))) = Raise e)
     ↔ ¬ 0 ≤ 258 ≤ 65535)
  ∧ (¬ 0 ≤ 258 ≤ 65535 →
     @Assemble_inst dis27 new_Assembler
       (Inst2 "LOAD_CONST" (ArgVal (PyInt 258)))
     = Raise (if decide (- maxint - 1 ≤ 258 / 256 ≤ maxint) then ValueError
              else OverflowError))
  ∧ (0 ≤ 258 ≤ 65535 →
     0 ≤ 100 < 256 ∧ 0 ≤ 258 mod 256 < 256 ∧ 0 ≤ 258 / 256 < 256
     ∧ @Assemble_inst dis27 new_Assembler
         (Inst2 "LOAD_CONST" (ArgVal (PyInt 258))) =
       Ret (emitted new_Assembler [100; 258 mod 256; 258 / 256])).
Proof.
  assert (H1 : "LOAD_CONST" ≠ "SET_LINENO") by discriminate.
  assert (H2 : @OPNUM dis27 !! "LOAD_CONST" = Some 100)
    by (vm_compute; reflexivity).
  assert (H3 : arg_num (ArgVal (PyInt 258)) = Some 258) by reflexivity.
  split; [exact H1|]. split; [exact H2|]. split; [exact H3|].
  exact (@Assemble_inst_oparg_range dis27 dis27_laws new_Assembler
           "LOAD_CONST" (ArgVal (PyInt 258)) 100 258 H1 H2 H3).
Defined.

(** ** [Assembler.addCode] and [Assembler.nextLine] *)

Lemma addCode_Ret (ass : Assembler) (args : list Z) :
  Forall (λ b, 0 ≤ b < 256) args → addCode ass args = Ret (emitted ass args).
Proof.
  intros Hargs. unfold addCode, emitted.
  assert (E : ∀ c0, foldM (λ code arg, c ← chr arg; Ret (code ++ [c])) c0 args
              = Ret (c0 ++ ((λ b, Ascii.ascii_of_N (Z.to_N b)) <$> args))).
  { induction Hargs as [|b args Hb _ IH]; intros c0; simpl.
    - by rewrite app_nil_r.
    - rewrite (chr_Ret b Hb). simpl. rewrite IH. by rewrite <- app_assoc. }
  by rewrite E.
Qed.

(** The offsets of a reachable assembler: [lastoff] never passes
    [codeOffset]. *)
Lemma asm_reachable_offsets (ass : Assembler) :
  asm_reachable ass → 0 ≤ lastoff ass ≤ codeOffset ass.
Proof.
  induction 1 as [|ass args ass' _ IH Hadd|ass lineno _ IH].
  - simpl. lia.
  - unfold addCode in Hadd. inv_bind Hadd. injection Hadd as <-. simpl. lia.
  - unfold nextLine. repeat case_decide; simpl; lia.
Qed.

Lemma addr_loop_spec (fuel : nat) (addr : Z) (tab : list Z) :
  addr ≤ 255 + 255 * Z.of_nat fuel →
  ∃ k : nat,
    addr_loop fuel addr tab
    = (addr - 255 * Z.of_nat k, tab ++ concat (replicate k [255; 0]))
    ∧ addr - 255 * Z.of_nat k ≤ 255
    ∧ (k ≠ 0%nat → 255 < addr - 255 * (Z.of_nat k - 1)).
Proof.
  revert addr tab. induction fuel as [|fuel IH]; intros addr tab Hf; simpl.
  - exists 0%nat. simpl. rewrite app_nil_r. repeat split; [f_equal; lia | lia | done].
  - destruct (decide (addr > 255)) as [Hgt|Hle].
    + destruct (IH (addr - 255) (tab ++ [255; 0]) ltac:(lia))
        as (k & E & Hk1 & Hk2).
      exists (S k). rewrite E. simpl. rewrite <- app_assoc. simpl.
      repeat split; [f_equal; lia | lia |].
      intros _. destruct k as [|k]; [lia|].
      specialize (Hk2 ltac:(done)). lia.
    + exists 0%nat. simpl. rewrite app_nil_r.
      repeat split; [f_equal; lia | lia | done].
Qed.

(** What the second loop appends after [m] turns, entered with [addr]. *)
Lemma line_loop_spec (fuel : nat) (addr line : Z) (tab : list Z) :
  line ≤ 255 + 255 * Z.of_nat fuel →
  ∃ m : nat,
    line_loop fuel addr line tab
    = (match m with O => addr | S _ => 0 end, line - 255 * Z.of_nat m,
       tab ++ match m with
              | O => []
              | S m' => [addr; 255] ++ concat (replicate m' [0; 255])
              end)
    ∧ line - 255 * Z.of_nat m ≤ 255
    ∧ (m ≠ 0%nat → 255 < line - 255 * (Z.of_nat m - 1)).
Proof.
  revert addr line tab.
  induction fuel as [|fuel IH]; intros addr line tab Hf; simpl.
  - exists 0%nat. rewrite app_nil_r.
    repeat split; [f_equal; f_equal; lia | lia | done].
  - destruct (decide (line > 255)) as [Hgt|Hle].
    + destruct (IH 0 (line - 255) (tab ++ [addr; 255]) ltac:(lia))
        as (m & E & Hm1 & Hm2).
      exists (S m). rewrite E. rewrite <- app_assoc.
      repeat split.
      * destruct m as [|m]; simpl;
          (apply pair_equal_spec; split; [apply pair_equal_spec; split|]);
          done || lia.
      * lia.
      * intros _. destruct m as [|m]; [lia|].
        specialize (Hm2 ltac:(done)). lia.
    + exists 0%nat. rewrite app_nil_r.
      repeat split; [f_equal; f_equal; lia | lia | done].
Qed.

(** While [firstline] is 0 a [SET_LINENO] only records its line: nothing
    is appended to the table and [lastoff] is kept. *)
Lemma nextLine_first (ass : Assembler) (lineno : Z) :
  firstline ass = 0 →
  nextLine ass lineno
  = {| code := code ass; codeOffset := codeOffset ass;
       firstline := lineno; lastline := lineno;
       lastoff := lastoff ass; lnotab := lnotab ass |}.
Proof. intros Hfirst. unfold nextLine. by destruct (decide (firstline ass = 0)). Qed.

(** Scenario S5 through [Assemble], under the tables of CPython 2.7: one
    hundred 3-byte instructions between the two [SET_LINENO]. *)
Example Assemble_S5 :
  lnotab <$> @Assemble dis27
    ([Inst2 "SET_LINENO" (ArgVal (PyInt 1))]
     ++ replicate 100 (Inst2 "LOAD_CONST" (ArgVal (PyInt 0)))
     ++ [Inst2 "SET_LINENO" (ArgVal (PyInt 2))])
  = Ret [255; 0; 45; 1].
Proof. by vm_compute. Qed.

(** What the table holds while no [SET_LINENO] with a line other than 0
    has been seen: nothing. *)
Lemma asm_reachable_unset (ass : Assembler) :
  asm_reachable ass → firstline ass = 0 →
  lastline ass = 0 ∧ lastoff ass = 0 ∧ lnotab ass = [].
Proof.
  induction 1 as [|ass args ass' _ IH Hadd|ass lineno _ IH]; [done|..].
  - unfold addCode in Hadd. inv_bind Hadd. injection Hadd as <-. exact IH.
  - unfold nextLine. destruct (decide (firstline ass = 0)) as [Hz|Hz].
    + cbn. intros ->. by destruct (IH Hz) as (_ & ? & ?).
    + destruct (decide (lineno - lastline ass >= 0)); cbn; intros; done.
Qed.

Lemma nextLine_pairs :
  ∀ (ass : Assembler) (lineno : Z),
     asm_reachable ass → firstline ass ≠ 0 → lineno - lastline ass >= 0 →
     let addr := codeOffset ass - lastoff ass in
     let line := lineno - lastline ass in
     ∃ k m : nat,
       let addr1 := addr - 255 * Z.of_nat k in
       let line1 := line - 255 * Z.of_nat m in
       let addr2 := match m with O => addr1 | S _ => 0 end in
       addr1 ≤ 255 ∧ (k ≠ 0%nat → 255 < addr - 255 * (Z.of_nat k - 1))
       ∧ line1 ≤ 255 ∧ (m ≠ 0%nat → 255 < line - 255 * (Z.of_nat m - 1))
       ∧ lnotab (nextLine ass lineno)
         = lnotab ass
           ++ concat (replicate k [255; 0])
           ++ match m with
              | O => []
              | S m' => [addr1; 255] ++ concat (replicate m' [0; 255])
              end
           ++ (if decide (addr2 ≠ 0 ∨ line1 ≠ 0) then [addr2; line1] else [])
       ∧ lastline (nextLine ass lineno) = lineno
       ∧ lastoff (nextLine ass lineno) = codeOffset ass
       ∧ firstline (nextLine ass lineno) = firstline ass
       ∧ code (nextLine ass lineno) = code ass
       ∧ codeOffset (nextLine ass lineno) = codeOffset ass.
Proof.
  intros ass lineno Hreach Hfirst Hline addr line.
  pose proof (asm_reachable_offsets ass Hreach) as Hoff.
  destruct (addr_loop_spec (Z.to_nat addr) addr (lnotab ass) ltac:(lia))
    as (k & Ek & Hk1 & Hk2).
  destruct (line_loop_spec (Z.to_nat line) (addr - 255 * Z.of_nat k) line
              (lnotab ass ++ concat (replicate k [255; 0])) ltac:(lia))
    as (m & Em & Hm1 & Hm2).
  exists k, m. simpl.
  split; [done|]. split; [done|]. split; [done|]. split; [done|].
  unfold nextLine.
  destruct (decide (firstline ass = 0)); [done|].
  destruct (decide (lineno - lastline ass >= 0)); [|done].
  fold addr line. rewrite Ek. simpl. rewrite Em. simpl.
  assert (Hk0 : 0 ≤ addr - 255 * Z.of_nat k).
  { destruct k as [|k]; [lia|]. specialize (Hk2 ltac:(done)). lia. }
  assert (Hm0 : 0 ≤ line - 255 * Z.of_nat m).
  { destruct m as [|m]; [lia|]. specialize (Hm2 ltac:(done)). lia. }
  repeat split.
  rewrite <- !app_assoc.
  destruct m; simpl in *; repeat case_decide; rewrite ?app_nil_r;
    try done; lia.
Qed.

(** C6, as amended: a [SET_LINENO] that finds [firstline] equal to 0 (the
    first one, and every one that has only been preceded by [SET_LINENO 0])
    stores its line in [firstline] and [lastline], appends no pair and
    records no offset; until then the table is empty.  Once [firstline] is
    not 0, a [SET_LINENO] in a reachable assembler with [line >= 0]
    appends [k] pairs [(255, 0)], where [k] is the number of steps until
    [addr] is at most 255, then [m] pairs for the steps until [line] is at
    most 255, the first [(addr, 255)] and the others [(0, 255)], then
    [(addr, line)] when a remainder is not zero, and records the line and
    the offset; with [line < 0] it changes nothing.  A fresh assembler
    given [SET_LINENO 1], 300 bytes of code and [SET_LINENO 2] has the
    table [255, 0, 45, 1]. *)
Theorem nextLine_lnotab :
  (∀ (ass : Assembler) (lineno : Z),
     firstline ass = 0 →
     nextLine ass lineno
     = {| code := code ass; codeOffset := codeOffset ass;
          firstline := lineno; lastline := lineno;
          lastoff := lastoff ass; lnotab := lnotab ass |})
  ∧ (∀ ass : Assembler,
       asm_reachable ass → firstline ass = 0 →
       lastline ass = 0 ∧ lastoff ass = 0 ∧ lnotab ass = [])
  ∧ (∀ (ass : Assembler) (lineno : Z),
     asm_reachable ass → firstline ass ≠ 0 → lineno - lastline ass >= 0 →
     let addr := codeOffset ass - lastoff ass in
     let line := lineno - lastline ass in
     ∃ k m : nat,
       let addr1 := addr - 255 * Z.of_nat k in
       let line1 := line - 255 * Z.of_nat m in
       let addr2 := match m with O => addr1 | S _ => 0 end in
       addr1 ≤ 255 ∧ (k ≠ 0%nat → 255 < addr - 255 * (Z.of_nat k - 1))
       ∧ line1 ≤ 255 ∧ (m ≠ 0%nat → 255 < line - 255 * (Z.of_nat m - 1))
       ∧ lnotab (nextLine ass lineno)
         = lnotab ass
           ++ concat (replicate k [255; 0])
           ++ match m with
              | O => []
              | S m' => [addr1; 255] ++ concat (replicate m' [0; 255])
              end
           ++ (if decide (addr2 ≠ 0 ∨ line1 ≠ 0) then [addr2; line1] else [])
       ∧ lastline (nextLine ass lineno) = lineno
       ∧ lastoff (nextLine ass lineno) = codeOffset ass
       ∧ firstline (nextLine ass lineno) = firstline ass
       ∧ code (nextLine ass lineno) = code ass
       ∧ codeOffset (nextLine ass lineno) = codeOffset ass)
  ∧ (∀ (ass : Assembler) (lineno : Z),
       firstline ass ≠ 0 → ¬ lineno - lastline ass >= 0 →
       nextLine ass lineno = ass)
  ∧ (∀ bytes : list Z,
       length bytes = 300%nat → Forall (λ b, 0 ≤ b < 256) bytes →
       ∃ ass, addCode (nextLine new_Assembler 1) bytes = Ret ass
              ∧ codeOffset ass = 300
              ∧ lnotab (nextLine ass 2) = [255; 0; 45; 1]).
Proof.
  split; [exact nextLine_first|]. split; [exact asm_reachable_unset|].
  split; [exact nextLine_pairs|]. split.
  - intros ass lineno Hfirst Hline. unfold nextLine.
    destruct (decide (firstline ass = 0)); [done|].
    by destruct (decide (lineno - lastline ass >= 0)).
  - intros bytes Hlen Hbytes.
    exists (emitted (nextLine new_Assembler 1) bytes).
    split; [by apply addCode_Ret|].
    unfold emitted, nextLine. simpl. rewrite Hlen. by vm_compute.
Qed.

Lemma nextLine_lnotab_witness :
  asm_reachable (emitted (nextLine new_Assembler 1) (replicate 300 9))
  ∧ firstline (emitted (nextLine new_Assembler 1) (replicate 300 9)) ≠ 0
  ∧ 2 - lastline (emitted (nextLine new_Assembler 1) (replicate 300 9)) >= 0
  ∧ lnotab (nextLine (emitted (nextLine new_Assembler 1) (replicate 300 9)) 2)
    = [255; 0; 45; 1].
Proof.
  set (ass := emitted (nextLine new_Assembler 1) (replicate 300 9)).
  assert (H1 : asm_reachable ass).
  { apply (reach_addCode (nextLine new_Assembler 1) (replicate 300 9)).
    - apply reach_nextLine, reach_new.
    - apply addCode_Ret, Forall_replicate. lia. }
  assert (H2 : firstline ass ≠ 0) by (vm_compute; discriminate).
  assert (H3 : 2 - lastline ass >= 0) by (vm_compute; discriminate).
  split; [exact H1|]. split; [exact H2|]. split; [exact H3|].
  destruct nextLine_lnotab as (_ & _ & Hpairs & _).
  destruct (Hpairs ass 2 H1 H2 H3) as (k & m & Hk & Hk' & Hm & Hm' & Htab & _).
  assert (Haddr : codeOffset ass - lastoff ass = 300)
    by (vm_compute; reflexivity).
  assert (Hline : 2 - lastline ass = 1) by (vm_compute; reflexivity).
  rewrite Haddr in Hk, Hk', Htab. rewrite Hline in Hm, Hm', Htab.
  assert (k = 1%nat) as -> by lia.
  assert (m = 0%nat) as ->.
  { destruct m as [|m]; [done|]. specialize (Hm' ltac:(done)). lia. }
  rewrite Htab. by vm_compute.
Defined.

(** The claim as worded, "on each [SET_LINENO] after the first", fails when
    the first one is [SET_LINENO 0]: the second one, 3 bytes of code and 2
    lines further, has [addr = 3] and [line = 2] and should append the
    pair [(3, 2)], but it appends nothing and records no offset. *)
Lemma nextLine_after_line_0 :
  let first := nextLine new_Assembler 0 in
  let ass := emitted first [100; 0; 0] in
  addCode first [100; 0; 0] = Ret ass
  ∧ codeOffset ass - lastoff ass = 3
  ∧ 2 - lastline ass = 2
  ∧ lnotab (nextLine ass 2) = []
  ∧ lnotab (nextLine ass 2) ≠ lnotab ass ++ [3; 2]
  ∧ lastoff (nextLine ass 2) = 0.
Proof.
  cbv zeta. split; [by apply addCode_Ret; repeat constructor|].
  by vm_compute.
Qed.

(** ** Iteration orders *)

Global Instance sorted_iter_laws : @SetIterLaws sorted_iter.
Proof.
  split; intros; simpl; apply merge_sort_Permutation.
Qed.

Lemma block_set_iter_elem `{SetIter} (laws : SetIterLaws)
    (s : gset block_id) (b : block_id) :
  b ∈ block_set_iter s ↔ b ∈ s.
Proof. by rewrite block_set_iter_perm, elem_of_elements. Qed.

(** ** [findDepth] and the table [depth] of [ComputeStackDepth] *)

Local Arguments inst_effect : simpl never.
Local Arguments findDepth : simpl never.

Lemma findDepth_step_Ret (st : Z * Z) (i : inst) (delta : Z) :
  inst_effect i = Ret delta →
  findDepth_step st i
  = Ret (st.1 + delta,
         if decide (st.1 + delta > st.2) then st.1 + delta else st.2).
Proof. unfold findDepth_step. by intros ->. Qed.

Lemma findDepth_loop (insts : list inst) (deltas : list Z) (dep mx : Z) :
  Forall2 (λ i delta, inst_effect i = Ret delta) insts deltas →
  dep ≤ mx →
  ∃ mx',
    foldM findDepth_step (dep, mx) insts = Ret (dep + sum_Z deltas, mx')
    ∧ (∀ k, dep + sum_Z (take k deltas) ≤ mx')
    ∧ mx ≤ mx'
    ∧ (mx' = mx ∨ ∃ k, dep + sum_Z (take k deltas) = mx').
Proof.
  intros Heff. revert dep mx.
  induction Heff as [|i delta insts deltas Hi _ IH]; intros dep mx Hle.
  - exists mx. simpl. split; [f_equal; f_equal; lia|].
    split; [|split; [lia | by left]].
    intros k. rewrite take_nil. simpl. lia.
  - cbn [foldM]. rewrite (findDepth_step_Ret _ _ _ Hi).
    cbn [mbind result_bind fst snd].
    set (mx1 := if decide (dep + delta > mx) then dep + delta else mx).
    assert (Hmx1 : dep + delta ≤ mx1 ∧ mx ≤ mx1
                   ∧ (mx1 = mx ∨ mx1 = dep + delta)).
    { subst mx1. case_decide; lia. }
    destruct (IH (dep + delta) mx1 ltac:(lia)) as (mx' & E & Hall & Hge & Hex).
    unfold sum_Z in *.
    exists mx'. rewrite E. split; [cbn [foldr]; f_equal; f_equal; lia|].
    split; [|split; [lia|]].
    + intros [|k]; cbn [firstn foldr]; [lia|]. specialize (Hall k). lia.
    + clearbody mx1. destruct Hex as [Hex|[k Hk]].
      * destruct Hmx1 as (_ & _ & [Hm|Hm]); [left; lia|].
        right. exists 1%nat. cbn [firstn foldr]. rewrite take_0.
        cbn [foldr]. lia.
      * right. exists (S k). cbn [firstn foldr]. lia.
Qed.

(** The value of [findDepth] is the largest sum of effects over the
    prefixes of the instruction list, the empty prefix included. *)
Lemma findDepth_max_prefix (insts : list inst) (deltas : list Z) :
  Forall2 (λ i delta, inst_effect i = Ret delta) insts deltas →
  ∃ d, findDepth insts = Ret d
       ∧ (∀ k, sum_Z (take k deltas) ≤ d)
       ∧ (∃ k, sum_Z (take k deltas) = d).
Proof.
  intros Heff.
  destruct (findDepth_loop insts deltas 0 0 Heff ltac:(lia))
    as (mx' & E & Hall & Hge & Hex).
  exists mx'. unfold findDepth. rewrite E. simpl. split; [done|]. split.
  - intros k. specialize (Hall k). lia.
  - destruct Hex as [->|[k Hk]]; [by exists 0%nat | exists k; lia].
Qed.

Lemma effects_defined (insts : list inst) :
  (∀ i, i ∈ insts → ∃ delta, inst_effect i = Ret delta) →
  ∃ deltas, Forall2 (λ i delta, inst_effect i = Ret delta) insts deltas.
Proof.
  induction insts as [|i insts IH]; intros Hall.
  - exists []. constructor.
  - destruct (Hall i) as [delta Hd]; [apply list_elem_of_here|].
    destruct IH as [deltas Hds].
    { intros j Hj. apply Hall. by apply list_elem_of_further. }
    exists (delta :: deltas). by constructor.
Qed.

Lemma block_depths_loop (h : heap) (l : list block_id)
    (depth0 : gmap block_id Z) :
  (∀ b, b ∈ l → ∃ d, findDepth (insts (h b)) = Ret d) →
  ∃ depth,
    foldM (λ depth b, d ← findDepth (insts (h b)); Ret (<[b := d]> depth))
          depth0 l = Ret depth
    ∧ (∀ b, b ∈ l → ∃ d, depth !! b = Some d
                          ∧ findDepth (insts (h b)) = Ret d)
    ∧ (∀ b, b ∉ l → depth !! b = depth0 !! b).
Proof.
  revert depth0. induction l as [|b l IH]; intros depth0 Hall; simpl.
  - exists depth0. split; [done|]. split; [|done].
    intros b Hb. by apply elem_of_nil in Hb.
  - destruct (Hall b) as [d Hd]; [apply list_elem_of_here|].
    rewrite Hd. simpl.
    destruct (IH (<[b := d]> depth0)) as (depth & E & Hin & Hout).
    { intros c Hc. apply Hall. by apply list_elem_of_further. }
    exists depth. split; [done|]. split.
    + intros c Hc. destruct (decide (c ∈ l)) as [Hcl|Hcl]; [by apply Hin|].
      apply elem_of_cons in Hc as [->|Hc]; [|done].
      exists d. rewrite (Hout _ Hcl). by rewrite lookup_insert_eq.
    + intros c Hc. apply not_elem_of_cons in Hc as [Hne Hcl].
      rewrite (Hout _ Hcl). by rewrite lookup_insert_ne.
Qed.

(** C5, as amended: when every instruction has a stack effect, the value
    [depth[b]] of each block of the graph is the largest sum of effects
    over the prefixes of its instruction list, the empty prefix included:
    at least every such sum, and equal to one of them. *)
Theorem block_depths_max_prefix `{SetIter} (laws : SetIterLaws) (h : heap)
    (blocks : gset block_id) :
  (∀ b i, b ∈ blocks → i ∈ insts (h b) → ∃ delta, inst_effect i = Ret delta) →
  ∃ depth,
    block_depths h blocks = Ret depth
    ∧ ∀ b, b ∈ blocks →
        ∃ d deltas,
          depth !! b = Some d
          ∧ Forall2 (λ i delta, inst_effect i = Ret delta) (insts (h b)) deltas
          ∧ (∀ k, sum_Z (take k deltas) ≤ d)
          ∧ (∃ k, sum_Z (take k deltas) = d).
Proof.
  intros Hall. unfold block_depths.
  destruct (block_depths_loop h (block_set_iter blocks) ∅)
    as (depth & E & Hin & _).
  { intros b Hb%(block_set_iter_elem laws).
    destruct (effects_defined (insts (h b))) as [deltas Hds]; [by eauto|].
    destruct (findDepth_max_prefix _ _ Hds) as (d & Hd & _). eauto. }
  exists depth. split; [done|].
  intros b Hb.
  destruct (Hin b) as (d & Hlk & Hfd); [by apply (block_set_iter_elem laws)|].
  destruct (effects_defined (insts (h b))) as [deltas Hds]; [by eauto|].
  destruct (findDepth_max_prefix _ _ Hds) as (d' & Hd' & Hmax & Hex).
  rewrite Hfd in Hd'. injection Hd' as <-.
  exists d, deltas. done.
Qed.

(** C5 fails as stated: the block [LOAD_CONST None; POP_TOP] has effects
    [+1] and [-1], whose sum is 0, and [depth] holds 1 for it. *)
Lemma block_depth_not_sum_of_effects :
  ¬ (∀ (S : SetIter) (h : heap) (blocks : gset block_id)
       (depth : gmap block_id Z) (b : block_id) (d : Z),
       SetIterLaws → block_depths h blocks = Ret depth →
       depth !! b = Some d → sum_of_effects (insts (h b)) = Ret d).
Proof.
  intros Hclaim.
  assert (E : @block_depths sorted_iter load_pop_heap {[0%nat]}
              = Ret {[0%nat := 1]}) by (vm_compute; reflexivity).
  specialize (Hclaim sorted_iter load_pop_heap {[0%nat]} {[0%nat := 1]}
                0%nat 1 sorted_iter_laws E eq_refl).
  vm_compute in Hclaim. discriminate.
Qed.

(** The block [LOAD_CONST None; POP_TOP] under iteration by block id. *)
Lemma block_depths_max_prefix_witness :
  (∀ b i, b ∈ ({[0%nat]} : gset block_id) → i ∈ insts (load_pop_heap b) →
          ∃ delta, inst_effect i = Ret delta)
  ∧ ∃ depth,
      @block_depths sorted_iter load_pop_heap {[0%nat]} = Ret depth
      ∧ ∀ b, b ∈ ({[0%nat]} : gset block_id) →
          ∃ d deltas,
            depth !! b = Some d
            ∧ Forall2 (λ i delta, inst_effect i = Ret delta)
                      (insts (load_pop_heap b)) deltas
            ∧ (∀ k, sum_Z (take k deltas) ≤ d)
            ∧ (∃ k, sum_Z (take k deltas) = d).
Proof.
  assert (Heff : ∀ b i, b ∈ ({[0%nat]} : gset block_id) →
                        i ∈ insts (load_pop_heap b) →
                        ∃ delta, inst_effect i = Ret delta).
  { intros b i _ Hi. simpl in Hi.
    apply elem_of_cons in Hi as [->|Hi]; [exists 1; by vm_compute|].
    apply elem_of_cons in Hi as [->|Hi]; [exists (-1); by vm_compute|].
    by apply elem_of_nil in Hi. }
  split; [exact Heff|].
  exact (@block_depths_max_prefix sorted_iter sorted_iter_laws load_pop_heap
           {[0%nat]} Heff).
Defined.

(** ** Sets of values *)

Lemma py_eq_trans (u v w : pyval) :
  py_eq u v = true → py_eq v w = true → py_eq u w = true.
Proof.
  revert v w.
  induction u as [ | | | | |l IHu] using pyval_nested_ind; intros v w H1 H2;
    destruct v; simpl in H1; try discriminate;
    destruct w; simpl in H2 |- *; try discriminate;
    try done;
    try (apply bool_decide_eq_true in H1; apply bool_decide_eq_true in H2;
         apply bool_decide_eq_true; congruence).
  rename l0 into l2, l1 into l3.
  revert l2 l3 H1 H2.
  induction IHu as [|x l Hx _ IHl]; intros [|y l2] [|z l3] H1 H2;
    try discriminate; try done.
  apply andb_true_iff in H1 as [H1 H1'].
  apply andb_true_iff in H2 as [H2 H2'].
  apply andb_true_iff. split; [by eapply Hx | by eapply IHl].
Qed.

Lemma py_in_true (v : pyval) (l : list pyval) :
  py_in v l = true ↔ ∃ item, item ∈ l ∧ py_eq item v = true.
Proof.
  unfold py_in. rewrite existsb_exists.
  split; intros (item & Hin & He); exists item;
    (split; [by apply list_elem_of_In | done]).
Qed.

Lemma py_in_app (v : pyval) (l1 l2 : list pyval) :
  py_in v (l1 ++ l2) = py_in v l1 || py_in v l2.
Proof. unfold py_in. apply existsb_app. Qed.

Lemma py_in_set_loop (v : pyval) (l s : list pyval) :
  py_in v (foldl (λ s v, if py_in v s then s else s ++ [v]) s l)
  = py_in v s || py_in v l.
Proof.
  revert s. induction l as [|x l IH]; intros s; simpl.
  - by rewrite orb_false_r.
  - rewrite IH. destruct (py_in x s) eqn:Ex.
    + destruct (py_eq x v) eqn:Exv; simpl; [|done].
      assert (py_in v s = true) as ->; [|done].
      apply py_in_true in Ex as (item & Hin & He).
      apply py_in_true. exists item. split; [done|].
      by eapply py_eq_trans.
    + rewrite py_in_app. simpl. rewrite orb_false_r.
      by rewrite orb_assoc.
Qed.

(** Membership in [set(l)] is membership in [l]. *)
Lemma py_in_py_set (v : pyval) (l : list pyval) :
  py_in v (py_set l) = py_in v l.
Proof. unfold py_set. by rewrite py_in_set_loop. Qed.

Lemma py_set_loop_distinct (l s : list pyval) :
  py_distinct (s ++ l) →
  foldl (λ s v, if py_in v s then s else s ++ [v]) s l = s ++ l.
Proof.
  revert s. induction l as [|x l IH]; intros s Hd; simpl.
  - by rewrite app_nil_r.
  - assert (py_in x s = false) as ->.
    { apply not_true_is_false. intros (item & Hin & He)%py_in_true.
      apply list_elem_of_lookup in Hin as [i Hi].
      pose proof (lookup_lt_Some _ _ _ Hi) as Hlt.
      assert (i = length s); [|lia].
      apply (Hd i (length s) item x); [by apply lookup_app_l_Some| |done].
      rewrite lookup_app_r by lia. by rewrite Nat.sub_diag. }
    rewrite IH; rewrite <- app_assoc; done.
Qed.

(** A list without [==]-duplicates is its own set. *)
Lemma py_set_distinct (l : list pyval) : py_distinct l → py_set l = l.
Proof. intros Hd. unfold py_set. by rewrite py_set_loop_distinct. Qed.

Lemma filter_ext_bool (f g : pyval → bool) (b c : bool) (l : list pyval) :
  (∀ v, f v = b ↔ g v = c) →
  filter (λ v, f v = b) l = filter (λ v, g v = c) l.
Proof.
  intros Hfg. induction l as [|x l IH]; [done|].
  rewrite !filter_cons. rewrite IH.
  destruct (decide (f x = b)) as [H1|H1], (decide (g x = c)) as [H2|H2];
    try done; exfalso; [apply H2 | apply H1]; by apply Hfg.
Qed.

(** ** The rearrangement of [cellvars] in [MakeCodeObject] *)

(** C7 fails as stated: under the iteration order of CPython 2.7 the cell
    variables [x], [y] of a function without arguments come out as [y],
    [x]. *)
Lemma rearrange_not_original_order :
  ¬ (∀ (S : SetIter) (g : PyFlowGraph),
       SetIterLaws →
       cellvars (rearrange g) = cellvars_in_original_order g
       ∧ closure (rearrange g) = cellvars (rearrange g) ++ freevars g).
Proof.
  intros Hclaim.
  destruct (Hclaim sorted_iter (names_graph [] ["x"; "y"] []) sorted_iter_laws)
    as [Hcells _].
  vm_compute in Hcells. discriminate.
Qed.

(** C7, as amended: the new [cellvars] is the entries of [varnames] that
    occur in the old [cellvars], in the order of [varnames], followed by
    the entries of [set(cellvars)] that do not occur in [varnames], each
    once and in the order in which the interpreter iterates that set;
    [closure] is the new [cellvars] followed by [freevars]. *)
Theorem rearrange_cellvars `{SetIter} (laws : SetIterLaws) (g : PyFlowGraph) :
  ∃ rest,
    cellvars (rearrange g)
    = filter (λ n, py_in n (cellvars g) = true) (varnames g) ++ rest
    ∧ rest ≡ₚ filter (λ n, py_in n (varnames g) = false) (py_set (cellvars g))
    ∧ closure (rearrange g) = cellvars (rearrange g) ++ freevars g.
Proof.
  exists (val_set_iter
            (py_set_difference (py_set (cellvars g)) (py_set (varnames g)))).
  split; [|split].
  - simpl. unfold rearranged_cellvars. f_equal.
    apply (filter_ext_bool (λ v, py_in v (py_set (cellvars g)))
                           (λ v, py_in v (cellvars g)) true true).
    intros v. by rewrite py_in_py_set.
  - rewrite val_set_iter_perm. unfold py_set_difference.
    rewrite (filter_ext_bool (λ v, py_in v (py_set (varnames g)))
                             (λ v, py_in v (varnames g)) false false);
      [reflexivity|].
    intros v. by rewrite py_in_py_set.
  - done.
Qed.

(** A function with arguments [a], [b], [c], cell variables [c], [a], [x]
    and the free variable [f]. *)
Lemma rearrange_cellvars_witness :
  ∃ rest,
    cellvars (@rearrange sorted_iter (names_graph ["a"; "b"; "c"] ["c"; "a"; "x"] ["f"]))
    = filter (λ n, py_in n (cellvars (names_graph ["a"; "b"; "c"] ["c"; "a"; "x"] ["f"])) = true)
             (varnames (names_graph ["a"; "b"; "c"] ["c"; "a"; "x"] ["f"])) ++ rest
    ∧ rest ≡ₚ filter (λ n, py_in n (varnames (names_graph ["a"; "b"; "c"] ["c"; "a"; "x"] ["f"])) = false)
                     (py_set (cellvars (names_graph ["a"; "b"; "c"] ["c"; "a"; "x"] ["f"])))
    ∧ closure (@rearrange sorted_iter (names_graph ["a"; "b"; "c"] ["c"; "a"; "x"] ["f"]))
      = cellvars (@rearrange sorted_iter (names_graph ["a"; "b"; "c"] ["c"; "a"; "x"] ["f"]))
        ++ freevars (names_graph ["a"; "b"; "c"] ["c"; "a"; "x"] ["f"]).
Proof.
  exact (@rearrange_cellvars sorted_iter sorted_iter_laws
           (names_graph ["a"; "b"; "c"] ["c"; "a"; "x"] ["f"])).
Defined.

(** Scenario S6 under any iteration order: with [varnames = [a, b, c]] and
    [cellvars = [c, a, x]] the new [cellvars] is [[a, c, x]]. *)
Lemma rearrange_S6 `{SetIter} (laws : SetIterLaws) (frees : list string) :
  cellvars (rearrange (names_graph ["a"; "b"; "c"] ["c"; "a"; "x"] frees))
  = [PyStr "a"; PyStr "c"; PyStr "x"]
  ∧ closure (rearrange (names_graph ["a"; "b"; "c"] ["c"; "a"; "x"] frees))
    = [PyStr "a"; PyStr "c"; PyStr "x"] ++ (PyStr <$> frees).
Proof.
  assert (E : val_set_iter [PyStr "x"] = [PyStr "x"]).
  { apply Permutation_singleton_r. apply val_set_iter_perm. }
  simpl. unfold rearranged_cellvars. simpl.
  change (py_set_difference _ _) with [PyStr "x"].
  rewrite E. split; reflexivity.
Qed.

(** ** [FlattenGraph] *)

Lemma code_size_nil : code_size [] = 0.
Proof. reflexivity. Qed.

Lemma code_size_cons (i : inst) (l : list inst) :
  code_size (i :: l) = inst_size i + code_size l.
Proof. reflexivity. Qed.

Lemma code_size_app (l1 l2 : list inst) :
  code_size (l1 ++ l2) = code_size l1 + code_size l2.
Proof.
  induction l1 as [|i l1 IH]; [by rewrite code_size_nil|].
  rewrite <- app_comm_cons, !code_size_cons, IH. lia.
Qed.

Lemma flat_insts_snoc (h : heap) (blocks : list block_id) (b : block_id) :
  flat_insts h (blocks ++ [b]) = flat_insts h blocks ++ insts (h b).
Proof.
  unfold flat_insts. rewrite fmap_app, concat_app. simpl.
  by rewrite app_nil_r.
Qed.

Lemma layout_insts_loop (l acc : list inst) (pc : Z) :
  foldl (λ acc i, (acc.1 ++ [i], acc.2 + inst_size i)) (acc, pc) l
  = (acc ++ l, pc + code_size l).
Proof.
  revert acc pc. induction l as [|i l IH]; intros acc pc.
  - cbn [foldl]. rewrite app_nil_r, code_size_nil. f_equal. lia.
  - cbn [foldl fst snd]. rewrite IH, code_size_cons, <- app_assoc.
    f_equal. lia.
Qed.

Lemma layout_block_spec (h : heap) (st : layout) (b : block_id) :
  layout_block h st b
  = {| l_insts := l_insts st ++ insts (h b);
       l_pc := l_pc st + code_size (insts (h b));
       l_begin := <[b := l_pc st]> (l_begin st);
       l_end := <[b := l_pc st + code_size (insts (h b))]> (l_end st) |}.
Proof. unfold layout_block. by rewrite layout_insts_loop. Qed.

Lemma layout_pass_snoc (h : heap) (blocks : list block_id) (b : block_id) :
  layout_pass h (blocks ++ [b]) = layout_block h (layout_pass h blocks) b.
Proof. unfold layout_pass. by rewrite foldl_snoc. Qed.

(** The first pass: the flat list, and [begin[B]] for the last position of
    [B] in the block list. *)
Lemma layout_pass_spec (h : heap) (blocks : list block_id) :
  l_insts (layout_pass h blocks) = flat_insts h blocks
  ∧ l_pc (layout_pass h blocks) = code_size (flat_insts h blocks)
  ∧ ∀ B k, blocks !! k = Some B → B ∉ drop (S k) blocks →
           l_begin (layout_pass h blocks) !! B
           = Some (code_size (flat_insts h (take k blocks))).
Proof.
  induction blocks as [|b blocks (IHi & IHpc & IHb)] using rev_ind.
  - repeat split. intros B k Hk. by rewrite lookup_nil in Hk.
  - rewrite layout_pass_snoc, layout_block_spec. cbn [l_insts l_pc l_begin].
    rewrite flat_insts_snoc, code_size_app, IHi, IHpc.
    split; [done|]. split; [done|].
    intros B k Hk Hlast.
    pose proof (lookup_lt_Some _ _ _ Hk) as Hlt.
    rewrite length_app in Hlt. simpl in Hlt.
    destruct (decide (k = length blocks)) as [->|Hne].
    + rewrite lookup_app_r, Nat.sub_diag in Hk by lia.
      injection Hk as ->. rewrite lookup_insert_eq.
      by rewrite take_app_length.
    + rewrite lookup_app_l in Hk by lia.
      rewrite drop_app_le in Hlast by lia.
      apply not_elem_of_app in Hlast as [Hlast Hb].
      rewrite not_elem_of_cons in Hb. destruct Hb as [Hb _].
      rewrite lookup_insert_ne by done.
      rewrite take_app_le by lia. by apply IHb.
Qed.

Lemma last_occurrence (B : block_id) (blocks : list block_id) :
  B ∈ blocks → ∃ k, blocks !! k = Some B ∧ B ∉ drop (S k) blocks.
Proof.
  induction blocks as [|x blocks IH]; intros Hin.
  - by apply elem_of_nil in Hin.
  - destruct (decide (B ∈ blocks)) as [Hb|Hb].
    + destruct (IH Hb) as (k & Hk & Hlast). by exists (S k).
    + apply elem_of_cons in Hin as [->|Hin]; [|done]. by exists 0%nat.
Qed.

Lemma fixup_inst_jrel `{Dis} (begin : gmap block_id Z) (pc target : Z)
    (op : string) (B : block_id) :
  op ∈ HAS_JREL → begin !! B = Some target →
  fixup_inst begin pc (Inst2 op (ArgBlock B))
  = Ret (Inst2 op (ArgVal (PyInt (target - pc)))).
Proof.
  intros Hop Hb. unfold fixup_inst. cbn [inst_opname].
  rewrite bool_decide_eq_true_2 by done. cbn [lookup_begin]. by rewrite Hb.
Qed.

Lemma fixup_inst_jabs `{Dis} (begin : gmap block_id Z) (pc target : Z)
    (op : string) (B : block_id) :
  op ∉ HAS_JREL → op ∈ HAS_JABS → begin !! B = Some target →
  fixup_inst begin pc (Inst2 op (ArgBlock B))
  = Ret (Inst2 op (ArgVal (PyInt target))).
Proof.
  intros Hrel Hop Hb. unfold fixup_inst. cbn [inst_opname].
  rewrite bool_decide_eq_false_2 by done.
  rewrite bool_decide_eq_true_2 by done. cbn [lookup_begin]. by rewrite Hb.
Qed.

Lemma fixup_inst_other `{Dis} (begin : gmap block_id Z) (pc : Z) (i : inst) :
  inst_opname i ∉ HAS_JREL ∪ HAS_JABS → fixup_inst begin pc i = Ret i.
Proof.
  intros Hop. apply not_elem_of_union in Hop as [Hrel Habs].
  unfold fixup_inst. by rewrite !bool_decide_eq_false_2.
Qed.

Lemma fixup_pass_spec `{Dis} (begin : gmap block_id Z) (pc : Z)
    (insts out : list inst) :
  fixup_pass begin pc insts = Ret out →
  length out = length insts
  ∧ ∀ i t, insts !! i = Some t →
      ∃ t', out !! i = Some t'
            ∧ fixup_inst begin (pc + code_size (take i insts) + inst_size t) t
              = Ret t'.
Proof.
  revert pc out. induction insts as [|x insts IH]; intros pc out Hrun.
  - injection Hrun as <-. split; [done|]. intros i t Hi.
    by rewrite lookup_nil in Hi.
  - cbn [fixup_pass] in Hrun. inv_bind Hrun. inv_bind Hrun.
    injection Hrun as <-.
    destruct (IH _ _ Hr0) as [Hlen Hall].
    split; [simpl; by rewrite Hlen|].
    intros [|i] t Hi.
    + injection Hi as ->. exists r. split; [done|].
      cbn [take]. rewrite code_size_nil, Z.add_0_r. done.
    + destruct (Hall i t Hi) as (t' & Ht' & Hfix).
      exists t'. split; [done|].
      cbn [firstn]. rewrite code_size_cons.
      by replace (pc + (inst_size x + code_size (take i insts)) + inst_size t)
        with (pc + inst_size x + code_size (take i insts) + inst_size t)
        by lia.
Qed.

Lemma fixup_pass_total `{Dis} (begin : gmap block_id Z) (pc : Z)
    (insts : list inst) :
  (∀ t pc', t ∈ insts → ∃ t', fixup_inst begin pc' t = Ret t') →
  ∃ out, fixup_pass begin pc insts = Ret out.
Proof.
  revert pc. induction insts as [|x insts IH]; intros pc Hall.
  - by exists [].
  - destruct (Hall x (pc + inst_size x)) as [x' Hx]; [apply list_elem_of_here|].
    destruct (IH (pc + inst_size x)) as [out Hout].
    { intros t pc' Ht. apply Hall. by apply list_elem_of_further. }
    exists (x' :: out). cbn [fixup_pass]. rewrite Hx. cbn. by rewrite Hout.
Qed.

(** [FlattenGraph] in terms of the counter of its two passes. *)
Lemma FlattenGraph_fixup `{Dis} (laws : DisLaws) (h : heap)
    (blocks : list block_id) :
  Forall (resolvable blocks) (flat_insts h blocks) →
  ∃ out,
    FlattenGraph h blocks = Ret out
    ∧ length out = length (flat_insts h blocks)
    ∧ (∀ (i : nat) (op : string) (B : block_id) (k : nat),
         flat_insts h blocks !! i = Some (Inst2 op (ArgBlock B)) →
         blocks !! k = Some B → B ∉ drop (S k) blocks →
         let p := code_size (take i (flat_insts h blocks)) in
         let begin_B := code_size (flat_insts h (take k blocks)) in
         (op ∈ HAS_JREL →
          out !! i = Some (Inst2 op (ArgVal (PyInt (begin_B - (p + 3))))))
         ∧ (op ∈ HAS_JABS →
            out !! i = Some (Inst2 op (ArgVal (PyInt begin_B)))))
    ∧ (∀ (i : nat) (t : inst),
         flat_insts h blocks !! i = Some t →
         inst_opname t ∉ HAS_JREL ∪ HAS_JABS → out !! i = Some t).
Proof.
  intros Hres. rewrite Forall_forall in Hres.
  destruct (layout_pass_spec h blocks) as (Hflat & _ & Hbegin).
  unfold FlattenGraph. rewrite Hflat.
  destruct (fixup_pass_total (l_begin (layout_pass h blocks)) 0
              (flat_insts h blocks)) as [out Hout].
  { intros t pc' Ht.
    destruct (decide (inst_opname t ∈ HAS_JREL ∪ HAS_JABS)) as [Hj|Hj].
    - specialize (Hres t Ht Hj). destruct t as [op|op [B|v]]; try done.
      destruct (last_occurrence B blocks Hres) as (k & Hk & Hlast).
      specialize (Hbegin B k Hk Hlast). cbn [inst_opname] in Hj.
      destruct (decide (op ∈ HAS_JREL)) as [Hrel|Hrel].
      + eexists. by apply fixup_inst_jrel.
      + eexists. apply fixup_inst_jabs; [done| |done].
        by apply elem_of_union in Hj as [Hj|Hj].
    - exists t. by apply fixup_inst_other. }
  exists out. split; [done|].
  destruct (fixup_pass_spec _ _ _ _ Hout) as [Hlen Hall].
  split; [done|]. split.
  - intros i op B k Hi Hk Hlast. cbv zeta.
    destruct (Hall i _ Hi) as (t' & Ht' & Hfix).
    specialize (Hbegin B k Hk Hlast). split.
    + intros Hrel.
      assert (Hop : op ≠ "SET_LINENO").
      { intros ->. by apply SET_LINENO_not_jrel. }
      rewrite (fixup_inst_jrel _ _ _ _ _ Hrel Hbegin) in Hfix.
      injection Hfix as <-. rewrite Ht'. do 4 f_equal.
      cbn [inst_size]. destruct (decide (op = "SET_LINENO")); [done|].
      lia.
    + intros Habs.
      assert (Hrel : op ∉ HAS_JREL).
      { intros Hrel. pose proof jrel_jabs_disjoint as Hd.
        assert (Hin : op ∈ HAS_JREL ∩ HAS_JABS) by by apply elem_of_intersection.
        rewrite Hd in Hin. by apply elem_of_empty in Hin. }
      rewrite (fixup_inst_jabs _ _ _ _ _ Hrel Habs Hbegin) in Hfix.
      by injection Hfix as <-.
  - intros i t Hi Hop.
    destruct (Hall i _ Hi) as (t' & Ht' & Hfix).
    rewrite (fixup_inst_other _ _ _ Hop) in Hfix. by injection Hfix as <-.
Qed.

Lemma inst_size_occupies (i : inst) : inst_size i = occupies i.
Proof.
  destruct i as [op|op arg]; [done|]. cbn [inst_size occupies].
  destruct (decide (op = "SET_LINENO")) as [->|Hne]; [done|].
  by apply String.eqb_neq in Hne as ->.
Qed.

Lemma code_size_bytes_of (l : list inst) : code_size l = bytes_of l.
Proof.
  unfold code_size, sum_Z, bytes_of. induction l as [|i l IH]; [done|].
  cbn [fmap list_fmap foldr]. by rewrite inst_size_occupies, IH.
Qed.

(** C1: when every jump instruction of the listed blocks has a block of
    the list as its operand, [FlattenGraph] returns an instruction list of
    the same length in which a relative jump that starts at byte offset
    [p] and targets [B] has the operand [begin[B] - (p + 3)] and an
    absolute jump to [B] has the operand [begin[B]].  Here [p] is the
    number of bytes the instructions before the jump occupy and
    [begin[B]], the counter pass 1 stores for [B], is the number of bytes
    the instructions of the blocks before the last position of [B] in the
    list occupy: 1 byte for a 1-field instruction, none for [SET_LINENO],
    3 for any other 2-field instruction.  Other instructions are left as
    they are. *)
Theorem FlattenGraph_jump_opargs `{Dis} (laws : DisLaws) (h : heap)
    (blocks : list block_id) :
  Forall (resolvable blocks) (flat_insts h blocks) →
  ∃ out,
    FlattenGraph h blocks = Ret out
    ∧ length out = length (flat_insts h blocks)
    ∧ (∀ (i : nat) (op : string) (B : block_id) (k : nat),
         flat_insts h blocks !! i = Some (Inst2 op (ArgBlock B)) →
         blocks !! k = Some B → B ∉ drop (S k) blocks →
         let p := bytes_of (take i (flat_insts h blocks)) in
         let begin_B := bytes_of (flat_insts h (take k blocks)) in
         l_begin (layout_pass h blocks) !! B = Some begin_B
         ∧ (op ∈ HAS_JREL →
            out !! i = Some (Inst2 op (ArgVal (PyInt (begin_B - (p + 3))))))
         ∧ (op ∈ HAS_JABS →
            out !! i = Some (Inst2 op (ArgVal (PyInt begin_B)))))
    ∧ (∀ (i : nat) (t : inst),
         flat_insts h blocks !! i = Some t →
         inst_opname t ∉ HAS_JREL ∪ HAS_JABS → out !! i = Some t).
Proof.
  intros Hres.
  destruct (FlattenGraph_fixup laws h blocks Hres)
    as (out & Hout & Hlen & Hjump & Hother).
  exists out. split; [done|]. split; [done|]. split; [|done].
  intros i op B k Hi Hk Hlast. cbv zeta. rewrite <- !code_size_bytes_of.
  specialize (Hjump i op B k Hi Hk Hlast). cbv zeta in Hjump.
  split; [|exact Hjump].
  destruct (layout_pass_spec h blocks) as (_ & _ & Hbegin). by apply Hbegin.
Qed.

(** The two-block example under the tables of CPython 2.7: the forward
    jump at offset 0 gets [4 - 3] and the absolute jump gets 0. *)
Example FlattenGraph_two_blocks :
  @FlattenGraph dis27 two_block_heap [0; 1]%nat
  = Ret [Inst2 "SET_LINENO" (ArgVal (PyInt 1));
         Inst2 "JUMP_FORWARD" (ArgVal (PyInt 1));
         Inst1 "POP_TOP";
         Inst2 "JUMP_ABSOLUTE" (ArgVal (PyInt 0));
         Inst1 "RETURN_VALUE"].
Proof. by vm_compute. Qed.

(** The two-block example under the tables of CPython 2.7.  The forward
    jump starts at byte 0, after a [SET_LINENO] of no bytes, and block 1
    begins at byte 4, after the jump of 3 bytes and [POP_TOP] of 1 byte:
    its operand is [4 - (0 + 3)].  The absolute jump to block 0 has the
    operand 0. *)
Lemma FlattenGraph_jump_opargs_witness :
  Forall (@resolvable dis27 [0; 1]%nat) (flat_insts two_block_heap [0; 1]%nat)
  ∧ ∃ out,
      @FlattenGraph dis27 two_block_heap [0; 1]%nat = Ret out
      ∧ length out = 5%nat
      ∧ l_begin (layout_pass two_block_heap [0; 1]%nat) !! 1%nat = Some 4
      ∧ l_begin (layout_pass two_block_heap [0; 1]%nat) !! 0%nat = Some 0
      ∧ out !! 0%nat = Some (Inst2 "SET_LINENO" (ArgVal (PyInt 1)))
      ∧ out !! 1%nat = Some (Inst2 "JUMP_FORWARD" (ArgVal (PyInt 1)))
      ∧ out !! 2%nat = Some (Inst1 "POP_TOP")
      ∧ out !! 3%nat = Some (Inst2 "JUMP_ABSOLUTE" (ArgVal (PyInt 0)))
      ∧ out !! 4%nat = Some (Inst1 "RETURN_VALUE").
Proof.
  assert (Hres : Forall (@resolvable dis27 [0; 1]%nat)
                        (flat_insts two_block_heap [0; 1]%nat)).
  { apply (bool_decide_unpack _). by vm_compute. }
  split; [exact Hres|].
  destruct (@FlattenGraph_jump_opargs dis27 dis27_laws two_block_heap
              [0; 1]%nat Hres) as (out & Hout & Hlen & Hjump & Hother).
  exists out. split; [exact Hout|]. split; [exact Hlen|].
  destruct (Hjump 1%nat "JUMP_FORWARD" 1%nat 1%nat eq_refl eq_refl)
    as (Hb1 & Hrel & _); [by intros ?%elem_of_nil|].
  destruct (Hjump 3%nat "JUMP_ABSOLUTE" 0%nat 0%nat eq_refl eq_refl)
    as (Hb0 & _ & Habs).
  { intros [Hc|Hc%elem_of_nil]%elem_of_cons; done. }
  split; [exact Hb1|]. split; [exact Hb0|].
  split; [apply (Hother 0%nat); [reflexivity|]|].
  { apply (bool_decide_unpack _). by vm_compute. }
  split; [apply Hrel|].
  { apply (bool_decide_unpack _). by vm_compute. }
  split; [apply (Hother 2%nat); [reflexivity|]|].
  { apply (bool_decide_unpack _). by vm_compute. }
  split; [apply Habs|].
  { apply (bool_decide_unpack _). by vm_compute. }
  apply (Hother 4%nat); [reflexivity|].
  apply (bool_decide_unpack _). by vm_compute.
Defined.

(** ** [OrderBlocks]: the blocks to be emitted *)

Lemma get_children_child `{SetIter} (laws : SetIterLaws) (h : heap)
    (b c : block_id) :
  c ∈ get_children (h b) ↔ child h b c.
Proof.
  unfold get_children, child.
  by rewrite elem_of_app, (block_set_iter_elem laws).
Qed.

Lemma push_children_elem (R : gset block_id) (l td : list block_id)
    (c : block_id) :
  c ∈ foldl (λ td c, if decide (c ∈ R) then td else c :: td) td l
  ↔ c ∈ td ∨ (c ∈ l ∧ c ∉ R).
Proof.
  revert td. induction l as [|x l IH]; intros td; cbn [foldl].
  - rewrite elem_of_nil. naive_solver.
  - rewrite IH. destruct (decide (x ∈ R)) as [Hx|Hx];
      rewrite ?elem_of_cons; naive_solver.
Qed.

(** The first loop returns a set that holds the stack and the blocks
    already found, is closed under [get_children], and holds only blocks
    reachable from those. *)
Lemma find_blocks_spec `{SetIter} (laws : SetIterLaws) (h : heap) (fuel : nat)
    (todo : list block_id) (R R' : gset block_id) :
  find_blocks fuel h todo R = Ret R' →
  (∀ x c, x ∈ R → child h x c → c ∈ R ∨ c ∈ todo) →
  (R ⊆ R' ∧ ∀ t, t ∈ todo → t ∈ R')
  ∧ (∀ x c, x ∈ R' → child h x c → c ∈ R')
  ∧ (∀ x, x ∈ R' → x ∈ R ∨ ∃ t, t ∈ todo ∧ rtc (child h) t x).
Proof.
  revert todo R. induction fuel as [|fuel IH]; intros todo R Hrun Hinv.
  - destruct todo as [|b todo]; [|done]. injection Hrun as <-.
    split; [split; [done | by intros t Ht%elem_of_nil]|].
    split; [|by left].
    intros x c Hx Hc. destruct (Hinv x c Hx Hc) as [?|Ht%elem_of_nil]; done.
  - destruct todo as [|b todo].
    { injection Hrun as <-.
      split; [split; [done | by intros t Ht%elem_of_nil]|].
      split; [|by left].
      intros x c Hx Hc. destruct (Hinv x c Hx Hc) as [?|Ht%elem_of_nil]; done. }
    cbn [find_blocks] in Hrun.
    destruct (decide (b ∈ R)) as [Hb|Hb].
    + destruct (IH _ _ Hrun) as ((Hsub & Htodo) & Hclosed & Hsound).
      { intros x c Hx Hc.
        destruct (Hinv x c Hx Hc) as [?|[->|?]%elem_of_cons]; auto. }
      split; [split; [done|]|split; [done|]].
      * intros t [->|Ht]%elem_of_cons; [by apply Hsub | by apply Htodo].
      * intros x Hx. destruct (Hsound x Hx) as [?|(t & Ht & Hreach)]; [by left|].
        right. exists t. split; [by apply list_elem_of_further | done].
    + destruct (IH _ _ Hrun) as ((Hsub & Htodo) & Hclosed & Hsound).
      { intros x c Hx Hc. destruct (decide (c ∈ {[b]} ∪ R)) as [?|Hc']; [by left|].
        right. apply push_children_elem.
        apply elem_of_union in Hx as [->%elem_of_singleton|Hx].
        - right. split; [by apply (get_children_child laws) | done].
        - destruct (Hinv x c Hx Hc) as [?|[->|?]%elem_of_cons];
            [set_solver | set_solver | by left]. }
      split; [split|split; [done|]].
      * set_solver.
      * intros t [->|Ht]%elem_of_cons; [set_solver|].
        apply Htodo, push_children_elem. by left.
      * intros x Hx.
        destruct (Hsound x Hx)
          as [[->%elem_of_singleton|?]%elem_of_union|(t & Ht & Hreach)].
        -- right. exists b. split; [apply list_elem_of_here | done].
        -- by left.
        -- right. apply push_children_elem in Ht as [Ht|[Ht _]].
           ++ exists t. split; [by apply list_elem_of_further | done].
           ++ exists b. split; [apply list_elem_of_here|].
              eapply rtc_l; [|done]. by apply (get_children_child laws).
Qed.

(** The set found from the entry block is the set of reachable blocks. *)
Lemma find_blocks_reachable `{SetIter} (laws : SetIterLaws) (h : heap)
    (fuel : nat) (start : block_id) (R : gset block_id) :
  find_blocks fuel h [start] ∅ = Ret R →
  ∀ b, b ∈ R ↔ reachable h start b.
Proof.
  intros Hrun.
  destruct (find_blocks_spec laws h fuel [start] ∅ R Hrun)
    as ((_ & Hstart) & Hclosed & Hsound); [set_solver|].
  intros b. split.
  - intros Hb. destruct (Hsound b Hb) as [?|(t & Ht & Hreach)]; [set_solver|].
    by apply list_elem_of_singleton in Ht as ->.
  - intros Hr. unfold reachable in Hr.
    eapply (rtc_ind_r (λ z, z ∈ R) start); [| |exact Hr].
    + apply Hstart, list_elem_of_here.
    + intros y z _ Hyz Hy. by eapply Hclosed.
Qed.

(** ** [OrderBlocks]: the dominators *)

Lemma foldM_invariant {A B} (P : A → Prop) (f : A → B → result A)
    (l : list B) (a a' : A) :
  (∀ a x a', x ∈ l → P a → f a x = Ret a' → P a') →
  P a → foldM f a l = Ret a' → P a'.
Proof.
  revert a. induction l as [|x l IH]; intros a Hstep Ha Hrun.
  - by injection Hrun as <-.
  - cbn [foldM] in Hrun. inv_bind Hrun.
    eapply (IH r); [|by eapply Hstep; [apply list_elem_of_here|..]|done].
    intros a0 x0 a0' Hx0. apply Hstep. by apply list_elem_of_further.
Qed.

(** What a fold establishes for each element, when later steps keep it. *)
Lemma foldM_establishes {A B} (Q : B → A → Prop) (f : A → B → result A)
    (l : list B) (a a' : A) :
  (∀ a x a', f a x = Ret a' → Q x a') →
  (∀ a x a' y, f a x = Ret a' → Q y a → Q y a') →
  foldM f a l = Ret a' → ∀ x, x ∈ l → Q x a'.
Proof.
  intros Hest Hkeep. revert a.
  induction l as [|y l IH]; intros a Hrun x Hx; [by apply elem_of_nil in Hx|].
  cbn [foldM] in Hrun. inv_bind Hrun.
  apply elem_of_cons in Hx as [->|Hx]; [|by eapply IH].
  eapply (foldM_invariant (Q y) f l r a'); [|by eapply Hest|done].
  intros a0 x0 a0' _ Hq Hf. by eapply Hkeep.
Qed.

Lemma dominates_add (doms : gmap block_id (gset block_id)) (c b : block_id) :
  dominates (add_dominator c b doms) c b.
Proof.
  unfold dominates, add_dominator. eexists. rewrite lookup_insert_eq.
  split; [done|]. set_solver.
Qed.

Lemma dominates_add_keep (doms : gmap block_id (gset block_id))
    (c b c' b' : block_id) :
  dominates doms c' b' → dominates (add_dominator c b doms) c' b'.
Proof.
  unfold dominates, add_dominator. intros (ds & Hds & Hb').
  destruct (decide (c = c')) as [->|Hne].
  - eexists. rewrite lookup_insert_eq. split; [done|].
    rewrite Hds. simpl. set_solver.
  - exists ds. by rewrite lookup_insert_ne.
Qed.

Lemma dominates_setdefault_keep (doms : gmap block_id (gset block_id))
    (b c' b' : block_id) :
  dominates doms c' b' →
  dominates (<[b := default ∅ (doms !! b)]> doms) c' b'.
Proof.
  unfold dominates. intros (ds & Hds & Hb').
  destruct (decide (b = c')) as [->|Hne].
  - exists ds. rewrite lookup_insert_eq, Hds. done.
  - exists ds. by rewrite lookup_insert_ne.
Qed.

Lemma walk_prev_spec (h : heap) (fuel : nat) (b c : block_id)
    (doms doms' : gmap block_id (gset block_id)) :
  walk_prev fuel h b c doms = Ret doms' →
  dominates doms' c b
  ∧ ∀ c' b', dominates doms c' b' → dominates doms' c' b'.
Proof.
  revert c doms. induction fuel as [|fuel IH]; intros c doms Hrun; [done|].
  cbn [walk_prev] in Hrun.
  destruct (prev (h c)) as [|p ps].
  - injection Hrun as <-.
    split; [apply dominates_add | intros; by apply dominates_add_keep].
  - destruct (decide (p = b)) as [->|Hne].
    + injection Hrun as <-.
      split; [apply dominates_add | intros; by apply dominates_add_keep].
    + destruct (IH _ _ Hrun) as [Hp Hkeep]. split.
      * apply Hkeep, dominates_add.
      * intros c' b' Hd. by apply Hkeep, dominates_add_keep.
Qed.

Lemma get_followers_next `{Dis} (b : Block) (fs : gset block_id) :
  get_followers b = Ret fs → ∀ c, c ∈ next b → c ∈ fs.
Proof.
  unfold get_followers. intros Hrun c Hc.
  eapply (foldM_invariant (λ s : gset block_id, c ∈ s)); [| |exact Hrun].
  - intros s i s' _ Hs Hstep. cbv beta in Hstep.
    case_bool_decide; [|by injection Hstep as <-].
    destruct i as [op|op [t|v]]; try done.
    injection Hstep as <-. set_solver.
  - by apply elem_of_list_to_set.
Qed.

Lemma check_next_Ret (h : heap) (b n : block_id) :
  check_next h b = Ret () → head (next (h b)) = Some n →
  head (prev (h n)) = Some b.
Proof.
  unfold check_next. destruct (next (h b)) as [|m ms]; [done|].
  intros Hrun [= ->]. destruct (prev (h n)) as [|p ps]; [done|].
  by destruct (decide (p = b)) as [->|].
Qed.

(** One turn of the loop over [remaining]: the assertion on [b.next]
    holds, [b] dominates its next block, and no entry is lost. *)
Lemma dominate_block_spec `{Dis, SetIter} (laws : SetIterLaws) (h : heap)
    (fuel : nat) (b : block_id) (doms doms' : gmap block_id (gset block_id)) :
  dominate_block fuel h doms b = Ret doms' →
  check_next h b = Ret ()
  ∧ (∀ c, c ∈ next (h b) → dominates doms' c b)
  ∧ (∀ c' b', dominates doms c' b' → dominates doms' c' b').
Proof.
  unfold dominate_block. intros Hrun.
  inv_bind Hrun. destruct r. inv_bind Hrun. rename r into fs.
  split; [done|]. split.
  - intros c Hc.
    apply (get_followers_next _ _ Hr0) in Hc.
    apply (block_set_iter_elem laws) in Hc.
    eapply (foldM_establishes (λ c d, dominates d c b)); [| |exact Hrun|exact Hc].
    + intros d x d' Hw. by apply walk_prev_spec in Hw as [? _].
    + intros d x d' y Hw Hy. apply walk_prev_spec in Hw as [_ Hkeep]. auto.
  - intros c' b' Hd.
    eapply (foldM_invariant (λ d, dominates d c' b')); [| |exact Hrun].
    + intros d x d' _ Hy Hw. apply walk_prev_spec in Hw as [_ Hkeep]. auto.
    + by apply dominates_setdefault_keep.
Qed.

(** After the loop every block of [remaining] satisfies the assertion on
    its next link and dominates its next block. *)
Lemma compute_dominators_spec `{Dis, SetIter} (laws : SetIterLaws) (h : heap)
    (fuel : nat) (R : gset block_id) (doms : gmap block_id (gset block_id)) :
  compute_dominators fuel h R = Ret doms →
  ∀ b, b ∈ R →
       check_next h b = Ret () ∧ ∀ c, c ∈ next (h b) → dominates doms c b.
Proof.
  unfold compute_dominators. intros Hrun b Hb.
  apply (block_set_iter_elem laws) in Hb.
  eapply (foldM_establishes
            (λ b d, check_next h b = Ret ()
                    ∧ ∀ c, c ∈ next (h b) → dominates d c b));
    [| |exact Hrun|exact Hb].
  - intros d x d' Hstep.
    by apply (dominate_block_spec laws) in Hstep as (? & ? & _).
  - intros d x d' y Hstep [Hchk Hdom].
    apply (dominate_block_spec laws) in Hstep as (_ & _ & Hkeep).
    split; [done|]. auto.
Qed.

(** ** [OrderBlocks]: the emission loop *)

Lemma find_next_in_spec `{SetIter} (laws : SetIterLaws)
    (doms : gmap block_id (gset block_id)) (R : gset block_id)
    (l : list block_id) (b : block_id) :
  find_next_in doms R l = Ret b →
  b ∈ l ∧ ∀ y, dominates doms b y → y ∉ R.
Proof.
  induction l as [|x l IH]; intros Hrun; [done|].
  cbn [find_next_in] in Hrun. inv_bind Hrun. destruct r.
  - injection Hrun as ->. split; [apply list_elem_of_here|].
    intros y (ds & Hds & Hy). unfold can_emit in Hr. rewrite Hds in Hr.
    injection Hr as Hall. rewrite forallb_forall in Hall.
    apply (block_set_iter_elem laws), list_elem_of_In in Hy.
    specialize (Hall y Hy). by apply bool_decide_eq_true in Hall.
  - destruct (IH Hrun) as [Hin Hd]. split; [by apply list_elem_of_further|done].
Qed.

Lemma find_next_spec `{SetIter} (laws : SetIterLaws)
    (doms : gmap block_id (gset block_id)) (R : gset block_id) (b : block_id) :
  find_next doms R = Ret b → b ∈ R ∧ ∀ y, dominates doms b y → y ∉ R.
Proof.
  unfold find_next. intros [Hin Hd]%(find_next_in_spec laws).
  by apply (block_set_iter_elem laws) in Hin.
Qed.

Lemma head_Some_elem {A} (l : list A) (x : A) : head l = Some x → x ∈ l.
Proof. destruct l; [done|]. intros [= ->]. apply list_elem_of_here. Qed.

Lemma order_inv_emit (exit_block : block_id) (R0 : gset block_id)
    (order : list block_id) (R : gset block_id) (b : block_id) :
  b ∈ R → R ⊆ R0 →
  order_inv exit_block R0 order R →
  order_inv exit_block R0 (order ++ [b]) (R ∖ {[b]}).
Proof.
  intros Hb Hsub (Hout & Hnd & Hall & Hin). repeat split.
  - intros x [Hx| ->%list_elem_of_singleton]%elem_of_app Hne.
    + specialize (Hout x Hx Hne). set_solver.
    + set_solver.
  - rewrite filter_app. apply NoDup_app. split; [done|]. split.
    + intros x [Hne Hx]%list_elem_of_filter Hx'.
      rewrite filter_cons, filter_nil in Hx'.
      destruct (decide (b ≠ exit_block)); [|by apply elem_of_nil in Hx'].
      apply list_elem_of_singleton in Hx' as ->. by apply (Hout b).
    + rewrite filter_cons, filter_nil.
      destruct (decide (b ≠ exit_block)); [apply NoDup_singleton|apply NoDup_nil_2].
  - intros x Hx. destruct (decide (x = b)) as [->|Hne].
    + right. apply elem_of_app. right. apply list_elem_of_here.
    + destruct (Hall x Hx) as [?|?]; [left; set_solver|].
      right. apply elem_of_app. by left.
  - intros x [Hx| ->%list_elem_of_singleton]%elem_of_app; [by apply Hin|].
    right. by apply Hsub.
Qed.

Lemma order_inv_exit (exit_block : block_id) (R0 : gset block_id)
    (order : list block_id) (R : gset block_id) :
  order_inv exit_block R0 order R →
  order_inv exit_block R0 (order ++ [exit_block]) R.
Proof.
  intros (Hout & Hnd & Hall & Hin). repeat split.
  - intros x [Hx| ->%list_elem_of_singleton]%elem_of_app Hne; [by apply Hout|done].
  - rewrite filter_app, filter_cons, filter_nil.
    destruct (decide (exit_block ≠ exit_block)); [done|].
    by rewrite app_nil_r.
  - intros x Hx. destruct (Hall x Hx) as [?|?]; [by left|].
    right. apply elem_of_app. by left.
  - intros x [Hx| ->%list_elem_of_singleton]%elem_of_app; [by apply Hin|by left].
Qed.

Section emit_loop.
Context `{Dis, SetIter} (laws : SetIterLaws).
Context (h : heap) (exit_block : block_id) (R0 : gset block_id).
Context (doms : gmap block_id (gset block_id)).
Hypothesis next_prev :
  ∀ y n, y ∈ R0 → head (next (h y)) = Some n → head (prev (h n)) = Some y.
Hypothesis next_dominated :
  ∀ y n, y ∈ R0 → head (next (h y)) = Some n → dominates doms n y.


End emit_loop.




(** ** Fuel

    A result obtained with some fuel is the result with any larger
    fuel. *)

Lemma fuel_mono_le {A} (f : nat → result A) :
  (∀ n r, f n = Ret r → f (S n) = Ret r) →
  ∀ n m r, (n ≤ m)%nat → f n = Ret r → f m = Ret r.
Proof.
  intros Hstep n m r Hle Hn. induction Hle as [|m _ IH]; [done|].
  by apply Hstep.
Qed.

Lemma foldM_mono {A B} (f g : A → B → result A) (l : list B) (a a' : A) :
  (∀ a x a', f a x = Ret a' → g a x = Ret a') →
  foldM f a l = Ret a' → foldM g a l = Ret a'.
Proof.
  intros Hfg. revert a. induction l as [|x l IH]; intros a Hrun; [done|].
  cbn [foldM] in *. inv_bind Hrun. rewrite (Hfg _ _ _ Hr). by apply IH.
Qed.

Lemma find_blocks_mono `{SetIter} (h : heap) (fuel : nat)
    (todo : list block_id) (R R' : gset block_id) :
  find_blocks fuel h todo R = Ret R' → find_blocks (S fuel) h todo R = Ret R'.
Proof.
  revert todo R. induction fuel as [|fuel IH]; intros todo R.
  - by destruct todo.
  - destruct todo as [|b todo]; [done|].
    intros Hrun. cbn [find_blocks] in *.
    destruct (decide (b ∈ R)); by apply IH.
Qed.

Lemma walk_prev_mono (h : heap) (fuel : nat) (b c : block_id)
    (doms doms' : gmap block_id (gset block_id)) :
  walk_prev fuel h b c doms = Ret doms' →
  walk_prev (S fuel) h b c doms = Ret doms'.
Proof.
  revert c doms. induction fuel as [|fuel IH]; intros c doms; [done|].
  intros Hrun. cbn [walk_prev] in *.
  destruct (prev (h c)) as [|p ps]; [done|].
  destruct (decide (p = b)); [done|]. by apply IH.
Qed.

Lemma compute_dominators_mono `{Dis, SetIter} (h : heap) (fuel : nat)
    (R : gset block_id) (doms : gmap block_id (gset block_id)) :
  compute_dominators fuel h R = Ret doms →
  compute_dominators (S fuel) h R = Ret doms.
Proof.
  unfold compute_dominators. apply foldM_mono.
  intros d b d' Hrun. unfold dominate_block in *.
  inv_bind Hrun. rewrite Hr. cbn [mbind result_bind]. inv_bind Hrun. rewrite Hr0. cbn [mbind result_bind].
  revert Hrun. apply foldM_mono. intros ? ? ?. apply walk_prev_mono.
Qed.

Lemma emit_loop_mono `{SetIter} (h : heap) (exit_block : block_id)
    (doms : gmap block_id (gset block_id)) (fuel : nat) (b : block_id)
    (order : list block_id) (R : gset block_id) (result : list block_id) :
  emit_loop fuel h exit_block doms b order R = Ret result →
  emit_loop (S fuel) h exit_block doms b order R = Ret result.
Proof.
  revert b order R. induction fuel as [|fuel IH]; intros b order R; [done|].
  intros Hrun. cbn [emit_loop] in *.
  destruct (next (h b)) as [|n ns]; [|by apply IH].
  destruct (decide (R ∖ {[b]} = ∅)); [done|].
  inv_bind Hrun. rewrite Hr. cbn [mbind result_bind]. by apply IH.
Qed.

Lemma OrderBlocks_fuel `{Dis, SetIter} (h : heap) (fuel fuel' : nat)
    (start_block exit_block : block_id) (order : list block_id) :
  (fuel ≤ fuel')%nat →
  OrderBlocks fuel h start_block exit_block = Ret order →
  OrderBlocks fuel' h start_block exit_block = Ret order.
Proof.
  apply (fuel_mono_le (λ n, OrderBlocks n h start_block exit_block)).
  clear. intros fuel order Hrun. unfold OrderBlocks in *.
  inv_bind Hrun. rewrite (find_blocks_mono _ _ _ _ _ Hr). cbn [mbind result_bind].
  inv_bind Hrun. rewrite (compute_dominators_mono _ _ _ _ Hr0). cbn [mbind result_bind].
  by apply emit_loop_mono.
Qed.

(** Once the invariant of the emission loop holds, fuel for one turn per
    remaining block is enough. *)
Lemma emit_loop_fuel `{Dis, SetIter} (laws : SetIterLaws) (h : heap)
    (exit_block : block_id) (R0 : gset block_id)
    (doms : gmap block_id (gset block_id)) (fuel : nat) (b : block_id)
    (order : list block_id) (R : gset block_id) :
  (∀ y n, y ∈ R0 → head (next (h y)) = Some n → head (prev (h n)) = Some y) →
  (∀ y n, y ∈ R0 → head (next (h y)) = Some n → dominates doms n y) →
  emit_inv h exit_block R0 b order R →
  (size R ≤ fuel)%nat →
  emit_loop fuel h exit_block doms b order R ≠ OutOfFuel.
Proof.
  intros next_prev next_dominated.
  revert b order R. induction fuel as [|fuel IH]; intros b order R.
  - intros (Hb & _) Hsize. exfalso.
    assert (size R = 0%nat) as HR%size_empty_iff by lia.
    by apply HR in Hb.
  - intros (Hb & Hsub & Hnext & Hnotnext & Hord) Hsize.
    cbn [emit_loop].
    pose proof (order_inv_emit _ _ _ _ _ Hb Hsub Hord) as Hord1.
    assert (Hsize1 : (size (R ∖ {[b]}) ≤ fuel)%nat).
    { rewrite size_difference by (by apply singleton_subseteq_l).
      rewrite size_singleton. lia. }
    assert (Hsub1 : R ∖ {[b]} ⊆ R0) by set_solver.
    assert (Hnext1 : ∀ y n, y ∈ R ∖ {[b]} → head (next (h y)) = Some n →
                            n ∈ R ∖ {[b]}).
    { intros y n [Hy _]%elem_of_difference Hn.
      apply elem_of_difference. split; [by eapply Hnext|].
      intros ->%elem_of_singleton. by apply (Hnotnext y). }
    destruct (next (h b)) as [|n ns] eqn:En.
    + set (order2 := if bool_decide (b ≠ exit_block)
                        && negb (truthy (has_unconditional_transfer (h b)))
                     then (order ++ [b]) ++ [exit_block] else order ++ [b]) in *.
      assert (Hord2 : order_inv exit_block R0 order2 (R ∖ {[b]})).
      { subst order2. destruct (_ && _); [by apply order_inv_exit|done]. }
      clearbody order2.
      destruct (decide (R ∖ {[b]} = ∅)) as [Hempty|Hrest]; [done|].
      destruct (find_next doms (R ∖ {[b]})) as [b'| |] eqn:Hfn; cbn; [|done|].
      * apply (find_next_spec laws) in Hfn as [Hb' Hdom'].
        apply IH; [|done]. repeat split; try done; try apply Hord2.
        intros y Hy Hyn. apply (Hdom' y); [|done].
        apply next_dominated; [by apply Hsub1|done].
      * exfalso. unfold find_next in Hfn.
        induction (block_set_iter (R ∖ {[b]})) as [|x l IHl]; [done|].
        cbn [find_next_in] in Hfn. unfold can_emit in Hfn.
        destruct (doms !! x); [|done]. cbn in Hfn.
        destruct (forallb _ _); [done|auto].
    + assert (Hbn : head (next (h b)) = Some n) by by rewrite En.
      apply IH; [|done].
      repeat split; try done; try apply Hord1.
      * apply elem_of_difference. split; [by eapply Hnext|].
        intros Hnb%elem_of_singleton. subst n. by apply (Hnotnext b).
      * intros y Hy Hyn.
        pose proof (next_prev y n (Hsub1 y Hy) Hyn) as Hp1.
        pose proof (next_prev b n (Hsub b Hb) Hbn) as Hp2.
        rewrite Hp1 in Hp2. injection Hp2 as ->. set_solver.
Qed.

(** ** Termination of [OrderBlocks]

    In a finite graph whose [prev] links do not form a cycle the three
    loops end: with fuel for them, [OrderBlocks] returns or raises. *)

Lemma pending_work_remove `{SetIter} (h : heap) (s : gset block_id)
    (b : block_id) :
  b ∈ s →
  pending_work h s
  = (S (length (get_children (h b))) + pending_work h (s ∖ {[b]}))%nat.
Proof.
  intros Hb. unfold pending_work.
  rewrite (union_difference_singleton_L b s Hb) at 1.
  rewrite elements_union_singleton by set_solver. done.
Qed.

Lemma push_children_length (R : gset block_id) (l td : list block_id) :
  (length (foldl (λ td c, if decide (c ∈ R) then td else c :: td) td l)
   ≤ length td + length l)%nat.
Proof.
  revert td. induction l as [|x l IH]; intros td; cbn [foldl length]; [lia|].
  specialize (IH (if decide (x ∈ R) then td else x :: td)).
  destruct (decide (x ∈ R)); cbn [length] in IH; lia.
Qed.

Lemma find_blocks_terminates `{SetIter} (laws : SetIterLaws) (h : heap)
    (U : gset block_id) (fuel : nat) (todo : list block_id)
    (R : gset block_id) :
  (∀ x c, x ∈ U → child h x c → c ∈ U) →
  (∀ t, t ∈ todo → t ∈ U) →
  (length todo + pending_work h (U ∖ R) ≤ fuel)%nat →
  ∃ R', find_blocks fuel h todo R = Ret R'.
Proof.
  intros Hclosed. revert todo R.
  induction fuel as [|fuel IH]; intros todo R Htodo Hfuel.
  - destruct todo as [|b todo]; [by eexists|]. cbn [length] in Hfuel. lia.
  - destruct todo as [|b todo]; [by eexists|].
    cbn [find_blocks]. cbn [length] in Hfuel.
    assert (HbU : b ∈ U) by apply Htodo, list_elem_of_here.
    destruct (decide (b ∈ R)) as [Hb|Hb].
    + apply IH; [|lia]. intros t Ht. by apply Htodo, list_elem_of_further.
    + apply IH.
      * intros t [Ht|[Ht _]]%push_children_elem.
        -- by apply Htodo, list_elem_of_further.
        -- apply (Hclosed b); [done|]. by apply (get_children_child laws).
      * pose proof (push_children_length ({[b]} ∪ R) (get_children (h b)) todo)
          as Hlen.
        rewrite (pending_work_remove h (U ∖ R) b) in Hfuel by set_solver.
        replace (U ∖ ({[b]} ∪ R)) with (U ∖ R ∖ {[b]}) by set_solver.
        lia.
Qed.

Lemma walk_prev_terminates (h : heap) (rank : block_id → nat) (fuel : nat)
    (b c : block_id) (doms : gmap block_id (gset block_id)) :
  (∀ c p, head (prev (h c)) = Some p → (rank p < rank c)%nat) →
  (rank c < fuel)%nat →
  ∃ doms', walk_prev fuel h b c doms = Ret doms'.
Proof.
  intros Hrank. revert c doms.
  induction fuel as [|fuel IH]; intros c doms Hc; [lia|].
  cbn [walk_prev]. destruct (prev (h c)) as [|p ps] eqn:Ep; [by eexists|].
  destruct (decide (p = b)); [by eexists|].
  apply IH. specialize (Hrank c p). rewrite Ep in Hrank.
  specialize (Hrank eq_refl). lia.
Qed.

Lemma foldM_in_time {A B} (f : A → B → result A) (l : list B) (a : A) :
  (∀ a x, f a x ≠ OutOfFuel) → foldM f a l ≠ OutOfFuel.
Proof.
  intros Hf. revert a. induction l as [|x l IH]; intros a; [done|].
  cbn [foldM]. specialize (Hf a x). destruct (f a x); cbn; auto.
Qed.

Lemma compute_dominators_terminates `{Dis, SetIter} (h : heap)
    (rank : block_id → nat) (fuel : nat) (R : gset block_id) :
  (∀ c p, head (prev (h c)) = Some p → (rank p < rank c)%nat) →
  (∀ c, rank c < fuel)%nat →
  compute_dominators fuel h R ≠ OutOfFuel.
Proof.
  intros Hrank Hfuel. unfold compute_dominators. apply foldM_in_time.
  intros doms b. unfold dominate_block.
  assert (Hchk : check_next h b ≠ OutOfFuel).
  { unfold check_next. destruct (next (h b)); [done|].
    destruct (prev (h _)); [done|]. by case_decide. }
  destruct (check_next h b) as [[]| |]; cbn; [|done|done].
  assert (Hfol : get_followers (h b) ≠ OutOfFuel).
  { unfold get_followers. apply foldM_in_time. intros s i.
    case_bool_decide; [|done]. by destruct i as [op|op [t|v]]. }
  destruct (get_followers (h b)) as [fs| |]; cbn; [|done|done].
  apply foldM_in_time. intros d c.
  by destruct (walk_prev_terminates h rank fuel b c d Hrank (Hfuel c)) as [? ->].
Qed.

(** X4: when the entry block has no [prev] link, the [prev] links form no
    cycle (a rank decreases along them) and the blocks reachable from the
    entry block lie in a finite set closed under children, [OrderBlocks]
    terminates: with fuel above the ranks and the number of turns of its
    first loop it does not run out, so it returns a sequence or raises. *)
Lemma OrderBlocks_terminates `{Dis, SetIter} (laws : SetIterLaws) (h : heap)
    (U : gset block_id) (rank : block_id → nat) (fuel : nat)
    (start_block exit_block : block_id) :
  start_block ∈ U →
  (∀ x c, x ∈ U → child h x c → c ∈ U) →
  (∀ c p, head (prev (h c)) = Some p → (rank p < rank c)%nat) →
  (∀ c, rank c < fuel)%nat →
  (1 + pending_work h U ≤ fuel)%nat →
  prev (h start_block) = [] →
  OrderBlocks fuel h start_block exit_block ≠ OutOfFuel.
Proof.
  intros Hstart Hclosed Hrank Hfuel1 Hfuel2 Hentry. unfold OrderBlocks.
  destruct (find_blocks_terminates laws h U fuel [start_block] ∅ Hclosed)
    as [R0 HR0].
  { by intros t ->%list_elem_of_singleton. }
  { replace (U ∖ ∅) with U by set_solver. cbn [length]. lia. }
  rewrite HR0. cbn [mbind result_bind].
  pose proof (compute_dominators_terminates h rank fuel R0 Hrank Hfuel1) as Hd.
  destruct (compute_dominators fuel h R0) as [doms| |] eqn:Hdoms;
    cbn [mbind result_bind]; [|done|done].
  pose proof (find_blocks_reachable laws _ _ _ _ HR0) as Hreach.
  pose proof (compute_dominators_spec laws _ _ _ _ Hdoms) as Hspec.
  assert (Hprev : ∀ y n, y ∈ R0 → head (next (h y)) = Some n →
                         head (prev (h n)) = Some y).
  { intros y n Hy Hn. destruct (Hspec y Hy) as [Hchk _].
    by apply check_next_Ret. }
  assert (HR0U : R0 ⊆ U).
  { intros x Hx%Hreach. unfold reachable in Hx.
    eapply (rtc_ind_r (λ z, z ∈ U) start_block); [done| |exact Hx].
    intros y z _ Hyz Hy. by eapply Hclosed. }
  apply (emit_loop_fuel laws h exit_block R0); [done| | |].
  - intros y n Hy Hn%head_Some_elem. destruct (Hspec y Hy) as [_ Hdm]. auto.
  - repeat split; try done.
    + apply Hreach. apply rtc_refl.
    + intros y n Hy Hn%head_Some_elem. apply Hreach.
      eapply rtc_r; [by apply Hreach|]. by right.
    + intros y Hy Hys. specialize (Hprev y start_block Hy Hys).
      by rewrite Hentry in Hprev.
    + intros x Hx%elem_of_nil. done.
    + rewrite filter_nil. apply NoDup_nil_2.
    + intros x Hx. by left.
    + intros x Hx%elem_of_nil. done.
  - etrans; [by apply subseteq_size|].
    assert (size U ≤ pending_work h U)%nat; [|lia].
    unfold pending_work, size, set_size. simpl.
    induction (elements U) as [|x l IHl]; cbn; lia.
Qed.

(** The example graph has the three blocks 0, 1, 2 and no [prev] link. *)
Example OrderBlocks_terminates_branch (fuel : nat) :
  (4 ≤ fuel)%nat →
  @OrderBlocks dis27 sorted_iter fuel branch_heap 0%nat 1%nat
  = Ret [0; 1; 2; 1]%nat.
Proof.
  intros Hfuel. apply (OrderBlocks_fuel branch_heap 4 fuel); [done|].
  by vm_compute.
Qed.

(** When a reachable block has the entry block as its next block, the
    entry block is emitted a second time after it. *)
Example OrderBlocks_entry_twice :
  @OrderBlocks dis27 sorted_iter 4 loop_heap 0%nat 1%nat
  = Ret [0; 2; 0]%nat.
Proof. by vm_compute. Qed.

(** ** [ComputeStackDepth] on an example *)

(** For the single block [LOAD_CONST None; POP_TOP] the stack size is 1:
    the depth reached inside the block, not the effect of the block. *)
Example ComputeStackDepth_load_pop :
  @ComputeStackDepth sorted_iter 2 load_pop_heap {[0%nat]} 0%nat 0%nat = Ret 1
  ∧ sum_of_effects (insts (load_pop_heap 0%nat)) = Ret 0.
Proof. split; by vm_compute. Qed.

(** * Further properties of the assembler *)

(** ** [OrderBlocks]: the shape of the emitted sequence *)

Lemma emit_loop_prefix `{SetIter} (h : heap) (exit_block : block_id)
    (doms : gmap block_id (gset block_id)) (fuel : nat) (b : block_id)
    (order : list block_id) (R : gset block_id) (result : list block_id) :
  emit_loop fuel h exit_block doms b order R = Ret result →
  ∃ rest, result = order ++ b :: rest.
Proof.
  revert b order R. induction fuel as [|fuel IH]; intros b order R Hrun; [done|].
  cbn [emit_loop] in Hrun. destruct (next (h b)) as [|n ns].
  - destruct (bool_decide (b ≠ exit_block)
              && negb (truthy (has_unconditional_transfer (h b)))).
    + destruct (decide (R ∖ {[b]} = ∅)).
      * injection Hrun as <-. exists [exit_block]. by rewrite <- app_assoc.
      * inv_bind Hrun. destruct (IH _ _ _ Hrun) as [rest ->].
        eexists. rewrite <- !app_assoc. reflexivity.
    + destruct (decide (R ∖ {[b]} = ∅)).
      * injection Hrun as <-. by exists [].
      * inv_bind Hrun. destruct (IH _ _ _ Hrun) as [rest ->].
        eexists. rewrite <- !app_assoc. reflexivity.
  - destruct (IH _ _ _ Hrun) as [rest ->].
    eexists. rewrite <- !app_assoc. reflexivity.
Qed.

(** X1: The sequence [OrderBlocks] returns starts with the entry block. *)
Theorem OrderBlocks_entry_first `{Dis, SetIter} (fuel : nat) (h : heap)
    (start_block exit_block : block_id) (order : list block_id) :
  OrderBlocks fuel h start_block exit_block = Ret order →
  order !! 0%nat = Some start_block.
Proof.
  unfold OrderBlocks. intros Hrun. inv_bind Hrun. inv_bind Hrun.
  by apply emit_loop_prefix in Hrun as [rest ->].
Qed.

Lemma OrderBlocks_entry_first_witness :
  @OrderBlocks dis27 sorted_iter 4 branch_heap 0%nat 1%nat
  = Ret [0; 1; 2; 1]%nat
  ∧ [0; 1; 2; 1]%nat !! 0%nat = Some 0%nat.
Proof.
  assert (E : @OrderBlocks dis27 sorted_iter 4 branch_heap 0%nat 1%nat
              = Ret [0; 1; 2; 1]%nat) by (vm_compute; reflexivity).
  split; [exact E|].
  exact (@OrderBlocks_entry_first dis27 sorted_iter 4%nat branch_heap
           0%nat 1%nat [0; 1; 2; 1]%nat E).
Defined.

Section fall_through.
Context (h : heap) (exit_block : block_id).


Lemma followed_with_last (order : list block_id) (b : block_id) :
  followed_with h exit_block order b → next (h b) = [] →
  followed h exit_block (order ++ [b]).
Proof.
  intros Hw Hb i y n Hy Hi Hn.
  apply lookup_app_Some in Hi as [Hi|[Hlen Hi]]; [by eapply Hw|].
  apply list_lookup_singleton_Some in Hi as [_ <-].
  by rewrite Hb in Hn.
Qed.

Lemma followed_exit (l : list block_id) :
  followed h exit_block l → followed h exit_block (l ++ [exit_block]).
Proof.
  intros Hl i y n Hy Hi Hn.
  apply lookup_app_Some in Hi as [Hi|[Hlen Hi]].
  - apply lookup_app_l_Some. by eapply Hl.
  - by apply list_lookup_singleton_Some in Hi as [_ <-].
Qed.

Lemma followed_any (l : list block_id) (b : block_id) :
  followed h exit_block l → followed_with h exit_block l b.
Proof.
  intros Hl i y n Hy Hi Hn. apply lookup_app_l_Some. by eapply Hl.
Qed.

Lemma followed_with_next (order : list block_id) (b n : block_id) :
  followed_with h exit_block order b → head (next (h b)) = Some n →
  followed_with h exit_block (order ++ [b]) n.
Proof.
  intros Hw Hb i y m Hy Hi Hm.
  apply lookup_app_Some in Hi as [Hi|[Hlen Hi]].
  - apply lookup_app_l_Some. by eapply Hw.
  - apply list_lookup_singleton_Some in Hi as [Hi <-].
    rewrite Hb in Hm. injection Hm as <-.
    rewrite lookup_app_r by (rewrite length_app; simpl; lia).
    rewrite length_app. simpl.
    by replace (S i - (length order + 1))%nat with 0%nat by lia.
Qed.

Lemma emit_loop_followed `{SetIter} (doms : gmap block_id (gset block_id))
    (fuel : nat) (b : block_id) (order : list block_id) (R : gset block_id)
    (result : list block_id) :
  emit_loop fuel h exit_block doms b order R = Ret result →
  followed_with h exit_block order b → followed h exit_block result.
Proof.
  revert b order R. induction fuel as [|fuel IH]; intros b order R Hrun Hw;
    [done|].
  cbn [emit_loop] in Hrun. destruct (next (h b)) as [|n ns] eqn:En.
  - pose proof (followed_with_last _ _ Hw En) as Hf.
    set (order2 := if bool_decide (b ≠ exit_block)
                      && negb (truthy (has_unconditional_transfer (h b)))
                   then (order ++ [b]) ++ [exit_block] else order ++ [b]) in *.
    assert (Hf2 : followed h exit_block order2).
    { subst order2. destruct (_ && _); [by apply followed_exit|done]. }
    clearbody order2.
    destruct (decide (R ∖ {[b]} = ∅)); [by injection Hrun as <-|].
    inv_bind Hrun. apply (IH _ _ _ Hrun). by apply followed_any.
  - apply (IH _ _ _ Hrun). apply followed_with_next; [done|]. by rewrite En.
Qed.

End fall_through.

(** X2: In the sequence [OrderBlocks] returns, every occurrence of a block
    other than the exit block that has a next block is immediately followed
    by that next block. *)
Theorem OrderBlocks_fall_through `{Dis, SetIter} (fuel : nat) (h : heap)
    (start_block exit_block : block_id) (order : list block_id) :
  OrderBlocks fuel h start_block exit_block = Ret order →
  ∀ i b n, b ≠ exit_block → order !! i = Some b →
           head (next (h b)) = Some n → order !! S i = Some n.
Proof.
  unfold OrderBlocks. intros Hrun. inv_bind Hrun. inv_bind Hrun.
  apply (emit_loop_followed h exit_block _ _ _ _ _ _ Hrun).
  intros i y n _ Hi. by rewrite lookup_nil in Hi.
Qed.

Lemma OrderBlocks_fall_through_witness :
  @OrderBlocks dis27 sorted_iter 4 loop_heap 0%nat 1%nat = Ret [0; 2; 0]%nat
  ∧ ∀ i b n, b ≠ 1%nat → [0; 2; 0]%nat !! i = Some b →
             head (next (loop_heap b)) = Some n →
             [0; 2; 0]%nat !! S i = Some n.
Proof.
  assert (E : @OrderBlocks dis27 sorted_iter 4 loop_heap 0%nat 1%nat
              = Ret [0; 2; 0]%nat) by (vm_compute; reflexivity).
  split; [exact E|].
  exact (@OrderBlocks_fall_through dis27 sorted_iter 4%nat loop_heap
           0%nat 1%nat [0; 2; 0]%nat E).
Defined.

(** ** [OrderBlocks]: blocks with relative jumps come first *)

Lemma get_followers_jrel `{Dis} (b : Block) (fs : gset block_id)
    (op : string) (t : block_id) :
  get_followers b = Ret fs →
  Inst2 op (ArgBlock t) ∈ insts b → op ∈ HAS_JREL → t ∈ fs.
Proof.
  unfold get_followers. generalize (list_to_set (next b) : gset block_id).
  induction (insts b) as [|i l IH]; intros s Hrun Hin Hop.
  - by apply elem_of_nil in Hin.
  - cbn [foldM] in Hrun. inv_bind Hrun.
    apply elem_of_cons in Hin as [<-|Hin]; [|by eapply IH].
    cbn [inst_opname] in Hr. rewrite bool_decide_eq_true_2 in Hr by done.
    injection Hr as <-.
    eapply (foldM_invariant (λ s : gset block_id, t ∈ s)); [| |exact Hrun].
    + intros s0 i s' _ Hs Hstep. cbv beta in Hstep.
      case_bool_decide; [|by injection Hstep as <-].
      destruct i as [op'|op' [t'|v]]; try done.
      injection Hstep as <-. set_solver.
    + set_solver.
Qed.

Lemma dominate_block_followers `{Dis, SetIter} (laws : SetIterLaws) (h : heap)
    (fuel : nat) (b : block_id) (doms doms' : gmap block_id (gset block_id))
    (op : string) (t : block_id) :
  dominate_block fuel h doms b = Ret doms' →
  Inst2 op (ArgBlock t) ∈ insts (h b) → op ∈ HAS_JREL →
  dominates doms' t b.
Proof.
  unfold dominate_block. intros Hrun Hin Hop.
  inv_bind Hrun. destruct r. inv_bind Hrun. rename r into fs.
  pose proof (get_followers_jrel _ _ _ _ Hr0 Hin Hop) as Ht.
  apply (block_set_iter_elem laws) in Ht.
  eapply (foldM_establishes (λ c d, dominates d c b)); [| |exact Hrun|exact Ht].
  - intros d x d' Hw. by apply walk_prev_spec in Hw as [? _].
  - intros d x d' y Hw Hy. apply walk_prev_spec in Hw as [_ Hkeep]. auto.
Qed.

(** After the loop over [remaining] every block of it dominates the
    targets of its relative jumps. *)
Lemma compute_dominators_followers `{Dis, SetIter} (laws : SetIterLaws)
    (h : heap) (fuel : nat) (R : gset block_id)
    (doms : gmap block_id (gset block_id)) (b : block_id) (op : string)
    (t : block_id) :
  compute_dominators fuel h R = Ret doms →
  b ∈ R → Inst2 op (ArgBlock t) ∈ insts (h b) → op ∈ HAS_JREL →
  dominates doms t b.
Proof.
  unfold compute_dominators. intros Hrun Hb Hin Hop.
  apply (block_set_iter_elem laws) in Hb.
  eapply (foldM_establishes
            (λ b d, Inst2 op (ArgBlock t) ∈ insts (h b) → dominates d t b));
    [| |exact Hrun|exact Hb|exact Hin].
  - intros d x d' Hstep Hx. by eapply (dominate_block_followers laws).
  - intros d x d' y Hstep Hy Hiny.
    apply (dominate_block_spec laws) in Hstep as (_ & _ & Hkeep). auto.
Qed.

Section emit_steps.
Context `{Dis, SetIter} (laws : SetIterLaws).
Context (h : heap) (exit_block : block_id) (R0 : gset block_id).
Context (doms : gmap block_id (gset block_id)).
Hypothesis next_prev :
  ∀ y n, y ∈ R0 → head (next (h y)) = Some n → head (prev (h n)) = Some y.
Hypothesis next_dominated :
  ∀ y n, y ∈ R0 → head (next (h y)) = Some n → dominates doms n y.

(** The step of the loop that goes on with the next block. *)
Lemma emit_inv_next (b n : block_id) (order : list block_id)
    (R : gset block_id) :
  emit_inv h exit_block R0 b order R →
  head (next (h b)) = Some n →
  emit_inv h exit_block R0 n (order ++ [b]) (R ∖ {[b]}).
Proof.
  intros (Hb & Hsub & Hnext & Hnotnext & Hord) Hbn.
  pose proof (order_inv_emit _ _ _ _ _ Hb Hsub Hord) as Hord1.
  assert (Hsub1 : R ∖ {[b]} ⊆ R0) by set_solver.
  split; [|split; [done|split; [|split; [|done]]]].
  - apply elem_of_difference. split; [by eapply Hnext|].
    intros Hnb%elem_of_singleton. subst n. by apply (Hnotnext b).
  - intros y m [Hy _]%elem_of_difference Hm.
    apply elem_of_difference. split; [by eapply Hnext|].
    intros ->%elem_of_singleton. by apply (Hnotnext y).
  - intros y Hy Hyn.
    pose proof (next_prev y n (Hsub1 y Hy) Hyn) as Hp1.
    pose proof (next_prev b n (Hsub b Hb) Hbn) as Hp2.
    rewrite Hp1 in Hp2. injection Hp2 as ->. set_solver.
Qed.

(** The step of the loop that goes on with a block found by
    [find_next]. *)
Lemma emit_inv_pick (b b' : block_id) (order order2 : list block_id)
    (R : gset block_id) :
  emit_inv h exit_block R0 b order R →
  order2 = order ++ [b] ∨ order2 = (order ++ [b]) ++ [exit_block] →
  find_next doms (R ∖ {[b]}) = Ret b' →
  emit_inv h exit_block R0 b' order2 (R ∖ {[b]}).
Proof.
  intros (Hb & Hsub & Hnext & Hnotnext & Hord) Horder Hfn.
  pose proof (order_inv_emit _ _ _ _ _ Hb Hsub Hord) as Hord1.
  assert (Hord2 : order_inv exit_block R0 order2 (R ∖ {[b]})).
  { destruct Horder as [->| ->]; [done|by apply order_inv_exit]. }
  assert (Hsub1 : R ∖ {[b]} ⊆ R0) by set_solver.
  apply (find_next_spec laws) in Hfn as [Hb' Hdom'].
  split; [done|split; [done|split; [|split; [|done]]]].
  - intros y m [Hy _]%elem_of_difference Hm.
    apply elem_of_difference. split; [by eapply Hnext|].
    intros ->%elem_of_singleton. by apply (Hnotnext y).
  - intros y Hy Hyn. apply (Hdom' y); [|done].
    apply next_dominated; [by apply Hsub1|done].
Qed.

Context (start_block : block_id).


Lemma dominators_first_emit (order : list block_id) (b : block_id) :
  dominators_first h start_block exit_block R0 doms order →
  dominators_emitted h start_block exit_block R0 doms order b →
  dominators_first h start_block exit_block R0 doms (order ++ [b]).
Proof.
  intros Hf He i x y Hi Hx Hy Hd.
  apply lookup_app_Some in Hi as [Hi|[Hlen Hi]].
  - destruct (Hf i x y Hi Hx Hy Hd) as (j & Hj & Hjy).
    exists j. split; [done|]. by apply lookup_app_l_Some.
  - apply list_lookup_singleton_Some in Hi as [Hi <-].
    specialize (He Hx y Hy Hd). apply list_elem_of_lookup in He as [j Hj].
    pose proof (lookup_lt_Some _ _ _ Hj) as Hlt.
    exists j. split; [lia|]. by apply lookup_app_l_Some.
Qed.

Lemma dominators_first_exit (order : list block_id) :
  dominators_first h start_block exit_block R0 doms order →
  dominators_first h start_block exit_block R0 doms (order ++ [exit_block]).
Proof.
  intros Hf i x y Hi Hx Hy Hd.
  apply lookup_app_Some in Hi as [Hi|[Hlen Hi]].
  - destruct (Hf i x y Hi Hx Hy Hd) as (j & Hj & Hjy).
    exists j. split; [done|]. by apply lookup_app_l_Some.
  - apply list_lookup_singleton_Some in Hi as [_ <-].
    by destruct Hx as (_ & Hx & _).
Qed.

Lemma emit_loop_dominators_first (fuel : nat) (b : block_id)
    (order : list block_id) (R : gset block_id) (result : list block_id) :
  emit_loop fuel h exit_block doms b order R = Ret result →
  emit_inv h exit_block R0 b order R →
  dominators_first h start_block exit_block R0 doms order →
  dominators_emitted h start_block exit_block R0 doms order b →
  dominators_first h start_block exit_block R0 doms result.
Proof.
  revert b order R. induction fuel as [|fuel IH];
    intros b order R Hrun Hinv Hf He; [done|].
  cbn [emit_loop] in Hrun.
  pose proof (dominators_first_emit _ _ Hf He) as Hf1.
  destruct (next (h b)) as [|n ns] eqn:En.
  - set (order2 := if bool_decide (b ≠ exit_block)
                      && negb (truthy (has_unconditional_transfer (h b)))
                   then (order ++ [b]) ++ [exit_block] else order ++ [b]) in *.
    assert (Horder : order2 = order ++ [b]
                     ∨ order2 = (order ++ [b]) ++ [exit_block]).
    { subst order2. destruct (_ && _); auto. }
    assert (Hf2 : dominators_first h start_block exit_block R0 doms order2).
    { destruct Horder as [->| ->]; [done|by apply dominators_first_exit]. }
    clearbody order2.
    destruct (decide (R ∖ {[b]} = ∅)); [by injection Hrun as <-|].
    inv_bind Hrun. rename r into b'.
    pose proof (emit_inv_pick _ _ _ _ _ Hinv Horder Hr) as Hinv'.
    apply (IH _ _ _ Hrun Hinv' Hf2).
    intros _ y Hy Hd.
    apply (find_next_spec laws) in Hr as [_ Hdom'].
    destruct Hinv' as (_ & _ & _ & _ & (_ & _ & Hall & _)).
    destruct (Hall y Hy) as [HyR|?]; [|done]. by destruct (Hdom' y Hd).
  - assert (Hbn : head (next (h b)) = Some n) by by rewrite En.
    pose proof (emit_inv_next _ _ _ _ Hinv Hbn) as Hinv'.
    apply (IH _ _ _ Hrun Hinv' Hf1).
    intros (_ & _ & Hprev) y Hy Hd.
    destruct Hinv as (Hb & Hsub & _).
    pose proof (next_prev b n (Hsub b Hb) Hbn) as Hp.
    by rewrite Hprev in Hp.
Qed.

End emit_steps.

(** X3: When the entry block has no [prev] link and a reachable block [B] has a
    relative jump to a block [T] that heads its chain of next links and is
    neither the entry nor the exit block, every occurrence of [T] in the
    sequence [OrderBlocks] returns comes after an occurrence of [B]. *)
Theorem OrderBlocks_follower_after `{Dis, SetIter} (laws : SetIterLaws)
    (fuel : nat) (h : heap) (start_block exit_block : block_id)
    (order : list block_id) (B T : block_id) (op : string) :
  prev (h start_block) = [] →
  OrderBlocks fuel h start_block exit_block = Ret order →
  reachable h start_block B →
  Inst2 op (ArgBlock T) ∈ insts (h B) → op ∈ HAS_JREL →
  T ≠ start_block → T ≠ exit_block → prev (h T) = [] →
  ∀ i, order !! i = Some T → ∃ j, (j < i)%nat ∧ order !! j = Some B.
Proof.
  intros Hentry Hrun HB Hin Hop HTs HTe HTp i Hi. unfold OrderBlocks in Hrun.
  inv_bind Hrun. rename r into R0. inv_bind Hrun. rename r into doms.
  pose proof (find_blocks_reachable laws _ _ _ _ Hr) as Hreach.
  pose proof (compute_dominators_spec laws _ _ _ _ Hr0) as Hdoms.
  assert (Hprev : ∀ y n, y ∈ R0 → head (next (h y)) = Some n →
                         head (prev (h n)) = Some y).
  { intros y n Hy Hn. destruct (Hdoms y Hy) as [Hchk _].
    by apply check_next_Ret. }
  assert (Hdom : ∀ y n, y ∈ R0 → head (next (h y)) = Some n →
                        dominates doms n y).
  { intros y n Hy Hn%head_Some_elem. destruct (Hdoms y Hy) as [_ Hd]. auto. }
  apply Hreach in HB.
  pose proof (compute_dominators_followers laws _ _ _ _ _ _ _ Hr0 HB Hin Hop)
    as HTB.
  apply (emit_loop_dominators_first laws h exit_block R0 doms Hprev Hdom
           start_block fuel start_block [] R0 order Hrun) with (x := T);
    try done.
  - repeat split; try done.
    + apply Hreach. apply rtc_refl.
    + intros y n Hy Hn%head_Some_elem. apply Hreach.
      eapply rtc_r; [by apply Hreach|]. by right.
    + intros y Hy Hys. specialize (Hprev y start_block Hy Hys).
      by rewrite Hentry in Hprev.
    + intros x Hx%elem_of_nil. done.
    + rewrite filter_nil. apply NoDup_nil_2.
    + intros x Hx. by left.
    + intros x Hx%elem_of_nil. done.
  - by intros (Hs & _).
Qed.

(** Block 3 jumps forward to block 2: block 2 has the smaller id and is
    emitted after block 3 all the same. *)
Lemma OrderBlocks_follower_after_witness :
  prev (jump_heap 0%nat) = []
  ∧ @OrderBlocks dis27 sorted_iter 4 jump_heap 0%nat 1%nat
    = Ret [0; 3; 2; 1]%nat
  ∧ reachable jump_heap 0%nat 3%nat
  ∧ Inst2 "JUMP_FORWARD" (ArgBlock 2%nat) ∈ insts (jump_heap 3%nat)
  ∧ "JUMP_FORWARD" ∈ @HAS_JREL dis27
  ∧ 2%nat ≠ 0%nat ∧ 2%nat ≠ 1%nat ∧ prev (jump_heap 2%nat) = []
  ∧ ∀ i, [0; 3; 2; 1]%nat !! i = Some 2%nat →
         ∃ j, (j < i)%nat ∧ [0; 3; 2; 1]%nat !! j = Some 3%nat.
Proof.
  assert (H1 : prev (jump_heap 0%nat) = []) by reflexivity.
  assert (H2 : @OrderBlocks dis27 sorted_iter 4 jump_heap 0%nat 1%nat
               = Ret [0; 3; 2; 1]%nat) by (vm_compute; reflexivity).
  assert (H3 : reachable jump_heap 0%nat 3%nat).
  { apply rtc_once. left. simpl. by apply elem_of_singleton. }
  assert (H4 : Inst2 "JUMP_FORWARD" (ArgBlock 2%nat) ∈ insts (jump_heap 3%nat))
    by apply list_elem_of_here.
  assert (H5 : "JUMP_FORWARD" ∈ @HAS_JREL dis27).
  { apply (bool_decide_unpack _). by vm_compute. }
  assert (H6 : 2%nat ≠ 0%nat) by lia.
  assert (H7 : 2%nat ≠ 1%nat) by lia.
  assert (H8 : prev (jump_heap 2%nat) = []) by reflexivity.
  repeat (split; [assumption|]).
  exact (@OrderBlocks_follower_after dis27 sorted_iter sorted_iter_laws
           4%nat jump_heap 0%nat 1%nat [0; 3; 2; 1]%nat 3%nat 2%nat
           "JUMP_FORWARD" H1 H2 H3 H4 H5 H6 H7 H8).
Defined.

(** ** [findDepth] and [ComputeStackDepth]: bounds *)

Lemma findDepth_loop_effects (insts : list inst) (st st' : Z * Z) :
  foldM findDepth_step st insts = Ret st' →
  ∃ deltas, Forall2 (λ i delta, inst_effect i = Ret delta) insts deltas.
Proof.
  revert st. induction insts as [|i insts IH]; intros st Hrun.
  - exists []. constructor.
  - cbn [foldM] in Hrun. inv_bind Hrun.
    unfold findDepth_step in Hr. inv_bind Hr. rename r0 into delta.
    destruct (IH _ Hrun) as [deltas Hds].
    exists (delta :: deltas). by constructor.
Qed.

Lemma sum_of_effects_loop (insts : list inst) (deltas : list Z) (s : Z) :
  Forall2 (λ i delta, inst_effect i = Ret delta) insts deltas →
  foldM (λ s i, delta ← inst_effect i; Ret (s + delta)) s insts
  = Ret (s + sum_Z deltas).
Proof.
  intros Hds. revert s. induction Hds as [|i delta insts deltas Hi _ IH];
    intros s; cbn [foldM].
  - unfold sum_Z. cbn [foldr]. f_equal. lia.
  - rewrite Hi. cbn [mbind result_bind]. rewrite IH.
    unfold sum_Z. cbn [foldr]. f_equal. lia.
Qed.

Lemma findDepth_range (insts : list inst) (d : Z) :
  findDepth insts = Ret d →
  0 ≤ d ∧ ∃ s, sum_of_effects insts = Ret s ∧ s ≤ d.
Proof.
  intros Hrun.
  assert (∃ deltas, Forall2 (λ i delta, inst_effect i = Ret delta) insts deltas)
    as [deltas Hds].
  { unfold findDepth in Hrun. inv_bind Hrun.
    by eapply findDepth_loop_effects. }
  destruct (findDepth_max_prefix _ _ Hds) as (d' & Hd' & Hmax & _).
  rewrite Hrun in Hd'. injection Hd' as <-.
  split.
  - specialize (Hmax 0%nat). by rewrite take_0 in Hmax.
  - exists (sum_Z deltas). split.
    + unfold sum_of_effects. by rewrite (sum_of_effects_loop _ _ _ Hds).
    + specialize (Hmax (length deltas)). by rewrite firstn_all in Hmax.
Qed.

Lemma block_depths_values `{SetIter} (h : heap) (blocks : gset block_id)
    (depth : gmap block_id Z) (b : block_id) (d : Z) :
  block_depths h blocks = Ret depth → depth !! b = Some d →
  findDepth (insts (h b)) = Ret d.
Proof.
  unfold block_depths. intros Hrun. revert b d.
  eapply (foldM_invariant
            (λ m : gmap block_id Z,
               ∀ b d, m !! b = Some d → findDepth (insts (h b)) = Ret d));
    [| |exact Hrun].
  - intros m x m' _ Hm Hstep b d. cbv beta in Hstep. inv_bind Hstep.
    injection Hstep as <-.
    destruct (decide (x = b)) as [->|Hne].
    + rewrite lookup_insert_eq. by intros [= <-].
    + rewrite lookup_insert_ne by done. apply Hm.
  - intros b d. by rewrite lookup_empty.
Qed.

(** [max_depth(b, d)] does not return less than [d] when no block has a
    negative depth. *)
Lemma max_depth_ge `{SetIter} (h : heap) (exit_block : block_id)
    (depth : gmap block_id Z) (fuel : nat) (b : block_id) (d : Z)
    (seen : gset block_id) (r : Z * gset block_id) :
  (∀ x v, depth !! x = Some v → 0 ≤ v) →
  max_depth fuel h exit_block depth b d seen = Ret r → d ≤ r.1.
Proof.
  intros Hpos. revert b d seen r.
  induction fuel as [|fuel IH]; intros b d seen r Hrun; [done|].
  cbn [max_depth] in Hrun.
  destruct (decide (b ∈ seen)); [injection Hrun as <-; simpl; lia|].
  destruct (depth !! b) as [db|] eqn:Hdb; [|done].
  specialize (Hpos _ _ Hdb).
  destruct (get_children (h b)) as [|c children].
  - destruct (decide (label (h b) = "exit")).
    + injection Hrun as <-. simpl. lia.
    + apply IH in Hrun. lia.
  - inv_bind Hrun. rename r0 into first.
    apply IH in Hr.
    assert (d + db ≤ r.1); [|lia].
    eapply (foldM_invariant (λ acc : Z * gset block_id, d + db ≤ acc.1));
      [| |exact Hrun]; [|done].
    intros acc x acc' _ Hacc Hstep. cbv beta in Hstep. inv_bind Hstep.
    injection Hstep as <-. simpl. lia.
Qed.

(** X5: When [ComputeStackDepth] returns, the stack size is not negative and
    not below the value of [findDepth] on the entry block. *)
Theorem ComputeStackDepth_bounds `{SetIter} (fuel : nat) (h : heap)
    (blocks : gset block_id) (entry_block exit_block : block_id) (s : Z) :
  ComputeStackDepth fuel h blocks entry_block exit_block = Ret s →
  0 ≤ s
  ∧ ∃ d, findDepth (insts (h entry_block)) = Ret d ∧ d ≤ s.
Proof.
  unfold ComputeStackDepth. intros Hrun. inv_bind Hrun. rename r into depth.
  inv_bind Hrun. injection Hrun as <-.
  assert (Hpos : ∀ x v, depth !! x = Some v → 0 ≤ v).
  { intros x v Hx. apply (block_depths_values _ _ _ _ _ Hr) in Hx.
    by apply findDepth_range in Hx as [? _]. }
  split; [by apply (max_depth_ge _ _ _ _ _ _ _ _ Hpos) in Hr0|].
  destruct fuel as [|fuel]; [done|]. cbn [max_depth] in Hr0.
  destruct (decide (entry_block ∈ (∅ : gset block_id))) as [Hin|_];
    [by apply elem_of_empty in Hin|].
  destruct (depth !! entry_block) as [db|] eqn:Hdb; [|done].
  exists db. split; [by eapply block_depths_values|].
  destruct (get_children (h entry_block)) as [|c children].
  - destruct (decide (label (h entry_block) = "exit")).
    + injection Hr0 as <-. simpl. lia.
    + apply (max_depth_ge _ _ _ _ _ _ _ _ Hpos) in Hr0. lia.
  - inv_bind Hr0.
    apply (max_depth_ge _ _ _ _ _ _ _ _ Hpos) in Hr1.
    assert (0 + db ≤ r.1); [|lia].
    eapply (foldM_invariant (λ acc : Z * gset block_id, 0 + db ≤ acc.1));
      [| |exact Hr0]; [|done].
    intros acc x acc' _ Hacc Hstep. cbv beta in Hstep. inv_bind Hstep.
    injection Hstep as <-. simpl. lia.
Qed.

Lemma ComputeStackDepth_bounds_witness :
  @ComputeStackDepth sorted_iter 2 load_pop_heap {[0%nat]} 0%nat 0%nat = Ret 1
  ∧ 0 ≤ 1
  ∧ ∃ d, findDepth (insts (load_pop_heap 0%nat)) = Ret d ∧ d ≤ 1.
Proof.
  assert (E : @ComputeStackDepth sorted_iter 2 load_pop_heap {[0%nat]}
                0%nat 0%nat = Ret 1) by (vm_compute; reflexivity).
  split; [exact E|].
  exact (@ComputeStackDepth_bounds sorted_iter 2%nat load_pop_heap
           {[0%nat]} 0%nat 0%nat 1 E).
Defined.

(** ** [FlattenGraph]: when it returns *)

Lemma layout_begin_dom (h : heap) (blocks : list block_id) (B : block_id)
    (pc : Z) :
  l_begin (layout_pass h blocks) !! B = Some pc → B ∈ blocks.
Proof.
  induction blocks as [|b blocks IH] using rev_ind.
  - unfold layout_pass. cbn. by rewrite lookup_empty.
  - rewrite layout_pass_snoc, layout_block_spec. cbn [l_begin].
    rewrite elem_of_app, list_elem_of_singleton.
    destruct (decide (b = B)) as [->|Hne]; [by right|].
    rewrite lookup_insert_ne by done. auto.
Qed.

Lemma lookup_begin_Ret (begin : gmap block_id Z) (arg : oparg) (pc : Z) :
  lookup_begin begin arg = Ret pc → ∃ B, arg = ArgBlock B ∧ begin !! B = Some pc.
Proof.
  destruct arg as [B|v]; [|done]. cbn [lookup_begin].
  destruct (begin !! B) as [z|] eqn:E; [|done]. intros [= ->]. by exists B.
Qed.

Lemma fixup_inst_Ret_resolvable `{Dis} (begin : gmap block_id Z)
    (blocks : list block_id) (pc : Z) (t t' : inst) :
  (∀ B z, begin !! B = Some z → B ∈ blocks) →
  fixup_inst begin pc t = Ret t' → resolvable blocks t.
Proof.
  intros Hdom Hrun Hop. unfold fixup_inst in Hrun.
  case_bool_decide as Hrel.
  - destruct t as [op|op arg]; [done|]. inv_bind Hrun.
    apply lookup_begin_Ret in Hr as (B & -> & HB). by eapply Hdom.
  - case_bool_decide as Habs.
    + destruct t as [op|op arg]; [done|]. inv_bind Hrun.
      apply lookup_begin_Ret in Hr as (B & -> & HB). by eapply Hdom.
    + by apply elem_of_union in Hop as [?|?].
Qed.

Lemma fixup_inst_resolvable_Ret `{Dis} (begin : gmap block_id Z)
    (blocks : list block_id) (pc : Z) (t : inst) :
  (∀ B, B ∈ blocks → is_Some (begin !! B)) →
  resolvable blocks t → ∃ t', fixup_inst begin pc t = Ret t'.
Proof.
  intros Hdom Hres.
  destruct (decide (inst_opname t ∈ HAS_JREL ∪ HAS_JABS)) as [Hj|Hj].
  - specialize (Hres Hj). destruct t as [op|op [B|v]]; try done.
    destruct (Hdom B Hres) as [z Hz]. cbn [inst_opname] in Hj.
    destruct (decide (op ∈ HAS_JREL)) as [Hrel|Hrel].
    + eexists. by apply fixup_inst_jrel.
    + eexists. apply fixup_inst_jabs; [done| |done].
      by apply elem_of_union in Hj as [Hj|Hj].
  - exists t. by apply fixup_inst_other.
Qed.

Lemma fixup_pass_in_time `{Dis} (begin : gmap block_id Z) (pc : Z)
    (insts : list inst) :
  fixup_pass begin pc insts ≠ OutOfFuel.
Proof.
  revert pc. induction insts as [|t l IH]; intros pc; [done|].
  cbn [fixup_pass].
  assert (fixup_inst begin (pc + inst_size t) t ≠ OutOfFuel) as Ht.
  { unfold fixup_inst. repeat case_bool_decide; try done;
      destruct t as [op|op [B|v]]; cbn; try done;
      by destruct (begin !! B). }
  destruct (fixup_inst begin (pc + inst_size t) t); cbn; [|done|done].
  specialize (IH (pc + inst_size t)).
  by destruct (fixup_pass begin (pc + inst_size t) l).
Qed.

Lemma FlattenGraph_Ret_iff `{Dis} (h : heap) (blocks : list block_id) :
  (∃ out, FlattenGraph h blocks = Ret out)
  ↔ Forall (resolvable blocks) (flat_insts h blocks).
Proof.
  destruct (layout_pass_spec h blocks) as (Hflat & _ & Hbegin).
  unfold FlattenGraph. rewrite Hflat. split.
  - intros [out Hout]. apply Forall_forall. intros t Ht.
    apply list_elem_of_lookup in Ht as [i Hi].
    destruct (fixup_pass_spec _ _ _ _ Hout) as [_ Hall].
    destruct (Hall i t Hi) as (t' & _ & Hfix).
    eapply fixup_inst_Ret_resolvable; [|exact Hfix].
    intros B z. apply layout_begin_dom.
  - intros Hres. rewrite Forall_forall in Hres. apply fixup_pass_total.
    intros t pc' Ht. eapply fixup_inst_resolvable_Ret; [|by apply Hres].
    intros B HB. destruct (last_occurrence B blocks HB) as (k & Hk & Hlast).
    rewrite (Hbegin B k Hk Hlast). by eexists.
Qed.

(** X6: [FlattenGraph] returns exactly when every jump instruction of the
    listed blocks has two fields and a block of the list as its operand;
    otherwise it raises. *)
Theorem FlattenGraph_returns_iff `{Dis} (h : heap) (blocks : list block_id) :
  ((∃ out, FlattenGraph h blocks = Ret out)
   ↔ Forall (resolvable blocks) (flat_insts h blocks))
  ∧ ((∃ e, FlattenGraph h blocks = Raise e)
     ↔ ¬ Forall (resolvable blocks) (flat_insts h blocks)).
Proof.
  split; [apply FlattenGraph_Ret_iff|]. rewrite <- FlattenGraph_Ret_iff.
  split.
  - intros [e He] [out Hout]. congruence.
  - intros Hno. destruct (FlattenGraph h blocks) as [out|e|] eqn:E.
    + destruct Hno. by exists out.
    + by exists e.
    + by apply fixup_pass_in_time in E.
Qed.

(** ** [Assembler.addCode] and [Assemble]: the bytes of the code *)

Lemma first_out_of_range (args : list Z) :
  ¬ Forall (λ b, 0 ≤ b < 256) args →
  ∃ pre b post, args = pre ++ b :: post
                ∧ Forall (λ b, 0 ≤ b < 256) pre ∧ ¬ 0 ≤ b < 256.
Proof.
  induction args as [|x args IH]; intros Hno; [by destruct Hno|].
  destruct (decide (0 ≤ x < 256)) as [Hx|Hx].
  - destruct IH as (pre & b & post & -> & Hpre & Hb).
    { intros Hall. apply Hno. by constructor. }
    exists (x :: pre), b, post. split; [done|]. split; [by constructor|done].
  - by exists [], x, args.
Qed.

Lemma addCode_Raise (ass : Assembler) (pre post : list Z) (b : Z) :
  Forall (λ b, 0 ≤ b < 256) pre → ¬ 0 ≤ b < 256 →
  addCode ass (pre ++ b :: post) = Raise (chr_error b).
Proof.
  intros Hpre Hb. unfold addCode.
  assert (E : ∀ c0, foldM (λ code arg, c ← chr arg; Ret (code ++ [c])) c0
                      (pre ++ b :: post)
                    = Raise (chr_error b)).
  { induction Hpre as [|x pre Hx _ IH]; intros c0; cbn [app foldM].
    - by rewrite (chr_Raise b Hb).
    - rewrite (chr_Ret x Hx). cbn [mbind result_bind]. apply IH. }
  by rewrite E.
Qed.

(** X7: [addCode] returns exactly when every argument is in [range(256)];
    it then appends one character per argument and adds their number to
    [codeOffset].  Otherwise it raises, at the first argument outside
    [range(256)], the exception of [chr]: [ValueError], or [OverflowError]
    when that argument does not fit a C [long]. *)
Theorem addCode_range (ass : Assembler) (args : list Z) :
  (addCode ass args = Ret (emitted ass args)
   ↔ Forall (λ b, 0 ≤ b < 256) args)
  ∧ ((∃ e, addCode ass args = Raise e)
     ↔ ¬ Forall (λ b, 0 ≤ b < 256) args)
  ∧ (∀ pre b post,
       args = pre ++ b :: post → Forall (λ b, 0 ≤ b < 256) pre →
       ¬ 0 ≤ b < 256 →
       addCode ass args
       = Raise (if decide (- maxint - 1 ≤ b ≤ maxint) then ValueError
                else OverflowError))
  ∧ ∀ ass', addCode ass args = Ret ass' → ass' = emitted ass args.
Proof.
  assert (Hraise : ∀ pre b post,
            args = pre ++ b :: post → Forall (λ b, 0 ≤ b < 256) pre →
            ¬ 0 ≤ b < 256 → addCode ass args = Raise (chr_error b)).
  { intros pre b post -> Hpre Hb. by apply addCode_Raise. }
  destruct (decide (Forall (λ b, 0 ≤ b < 256) args)) as [Hargs|Hargs].
  - rewrite (addCode_Ret ass args Hargs).
    split; [done|]. split; [|split].
    + split; [by intros [e ?]|done].
    + intros pre b post -> Hpre Hb. exfalso.
      apply Forall_app in Hargs as [_ Hc]. by apply Forall_cons in Hc as [? _].
    + by intros ass' [= <-].
  - destruct (first_out_of_range args Hargs)
      as (pre & b & post & Heq & Hpre & Hb).
    rewrite (Hraise pre b post Heq Hpre Hb).
    split; [done|]. split; [|split].
    + split; [done|]. intros _. by eexists.
    + intros pre' b' post' Heq' Hpre' Hb'.
      pose proof (Hraise pre' b' post' Heq' Hpre' Hb') as H1.
      by rewrite (Hraise pre b post Heq Hpre Hb) in H1.
    + done.
Qed.

Lemma addCode_range_witness :
  addCode new_Assembler [100; 256] = Raise ValueError
  ∧ addCode new_Assembler [100; 2 ^ 63] = Raise OverflowError
  ∧ addCode new_Assembler [100; 255]
    = Ret (emitted new_Assembler [100; 255]).
Proof.
  assert (Hpre : Forall (λ b, 0 ≤ b < 256) [100]) by (repeat constructor; lia).
  assert (H256 : ¬ 0 ≤ 256 < 256) by lia.
  assert (Hbig : ¬ 0 ≤ 2 ^ 63 < 256) by lia.
  assert (Hin : Forall (λ b, 0 ≤ b < 256) [100; 255])
    by (repeat constructor; lia).
  destruct (addCode_range new_Assembler [100; 256]) as (_ & _ & H1 & _).
  destruct (addCode_range new_Assembler [100; 2 ^ 63]) as (_ & _ & H2 & _).
  destruct (addCode_range new_Assembler [100; 255]) as (H3 & _).
  split; [exact (H1 [100] 256 [] eq_refl Hpre H256)|].
  split; [exact (H2 [100] (2 ^ 63) [] eq_refl Hpre Hbig)|].
  exact (proj2 H3 Hin).
Defined.

Lemma addCode_inv (ass ass' : Assembler) (args : list Z) :
  addCode ass args = Ret ass' → ass' = emitted ass args.
Proof.
  destruct (decide (Forall (λ b, 0 ≤ b < 256) args)) as [Hargs|Hargs].
  - rewrite (addCode_Ret ass args Hargs). by intros [= <-].
  - destruct (first_out_of_range args Hargs)
      as (pre & b & post & -> & Hpre & Hb).
    by rewrite (addCode_Raise ass pre post b Hpre Hb).
Qed.

Lemma nextLine_code (ass : Assembler) (lineno : Z) :
  code (nextLine ass lineno) = code ass
  ∧ codeOffset (nextLine ass lineno) = codeOffset ass.
Proof. unfold nextLine. by repeat case_decide. Qed.

Lemma Assemble_inst_size `{Dis} (ass ass' : Assembler) (t : inst) :
  Assemble_inst ass t = Ret ass' →
  codeOffset ass' = codeOffset ass + inst_size t
  ∧ Z.of_nat (length (code ass'))
    = Z.of_nat (length (code ass)) + inst_size t.
Proof.
  unfold Assemble_inst. destruct t as [op|op arg]; cbn [inst_size].
  - destruct (OPNUM !! op) as [n|]; [|done].
    intros ->%addCode_inv. unfold emitted. cbn.
    rewrite length_app. cbn. lia.
  - destruct (decide (op = "SET_LINENO")).
    + destruct (arg_num arg) as [lineno|]; [|done]. intros [= <-].
      destruct (nextLine_code ass lineno) as [-> ->]. lia.
    + destruct (arg_num arg) as [z|]; [|done].
      destruct (OPNUM !! op) as [o|]; [|done].
      intros ->%addCode_inv. unfold emitted. cbn.
      rewrite length_app. cbn. lia.
Qed.

Lemma Assemble_offsets `{Dis} (insts : list inst) (ass : Assembler) :
  Assemble insts = Ret ass →
  codeOffset ass = code_size insts
  ∧ Z.of_nat (length (Bytecode ass)) = code_size insts.
Proof.
  unfold Assemble, Bytecode.
  assert (Hgen : ∀ a, foldM Assemble_inst a insts = Ret ass →
            codeOffset ass = codeOffset a + code_size insts
            ∧ Z.of_nat (length (code ass))
              = Z.of_nat (length (code a)) + code_size insts).
  { induction insts as [|t insts IH]; intros a Hrun.
    - injection Hrun as <-. rewrite code_size_nil. lia.
    - cbn [foldM] in Hrun. inv_bind Hrun.
      apply Assemble_inst_size in Hr as [Ho Hl].
      destruct (IH _ Hrun) as [Ho' Hl']. rewrite code_size_cons. lia. }
  intros Hrun. destruct (Hgen _ Hrun) as [Ho Hl]. cbn in Ho, Hl. lia.
Qed.

Lemma Assemble_inst_returns `{Dis} (laws : DisLaws) (ass : Assembler)
    (t : inst) :
  (∀ arg, t = Inst2 "SET_LINENO" arg → is_Some (arg_num arg)) →
  (∃ ass', Assemble_inst ass t = Ret ass') ↔ packable t.
Proof.
  intros Hline. destruct t as [opname|opname oparg]; cbn [Assemble_inst packable].
  - destruct (OPNUM !! opname) as [n|] eqn:Hnum.
    + split; [by eauto|]. intros _. exists (emitted ass [n]).
      pose proof (OPNUM_range _ _ Hnum) as Hr. rewrite opname_length in Hr.
      apply addCode_Ret. repeat constructor; lia.
    + split; [by intros [? [=]]|]. by intros [? [=]].
  - destruct (decide (opname = "SET_LINENO")) as [->|Hne].
    + split; [by left|]. intros _.
      destruct (Hline oparg eq_refl) as [lineno ->]. by eexists.
    + destruct (arg_num oparg) as [n|] eqn:Harg.
      2:{ split; [by intros [? [=]]|].
          intros [?|[_ (n & [=] & _)]]; done. }
      destruct (OPNUM !! opname) as [op|] eqn:Hnum.
      2:{ split; [by intros [? [=]]|].
          intros [?|[[? [=]] _]]; done. }
      pose proof (OPNUM_range _ _ Hnum) as Hr. rewrite opname_length in Hr.
      destruct (decide (0 ≤ n ≤ 65535)) as [Hn|Hn].
      * split.
        { intros _. right. split; [by eauto|]. by exists n. }
        intros _. exists (emitted ass [op; n mod 256; n / 256]).
        pose proof (Z.mod_pos_bound n 256 eq_refl) as Hlo.
        assert (Hhi : 0 ≤ n / 256 < 256).
        { split; [apply Z.div_pos; lia|apply Z.div_lt_upper_bound; lia]. }
        apply addCode_Ret. repeat constructor; lia.
      * split.
        { intros [ass' Hrun]. exfalso.
          assert (Hhi : ¬ 0 ≤ n / 256 < 256).
          { intros [Hlo Hup]. apply Hn. split.
            - destruct (decide (0 ≤ n)) as [|Hneg]; [done|].
              assert (n / 256 < 0); [|lia].
              apply Z.div_lt_upper_bound; lia.
            - assert (n < 256 * 256); [|lia].
              destruct (decide (n < 256 * 256)) as [|Hbig]; [done|].
              assert (256 ≤ n / 256); [|lia].
              apply Z.div_le_lower_bound; lia. }
          assert (Hpre : Forall (λ b, 0 ≤ b < 256) [op; n mod 256]).
          { pose proof (Z.mod_pos_bound n 256 eq_refl) as Hlo.
            repeat constructor; lia. }
          pose proof (addCode_Raise ass [op; n mod 256] [] (n / 256) Hpre Hhi)
            as Hraise.
          cbn [app] in Hraise. by rewrite Hraise in Hrun. }
        intros [?|[_ (n' & [= <-] & Hn')]]; done.
Qed.

Lemma Assemble_returns `{Dis} (laws : DisLaws) (insts : list inst) :
  numbered_lines insts →
  (∃ ass, Assemble insts = Ret ass) ↔ Forall packable insts.
Proof.
  unfold Assemble, numbered_lines. generalize new_Assembler.
  induction insts as [|t insts IH]; intros a Hline.
  - split; [by constructor|]. intros _. by exists a.
  - assert (Ht : ∀ arg, t = Inst2 "SET_LINENO" arg → is_Some (arg_num arg)).
    { intros arg ->. apply Hline, list_elem_of_here. }
    assert (Hrest : ∀ arg, Inst2 "SET_LINENO" arg ∈ insts →
                           is_Some (arg_num arg)).
    { intros arg Hin. by apply Hline, list_elem_of_further. }
    cbn [foldM]. split.
    + intros [ass Hrun]. inv_bind Hrun. constructor.
      * apply (Assemble_inst_returns laws a t Ht). by eauto.
      * apply (IH r Hrest). by eauto.
    + intros [Hp Hps]%Forall_cons.
      apply (Assemble_inst_returns laws a t Ht) in Hp as [a1 Hstep].
      apply (IH a1 Hrest) in Hps as [ass Hrun].
      exists ass. by rewrite Hstep.
Qed.

(** X8: For an instruction list whose [SET_LINENO] operands are numbers,
    [Assemble] returns exactly when every instruction has its name in
    [OPNUM] and, unless it is a [SET_LINENO], a numeric operand in
    [[0, 65535]]; and when it returns, [codeOffset] and the length of the
    code are the number of bytes [FlattenGraph] counts for the list, which
    is 1 for each 1-field instruction, none for [SET_LINENO] and 3 for each
    other 2-field instruction. *)
Theorem Assemble_code_size `{Dis} (laws : DisLaws) (insts : list inst) :
  numbered_lines insts →
  ((∃ ass, Assemble insts = Ret ass) ↔ Forall packable insts)
  ∧ (∀ ass, Assemble insts = Ret ass →
       codeOffset ass = code_size insts
       ∧ Z.of_nat (length (Bytecode ass)) = code_size insts)
  ∧ code_size insts = bytes_of insts.
Proof.
  intros Hline. split; [by apply Assemble_returns|].
  split; [apply Assemble_offsets|apply code_size_bytes_of].
Qed.

Lemma Assemble_code_size_witness :
  numbered_lines [Inst2 "SET_LINENO" (ArgVal (PyInt 1));
                  Inst2 "LOAD_CONST" (ArgVal (PyInt 0));
                  Inst1 "RETURN_VALUE"]
  ∧ @Assemble dis27 [Inst2 "SET_LINENO" (ArgVal (PyInt 1));
                     Inst2 "LOAD_CONST" (ArgVal (PyInt 0));
                     Inst1 "RETURN_VALUE"]
    = Ret (emitted (nextLine new_Assembler 1) [100; 0; 0; 83])
  ∧ codeOffset (emitted (nextLine new_Assembler 1) [100; 0; 0; 83]) = 4
  ∧ Z.of_nat (length (Bytecode (emitted (nextLine new_Assembler 1)
                                        [100; 0; 0; 83]))) = 4
  ∧ Forall (@packable dis27) [Inst2 "SET_LINENO" (ArgVal (PyInt 1));
                              Inst2 "LOAD_CONST" (ArgVal (PyInt 0));
                              Inst1 "RETURN_VALUE"].
Proof.
  assert (H1 : numbered_lines [Inst2 "SET_LINENO" (ArgVal (PyInt 1));
                               Inst2 "LOAD_CONST" (ArgVal (PyInt 0));
                               Inst1 "RETURN_VALUE"]).
  { intros arg Hin.
    apply elem_of_cons in Hin as [Hin|Hin];
      [injection Hin as ->; by eexists|].
    apply elem_of_cons in Hin as [Hin|Hin]; [discriminate Hin|].
    apply elem_of_cons in Hin as [Hin|Hin]; [discriminate Hin|].
    by apply elem_of_nil in Hin. }
  assert (E : @Assemble dis27 [Inst2 "SET_LINENO" (ArgVal (PyInt 1));
                               Inst2 "LOAD_CONST" (ArgVal (PyInt 0));
                               Inst1 "RETURN_VALUE"]
              = Ret (emitted (nextLine new_Assembler 1) [100; 0; 0; 83]))
    by (vm_compute; reflexivity).
  destruct (@Assemble_code_size dis27 dis27_laws _ H1) as (Hiff & Hsize & Hb).
  destruct (Hsize _ E) as [Ho Hl].
  split; [exact H1|]. split; [exact E|].
  split; [rewrite Ho, Hb; reflexivity|].
  split; [rewrite Hl, Hb; reflexivity|].
  apply Hiff. by eexists.
Defined.

(** ** [Assembler.nextLine]: the table decodes to the last line *)

Lemma sum_Z_app (l1 l2 : list Z) : sum_Z (l1 ++ l2) = sum_Z l1 + sum_Z l2.
Proof.
  unfold sum_Z. induction l1 as [|x l1 IH]; cbn [foldr app]; lia.
Qed.

Lemma sum_Z_replicate (k : nat) (x : Z) :
  sum_Z (replicate k x) = Z.of_nat k * x.
Proof.
  unfold sum_Z. induction k as [|k IH]; cbn [foldr replicate]; lia.
Qed.

Lemma pair_bytes_app (l1 l2 : list (Z * Z)) :
  pair_bytes (l1 ++ l2) = pair_bytes l1 ++ pair_bytes l2.
Proof. unfold pair_bytes. by rewrite fmap_app, concat_app. Qed.

Lemma pair_bytes_replicate (k : nat) (a b : Z) :
  pair_bytes (replicate k (a, b)) = concat (replicate k [a; b]).
Proof. unfold pair_bytes. by rewrite fmap_replicate. Qed.

(** What one call appends when [firstline] is set and the line does not
    go back: pairs of bytes whose first components sum to the address
    delta and whose second components sum to the line delta. *)
Lemma nextLine_appends (ass : Assembler) (lineno : Z) :
  firstline ass ≠ 0 → lineno - lastline ass >= 0 →
  0 ≤ codeOffset ass - lastoff ass →
  ∃ new : list (Z * Z),
    lnotab (nextLine ass lineno) = lnotab ass ++ pair_bytes new
    ∧ Forall byte_pair new
    ∧ sum_Z (fst <$> new) = codeOffset ass - lastoff ass
    ∧ sum_Z (snd <$> new) = lineno - lastline ass.
Proof.
  intros Hfirst Hline Haddr.
  set (addr := codeOffset ass - lastoff ass) in *.
  set (line := lineno - lastline ass) in *.
  destruct (addr_loop_spec (Z.to_nat addr) addr (lnotab ass) ltac:(lia))
    as (k & Ek & Hk1 & Hk2).
  destruct (line_loop_spec (Z.to_nat line) (addr - 255 * Z.of_nat k) line
              (lnotab ass ++ concat (replicate k [255; 0])) ltac:(lia))
    as (m & Em & Hm1 & Hm2).
  assert (Hk0 : 0 ≤ addr - 255 * Z.of_nat k).
  { destruct k as [|k]; [lia|]. specialize (Hk2 ltac:(done)). lia. }
  assert (Hm0 : 0 ≤ line - 255 * Z.of_nat m).
  { destruct m as [|m]; [lia|]. specialize (Hm2 ltac:(done)). lia. }
  set (a1 := addr - 255 * Z.of_nat k) in *.
  set (l1 := line - 255 * Z.of_nat m) in *.
  set (a2 := match m with O => a1 | S _ => 0 end).
  exists (replicate k (255, 0)
          ++ match m with
             | O => []
             | S m' => (a1, 255) :: replicate m' (0, 255)
             end
          ++ (if decide (a2 > 0 ∨ l1 > 0) then [(a2, l1)] else [])).
  split; [|split; [|split]].
  - unfold nextLine.
    destruct (decide (firstline ass = 0)); [done|].
    destruct (decide (lineno - lastline ass >= 0)); [|done].
    fold addr line. rewrite Ek. cbn [fst snd]. rewrite Em. cbn [fst snd lnotab].
    fold a2. rewrite !pair_bytes_app, pair_bytes_replicate.
    destruct (decide (a2 > 0 ∨ l1 > 0)); destruct m as [|m'];
      cbn [pair_bytes fmap list_fmap concat app fst snd];
      rewrite ?pair_bytes_replicate, <- ?app_assoc, ?app_nil_r;
      try done.
    + unfold pair_bytes. rewrite fmap_replicate. cbn [fst snd].
      by rewrite <- ?app_assoc.
    + unfold pair_bytes. rewrite fmap_replicate. cbn [fst snd].
      by rewrite <- ?app_assoc, ?app_nil_r.
  - apply Forall_app. split; [apply Forall_replicate; split; simpl; lia|].
    apply Forall_app. split.
    + destruct m as [|m']; [constructor|].
      constructor; [split; simpl; lia|].
      apply Forall_replicate; split; simpl; lia.
    + case_decide; [|constructor]. constructor; [|constructor].
      subst a2. split; simpl; destruct m; lia.
  - rewrite !fmap_app, !sum_Z_app, fmap_replicate, sum_Z_replicate.
    cbn [fst]. subst a2.
    destruct m as [|m'].
    + case_decide; unfold sum_Z; cbn [fmap list_fmap foldr fst]; lia.
    + rewrite fmap_cons, fmap_replicate. cbn [fst].
      change (sum_Z (a1 :: replicate m' 0)) with (a1 + sum_Z (replicate m' 0)).
      rewrite sum_Z_replicate.
      case_decide; unfold sum_Z; cbn [fmap list_fmap foldr fst]; lia.
  - rewrite !fmap_app, !sum_Z_app, fmap_replicate, sum_Z_replicate.
    cbn [snd]. subst a2.
    destruct m as [|m'].
    + case_decide; unfold sum_Z; cbn [fmap list_fmap foldr snd]; lia.
    + rewrite fmap_cons, fmap_replicate. cbn [snd].
      change (sum_Z (255 :: replicate m' 255))
        with (255 + sum_Z (replicate m' 255)).
      rewrite sum_Z_replicate.
      case_decide; unfold sum_Z; cbn [fmap list_fmap foldr snd]; lia.
Qed.

Lemma chr_fold_Ret (bytes : list Z) (s0 : list Ascii.ascii) :
  Forall (λ b, 0 ≤ b < 256) bytes →
  foldM (λ s c, ch ← chr c; Ret (s ++ [ch])) s0 bytes
  = Ret (s0 ++ ((λ b, Ascii.ascii_of_N (Z.to_N b)) <$> bytes)).
Proof.
  intros Hb. revert s0. induction Hb as [|b bytes Hb _ IH]; intros s0.
  - cbn. by rewrite app_nil_r.
  - cbn [foldM]. rewrite (chr_Ret b Hb). cbn [mbind result_bind].
    rewrite IH. by rewrite <- app_assoc.
Qed.

Lemma pair_bytes_range (pairs : list (Z * Z)) :
  Forall byte_pair pairs → Forall (λ b, 0 ≤ b < 256) (pair_bytes pairs).
Proof.
  induction 1 as [|[a b] pairs [Ha Hb] _ IH]; [constructor|].
  cbn in Ha, Hb. unfold pair_bytes. cbn.
  constructor; [lia|]. constructor; [lia|]. exact IH.
Qed.

(** X9: In every state an assembler can reach, the line-number table is a
    sequence of pairs of bytes whose address bytes sum to [lastoff] and
    whose line bytes sum to [lastline - firstline]; [LineNumberTable] turns
    it into characters without raising. *)
Theorem lnotab_decodes (ass : Assembler) :
  asm_reachable ass →
  ∃ pairs : list (Z * Z),
    lnotab ass = pair_bytes pairs
    ∧ Forall byte_pair pairs
    ∧ sum_Z (fst <$> pairs) = lastoff ass
    ∧ sum_Z (snd <$> pairs) = lastline ass - firstline ass
    ∧ LineNumberTable ass
      = Ret ((λ b, Ascii.ascii_of_N (Z.to_N b)) <$> lnotab ass).
Proof.
  intros Hreach.
  assert (Hinv : ∃ pairs : list (Z * Z),
             lnotab ass = pair_bytes pairs
             ∧ Forall byte_pair pairs
             ∧ sum_Z (fst <$> pairs) = lastoff ass
             ∧ sum_Z (snd <$> pairs) = lastline ass - firstline ass
             ∧ (firstline ass = 0 → lastline ass = 0)).
  { induction Hreach as [|ass args ass' Hreach IH Hadd|ass lineno Hreach IH].
    - exists []. by repeat split.
    - apply addCode_inv in Hadd as ->. exact IH.
    - destruct IH as (pairs & Htab & Hrange & Hfst & Hsnd & Hzero).
      destruct (decide (firstline ass = 0)) as [Hfirst|Hfirst].
      + rewrite (nextLine_first ass lineno Hfirst). cbn.
        exists pairs. repeat split; try done. rewrite Hsnd. lia.
      + destruct (decide (lineno - lastline ass >= 0)) as [Hline|Hline].
        * pose proof (asm_reachable_offsets ass Hreach) as Hoff.
          destruct (nextLine_appends ass lineno Hfirst Hline ltac:(lia))
            as (new & Hnew & Hnr & Hnf & Hns).
          exists (pairs ++ new).
          assert (Hfields : lastline (nextLine ass lineno) = lineno
                            ∧ lastoff (nextLine ass lineno) = codeOffset ass
                            ∧ firstline (nextLine ass lineno) = firstline ass).
          { unfold nextLine. by repeat case_decide. }
          destruct Hfields as (-> & -> & ->).
          rewrite Hnew, Htab, pair_bytes_app, !fmap_app, !sum_Z_app.
          repeat split; try done; try lia.
          by apply Forall_app.
        * assert (nextLine ass lineno = ass) as ->.
          { unfold nextLine. by repeat case_decide. }
          by exists pairs. }
  destruct Hinv as (pairs & Htab & Hrange & Hfst & Hsnd & _).
  exists pairs. repeat split; try done.
  unfold LineNumberTable. rewrite chr_fold_Ret; [done|].
  rewrite Htab. by apply pair_bytes_range.
Qed.

Lemma lnotab_decodes_witness :
  asm_reachable (nextLine (emitted (nextLine new_Assembler 1)
                             (replicate 300 9)) 2)
  ∧ ∃ pairs : list (Z * Z),
      lnotab (nextLine (emitted (nextLine new_Assembler 1)
                          (replicate 300 9)) 2) = pair_bytes pairs
      ∧ Forall byte_pair pairs
      ∧ sum_Z (fst <$> pairs)
        = lastoff (nextLine (emitted (nextLine new_Assembler 1)
                               (replicate 300 9)) 2)
      ∧ sum_Z (snd <$> pairs)
        = lastline (nextLine (emitted (nextLine new_Assembler 1)
                                (replicate 300 9)) 2)
          - firstline (nextLine (emitted (nextLine new_Assembler 1)
                                   (replicate 300 9)) 2)
      ∧ LineNumberTable (nextLine (emitted (nextLine new_Assembler 1)
                                     (replicate 300 9)) 2)
        = Ret ((λ b, Ascii.ascii_of_N (Z.to_N b))
               <$> lnotab (nextLine (emitted (nextLine new_Assembler 1)
                                       (replicate 300 9)) 2)).
Proof.
  assert (Hreach : asm_reachable
                     (nextLine (emitted (nextLine new_Assembler 1)
                                  (replicate 300 9)) 2)).
  { apply reach_nextLine.
    apply (reach_addCode (nextLine new_Assembler 1) (replicate 300 9)).
    - apply reach_nextLine, reach_new.
    - apply addCode_Ret. apply Forall_replicate. lia. }
  split; [exact Hreach|].
  exact (lnotab_decodes _ Hreach).
Defined.

(** ** [_NameToIndex]: first match, stable indices, no duplicates *)





(** ** [ArgEncoder]: the tables only grow *)

Lemma enc_extends_refl (enc : ArgEncoder) : enc_extends enc enc.
Proof. split; [done|]. by intros t. Qed.

Lemma enc_extends_trans (e1 e2 e3 : ArgEncoder) :
  enc_extends e1 e2 → enc_extends e2 e3 → enc_extends e1 e3.
Proof.
  intros [Hk1 Ht1] [Hk2 Ht2]. split; [congruence|].
  intros t. etrans; [apply Ht1 | apply Ht2].
Qed.

Lemma NameToIndex_prefix_of (name : pyval) (L : list pyval) :
  L `prefix_of` (_NameToIndex name L).2.
Proof. destruct (NameToIndex_prefix name L) as [L' ->]. by exists L'. Qed.

Lemma intern_consts_extends (enc : ArgEncoder) (v : pyval) :
  enc_extends enc (intern_consts enc v).2.
Proof.
  split; [done|]. intros []; cbn; try done. apply NameToIndex_prefix_of.
Qed.

Lemma intern_names_extends (enc : ArgEncoder) (v : pyval) :
  enc_extends enc (intern_names enc v).2.
Proof.
  split; [done|]. intros []; cbn; try done. apply NameToIndex_prefix_of.
Qed.

Lemma intern_varnames_extends (enc : ArgEncoder) (v : pyval) :
  enc_extends enc (intern_varnames enc v).2.
Proof.
  split; [done|]. intros []; cbn; try done. apply NameToIndex_prefix_of.
Qed.

Lemma intern_closure_extends (enc : ArgEncoder) (v : pyval) :
  enc_extends enc (intern_closure enc v).2.
Proof.
  split; [done|]. intros []; cbn; try done. apply NameToIndex_prefix_of.
Qed.

Lemma cmp_index_spec (arg : pyval) (l : list string) (i0 i : nat) :
  cmp_index arg l i0 = Ret i →
  ∃ k s, i = (i0 + k)%nat ∧ l !! k = Some s ∧ py_eq (PyStr s) arg = true
         ∧ ∀ k' s', (k' < k)%nat → l !! k' = Some s' →
                    py_eq (PyStr s') arg = false.
Proof.
  revert i0. induction l as [|s l IH]; intros i0 Hrun; [done|].
  cbn [cmp_index] in Hrun. destruct (py_eq (PyStr s) arg) eqn:E.
  - injection Hrun as <-. exists 0%nat, s.
    split; [lia|]. split; [done|]. split; [done|]. intros k' s' Hk'. lia.
  - destruct (IH _ Hrun) as (k & s1 & -> & Hk & Hs & Hfirst).
    exists (S k), s1. split; [lia|]. split; [done|]. split; [done|].
    intros [|k'] s' Hk' Hs'; [by injection Hs' as <-|].
    apply (Hfirst k' s'); [lia|done].
Qed.

Lemma cmp_index_Raise (arg : pyval) (l : list string) (i0 : nat) :
  (∀ s, s ∈ l → py_eq (PyStr s) arg = false) →
  cmp_index arg l i0 = Raise ValueError.
Proof.
  revert i0. induction l as [|s l IH]; intros i0 Hall; [done|].
  cbn [cmp_index]. rewrite (Hall s) by apply list_elem_of_here.
  apply IH. intros s' Hs'. apply Hall. by apply list_elem_of_further.
Qed.

(** X11: [_convert_COMPARE_OP] returns the first index of the operator in
    [dis.cmp_op] and touches no table; it raises [ValueError] exactly when
    the operand equals no entry. *)
Theorem convert_COMPARE_OP_index `{Dis} (enc : ArgEncoder) (arg : pyval) :
  (∀ i enc', _convert_COMPARE_OP enc arg = Ret (i, enc') →
     enc' = enc
     ∧ ∃ s, dis_cmp_op !! i = Some s ∧ py_eq (PyStr s) arg = true
            ∧ ∀ k s', (k < i)%nat → dis_cmp_op !! k = Some s' →
                      py_eq (PyStr s') arg = false)
  ∧ (_convert_COMPARE_OP enc arg = Raise ValueError
     ↔ ∀ s, s ∈ dis_cmp_op → py_eq (PyStr s) arg = false).
Proof.
  unfold _convert_COMPARE_OP. split.
  - intros i enc' Hrun. inv_bind Hrun. injection Hrun as <- <-.
    apply cmp_index_spec in Hr as (k & s & -> & Hk & Hs & Hfirst).
    split; [done|]. exists s. by repeat split.
  - split.
    + intros Hrun s Hs. destruct (py_eq (PyStr s) arg) eqn:E; [|done].
      exfalso.
      assert (∃ i, cmp_index arg dis_cmp_op 0 = Ret i) as [i Hi].
      { clear Hrun. revert Hs. generalize 0%nat.
        induction dis_cmp_op as [|s' l IH]; intros i0 Hs;
          [by apply elem_of_nil in Hs|].
        cbn [cmp_index]. destruct (py_eq (PyStr s') arg) eqn:E'; [by eexists|].
        apply elem_of_cons in Hs as [->|Hs]; [congruence|]. by apply IH. }
      by rewrite Hi in Hrun.
    + intros Hall. by rewrite (cmp_index_Raise _ _ _ Hall).
Qed.

Lemma convert_COMPARE_OP_extends `{Dis} (enc : ArgEncoder) (v : pyval)
    (r : nat * ArgEncoder) :
  _convert_COMPARE_OP enc v = Ret r → enc_extends enc r.2.
Proof.
  unfold _convert_COMPARE_OP. intros Hrun. inv_bind Hrun.
  injection Hrun as <-. apply enc_extends_refl.
Qed.

Lemma convert_LOAD_CONST_spec (enc : ArgEncoder) (v : pyval)
    (r : nat * ArgEncoder) :
  _convert_LOAD_CONST enc v = Ret r →
  enc_extends enc r.2
  ∧ ∃ item, table_of Consts r.2 !! r.1 = Some item ∧ strict_eq v item = true.
Proof.
  intros [= <-]. split; [apply intern_consts_extends|].
  apply NameToIndex_lookup.
Qed.

Lemma convert_LOAD_FAST_spec (enc : ArgEncoder) (v : pyval)
    (r : nat * ArgEncoder) :
  _convert_LOAD_FAST enc v = Ret r →
  enc_extends enc r.2
  ∧ ∃ item, table_of Varnames r.2 !! r.1 = Some item
            ∧ strict_eq v item = true.
Proof.
  intros [= <-]. split; [|apply NameToIndex_lookup].
  eapply enc_extends_trans;
    [apply intern_names_extends | apply intern_varnames_extends].
Qed.

Lemma convert_NAME_spec (enc : ArgEncoder) (v : pyval)
    (r : nat * ArgEncoder) :
  _convert_NAME enc v = Ret r →
  enc_extends enc r.2
  ∧ ∃ item, table_of Names r.2 !! r.1 = Some item ∧ strict_eq v item = true.
Proof.
  unfold _convert_NAME. cbv zeta.
  set (enc1 := match enc_klass enc with
               | None => (intern_varnames enc v).2
               | Some _ => enc
               end).
  assert (enc_extends enc enc1) as Hext.
  { subst enc1. destruct (enc_klass enc);
      [apply enc_extends_refl | apply intern_varnames_extends]. }
  intros [= <-]. split; [|apply NameToIndex_lookup].
  eapply enc_extends_trans; [exact Hext | apply intern_names_extends].
Qed.

Lemma convert_LOAD_NAME_spec (enc : ArgEncoder) (v : pyval)
    (r : nat * ArgEncoder) :
  _convert_LOAD_NAME enc v = Ret r →
  enc_extends enc r.2
  ∧ ∃ item, table_of Names r.2 !! r.1 = Some item ∧ strict_eq v item = true.
Proof. apply convert_NAME_spec. Qed.

Lemma convert_DEREF_spec (enc : ArgEncoder) (v : pyval)
    (r : nat * ArgEncoder) :
  _convert_DEREF enc v = Ret r →
  enc_extends enc r.2
  ∧ ∃ item, table_of Closure r.2 !! r.1 = Some item
            ∧ strict_eq v item = true.
Proof.
  intros [= <-]. split; [|apply NameToIndex_lookup].
  set (enc1 := (intern_names enc v).2).
  set (enc2 := (intern_varnames enc1 v).2).
  apply (enc_extends_trans _ enc2); [|apply intern_closure_extends].
  apply (enc_extends_trans _ enc1);
    [apply intern_names_extends | apply intern_varnames_extends].
Qed.

Lemma convert_LOAD_CLOSURE_spec (enc : ArgEncoder) (v : pyval)
    (r : nat * ArgEncoder) :
  _convert_LOAD_CLOSURE enc v = Ret r →
  enc_extends enc r.2
  ∧ ∃ item, table_of Closure r.2 !! r.1 = Some item
            ∧ strict_eq v item = true.
Proof.
  intros [= <-]. split; [|apply NameToIndex_lookup].
  apply (enc_extends_trans _ (intern_varnames enc v).2);
    [apply intern_varnames_extends | apply intern_closure_extends].
Qed.

Ltac split_members H :=
  repeat (apply elem_of_cons in H as [H|H]);
  [..|by apply elem_of_nil in H].

Ltac use_converter_spec Hrun :=
  first
    [ apply convert_COMPARE_OP_extends in Hrun as Hext;
      split; [exact Hext|]; intros t Ht; by vm_compute in Ht
    | let Hext := fresh "Hext" in
      let Hlk := fresh "Hlk" in
      first [ apply convert_LOAD_CONST_spec in Hrun as [Hext Hlk]
            | apply convert_LOAD_FAST_spec in Hrun as [Hext Hlk]
            | apply convert_LOAD_NAME_spec in Hrun as [Hext Hlk]
            | apply convert_DEREF_spec in Hrun as [Hext Hlk]
            | apply convert_LOAD_CLOSURE_spec in Hrun as [Hext Hlk] ];
      split; [exact Hext|];
      intros t Ht; vm_compute in Ht; injection Ht as <-; exact Hlk ].

(** Every converter extends the tables, and the index it returns points,
    in the table of its opcode, to an entry with the type and the value of
    the operand. *)
Lemma converter_spec `{Dis} (opname : string) (method : converter)
    (enc : ArgEncoder) (v : pyval) (r : nat * ArgEncoder) :
  Get opname = Some method → method enc v = Ret r →
  enc_extends enc r.2
  ∧ ∀ t, operand_table opname = Some t →
         ∃ item, table_of t r.2 !! r.1 = Some item
                 ∧ strict_eq v item = true.
Proof.
  unfold Get, _converters. intros Hget%elem_of_list_to_map_2 Hrun.
  split_members Hget; injection Hget as -> ->; use_converter_spec Hrun.
Qed.

(** ** The encoding loop of [MakeCodeObject] *)

Lemma encodes_extends `{Dis} (enc enc' : ArgEncoder) (t t' : inst) :
  enc_extends enc enc' → encodes enc t t' → encodes enc' t t'.
Proof.
  intros [_ Hpre]. destruct t as [op|op [B|v]]; cbn [encodes]; [done|..];
    destruct (Get op); try done.
  intros (idx & -> & Hlk). exists idx. split; [done|].
  intros tb Htb. destruct (Hlk tb Htb) as (item & Hitem & Heq).
  exists item. split; [|done].
  by eapply prefix_lookup_Some; [|apply Hpre].
Qed.

Lemma encode_inst_spec `{Dis} (st st' : list inst * ArgEncoder) (t : inst) :
  encode_inst st t = Ret st' →
  enc_extends st.2 st'.2
  ∧ ∃ t', st'.1 = st.1 ++ [t'] ∧ inst_opname t' = inst_opname t
          ∧ encodes st'.2 t t'.
Proof.
  unfold encode_inst. destruct t as [op|op arg].
  { intros [= <-]. split; [apply enc_extends_refl|]. by exists (Inst1 op). }
  cbn [encodes]. destruct (Get op) as [method|] eqn:Hget.
  2:{ intros [= <-]. split; [apply enc_extends_refl|].
      by exists (Inst2 op arg). }
  destruct arg as [B|v]; [done|]. intros Hrun. inv_bind Hrun.
  injection Hrun as <-. cbn [fst snd].
  destruct (converter_spec _ _ _ _ _ Hget Hr) as [Hext Hlk].
  split; [done|]. eexists. split; [done|]. split; [done|]. by eexists.
Qed.

Lemma encode_loop_spec `{Dis} (insts : list inst) (acc out : list inst)
    (enc enc' : ArgEncoder) :
  foldM encode_inst (acc, enc) insts = Ret (out, enc') →
  enc_extends enc enc'
  ∧ ∃ new, out = acc ++ new
           ∧ Forall2 (λ t t', inst_opname t' = inst_opname t
                              ∧ encodes enc' t t') insts new.
Proof.
  revert acc enc. induction insts as [|t insts IH]; intros acc enc Hrun.
  - injection Hrun as <- <-. split; [apply enc_extends_refl|].
    exists []. by rewrite app_nil_r.
  - cbn [foldM] in Hrun. inv_bind Hrun. destruct r as [acc1 enc1].
    apply encode_inst_spec in Hr as (Hext1 & t' & Hacc & Hop & Henc).
    cbn [fst snd] in *. subst acc1.
    apply IH in Hrun as (Hext2 & new & -> & Hall).
    split; [by eapply enc_extends_trans|].
    exists (t' :: new). split; [by rewrite <-app_assoc|].
    constructor; [|done]. split; [done|]. by eapply encodes_extends.
Qed.

Lemma encodes_size `{Dis} (enc' : ArgEncoder) (t t' : inst) :
  encodes enc' t t' → inst_size t' = inst_size t.
Proof.
  destruct t as [op|op [B|v]]; cbn [encodes]; [by intros ->|..];
    destruct (Get op); try done; try by intros ->.
  by intros (idx & -> & _).
Qed.

Lemma encode_loop_shape `{Dis} (insts out : list inst)
    (enc enc' : ArgEncoder) :
  foldM encode_inst ([], enc) insts = Ret (out, enc') →
  enc_extends enc enc'
  ∧ inst_opname <$> out = inst_opname <$> insts
  ∧ code_size out = code_size insts.
Proof.
  intros (Hext & new & -> & Hall)%encode_loop_spec. split; [done|].
  cbn [app]. unfold code_size.
  induction Hall as [|t t' insts new [Hop Henc] _ [IH1 IH2]]; [done|].
  rewrite !fmap_cons, Hop, IH1. split; [done|].
  unfold sum_Z in *. cbn [foldr]. rewrite IH2.
  by rewrite (encodes_size _ _ _ Henc).
Qed.

(** X12: when the encoding loop of [MakeCodeObject] returns, every table
    of the encoder starts with what it held before, and the encoded
    instructions have, position by position, the opcode names of the given
    ones, hence the same size in bytes. *)
Theorem encode_tables_grow `{Dis} (insts out : list inst)
    (enc enc' : ArgEncoder) :
  foldM encode_inst ([], enc) insts = Ret (out, enc') →
  enc_extends enc enc'
  ∧ inst_opname <$> out = inst_opname <$> insts
  ∧ code_size out = code_size insts.
Proof. apply encode_loop_shape. Qed.

Lemma encode_tables_grow_witness :
  let enc := {| enc_klass := None; enc_consts := [PyNone]; enc_names := [];
                enc_varnames := [PyStr "a"]; enc_closure := [] |} in
  let enc' := {| enc_klass := None; enc_consts := [PyNone; PyInt 1];
                 enc_names := [PyStr "x"; PyStr "a"];
                 enc_varnames := [PyStr "a"; PyStr "x"];
                 enc_closure := [] |} in
  let insts := [Inst2 "LOAD_CONST" (ArgVal (PyInt 1));
                Inst2 "LOAD_NAME" (ArgVal (PyStr "x"));
                Inst2 "LOAD_FAST" (ArgVal (PyStr "a"));
                Inst2 "COMPARE_OP" (ArgVal (PyStr "=="));
                Inst1 "RETURN_VALUE"] in
  let out := [Inst2 "LOAD_CONST" (ArgVal (PyInt 1));
              Inst2 "LOAD_NAME" (ArgVal (PyInt 0));
              Inst2 "LOAD_FAST" (ArgVal (PyInt 0));
              Inst2 "COMPARE_OP" (ArgVal (PyInt 2));
              Inst1 "RETURN_VALUE"] in
  foldM (encode_inst (H := dis27)) ([], enc) insts = Ret (out, enc')
  ∧ enc_extends enc enc'
  ∧ inst_opname <$> out = inst_opname <$> insts
  ∧ code_size out = code_size insts.
Proof.
  intros enc enc' insts out.
  assert (foldM (encode_inst (H := dis27)) ([], enc) insts = Ret (out, enc'))
    as Hrun by (vm_compute; reflexivity).
  split; [exact Hrun|].
  exact (encode_tables_grow (H := dis27) insts out enc enc' Hrun).
Defined.

(** X13: when the encoding loop of [MakeCodeObject] returns, it has
    replaced the instruction at every position by one with the same opcode
    name: the instruction itself when its opcode has no converter, and
    otherwise one whose operand is an index; for every converter but that
    of [COMPARE_OP] the entry at this index in the final table of the
    opcode has the type and the value of the symbolic operand. *)
Theorem encode_operand_lookup `{Dis} (insts out : list inst)
    (enc enc' : ArgEncoder) (i : nat) (t : inst) :
  foldM encode_inst ([], enc) insts = Ret (out, enc') →
  insts !! i = Some t →
  ∃ t', out !! i = Some t' ∧ inst_opname t' = inst_opname t
        ∧ encodes enc' t t'.
Proof.
  intros (_ & new & -> & Hall)%encode_loop_spec Ht. cbn [app].
  destruct (Forall2_lookup_l _ _ _ _ _ Hall Ht) as (t' & Ht' & Hop & Henc).
  by exists t'.
Qed.

Lemma encode_operand_lookup_witness :
  let enc := {| enc_klass := None; enc_consts := [PyNone]; enc_names := [];
                enc_varnames := [PyStr "a"]; enc_closure := [] |} in
  let enc' := {| enc_klass := None; enc_consts := [PyNone; PyInt 1];
                 enc_names := [PyStr "x"];
                 enc_varnames := [PyStr "a"; PyStr "x"];
                 enc_closure := [] |} in
  let insts := [Inst2 "LOAD_CONST" (ArgVal (PyInt 1));
                Inst2 "STORE_NAME" (ArgVal (PyStr "x"));
                Inst1 "RETURN_VALUE"] in
  let out := [Inst2 "LOAD_CONST" (ArgVal (PyInt 1));
              Inst2 "STORE_NAME" (ArgVal (PyInt 0));
              Inst1 "RETURN_VALUE"] in
  foldM (encode_inst (H := dis27)) ([], enc) insts = Ret (out, enc')
  ∧ insts !! 1%nat = Some (Inst2 "STORE_NAME" (ArgVal (PyStr "x")))
  ∧ ∃ t', out !! 1%nat = Some t'
          ∧ inst_opname t' = "STORE_NAME"
          ∧ encodes (H := dis27) enc'
              (Inst2 "STORE_NAME" (ArgVal (PyStr "x"))) t'.
Proof.
  intros enc enc' insts out.
  assert (foldM (encode_inst (H := dis27)) ([], enc) insts = Ret (out, enc'))
    as Hrun by (vm_compute; reflexivity).
  assert (insts !! 1%nat = Some (Inst2 "STORE_NAME" (ArgVal (PyStr "x"))))
    as Ht by reflexivity.
  split; [exact Hrun|]. split; [exact Ht|].
  exact (encode_operand_lookup (H := dis27) insts out enc enc' 1 _ Hrun Ht).
Defined.

(** * Building a graph *)

(** ** [Block.addNext] *)

Lemma length_snoc_1 {A} (l : list A) (x : A) :
  length (l ++ [x]) = 1%nat ↔ l = [].
Proof.
  rewrite length_app. cbn. split.
  - intros Hlen. apply length_zero_iff_nil. lia.
  - by intros ->.
Qed.

Lemma heap_lookup_insert (h : heap) (b : block_id) (B : Block) :
  (<[b := B]> h) b = B.
Proof. apply fn_lookup_insert. Qed.

Lemma heap_lookup_insert_ne (h : heap) (a b : block_id) (B : Block) :
  a ≠ b → (<[a := B]> h) b = h b.
Proof. apply fn_lookup_insert_ne. Qed.

(** What a returning [addNext] found and what it leaves. *)
Lemma addNext_Ret (h h' : heap) (self block : block_id) :
  addNext h self block = Ret h' →
  next (h self) = [] ∧ prev (h block) = []
  ∧ next (h' self) = [block] ∧ prev (h' block) = [self]
  ∧ (∀ b, b ≠ self → next (h' b) = next (h b))
  ∧ (∀ b, b ≠ block → prev (h' b) = prev (h b))
  ∧ (∀ b, label (h' b) = label (h b) ∧ insts (h' b) = insts (h b)
          ∧ outEdges (h' b) = outEdges (h b)).
Proof.
  unfold addNext. cbv zeta. rewrite heap_lookup_insert. cbn [next].
  case_decide as Hnext; [|done]. apply length_snoc_1 in Hnext.
  rewrite heap_lookup_insert. cbn [prev].
  set (h1 := <[self := _]> h).
  assert (Hprev1 : ∀ b, prev (h1 b) = prev (h b)).
  { intros b. subst h1. destruct (decide (self = b)) as [->|Hne].
    - by rewrite heap_lookup_insert.
    - by rewrite heap_lookup_insert_ne. }
  case_decide as Hprev; [|done]. apply length_snoc_1 in Hprev.
  intros [= <-]. rewrite Hprev1 in Hprev.
  split; [done|]. split; [done|]. split.
  { destruct (decide (block = self)) as [->|Hne].
    - rewrite heap_lookup_insert. cbn. subst h1. rewrite heap_lookup_insert.
      cbn. by rewrite Hnext.
    - rewrite heap_lookup_insert_ne by done. subst h1.
      rewrite heap_lookup_insert. cbn. by rewrite Hnext. }
  split; [by rewrite heap_lookup_insert; cbn; rewrite Hprev1, Hprev|].
  split; [|split].
  - intros b Hb. destruct (decide (block = b)) as [->|Hne].
    + rewrite heap_lookup_insert. cbn. subst h1.
      by rewrite heap_lookup_insert_ne.
    + rewrite heap_lookup_insert_ne by done. subst h1.
      by rewrite heap_lookup_insert_ne.
  - intros b Hb. rewrite heap_lookup_insert_ne by done. apply Hprev1.
  - intros b. destruct (decide (block = b)) as [->|Hne];
      [rewrite heap_lookup_insert|rewrite heap_lookup_insert_ne by done];
      cbn; subst h1;
      (destruct (decide (self = b)) as [->|Hne'];
       [by rewrite heap_lookup_insert|by rewrite heap_lookup_insert_ne]).
Qed.

Lemma addNext_free (h : heap) (self block : block_id) :
  next (h self) = [] → prev (h block) = [] →
  ∃ h', addNext h self block = Ret h'.
Proof.
  intros Hnext Hprev. unfold addNext. cbv zeta.
  rewrite heap_lookup_insert. cbn [next]. rewrite Hnext.
  rewrite decide_True by done. rewrite heap_lookup_insert. cbn [prev].
  assert (prev ((<[self := {| label := label (h self);
                              insts := insts (h self);
                              outEdges := outEdges (h self);
                              next := [] ++ [block];
                              prev := prev (h self) |}]> h) block) = [])
    as ->.
  { destruct (decide (self = block)) as [->|Hne].
    - by rewrite heap_lookup_insert.
    - by rewrite heap_lookup_insert_ne. }
  rewrite decide_True by done. by eexists.
Qed.

Lemma addNext_taken (h : heap) (self block : block_id) :
  ¬ (next (h self) = [] ∧ prev (h block) = []) →
  addNext h self block = Raise AssertionError.
Proof.
  intros Hno. destruct (addNext h self block) as [h'|e|] eqn:E.
  - apply addNext_Ret in E as (? & ? & _). by destruct Hno.
  - unfold addNext in E. cbv zeta in E. repeat case_decide; congruence.
  - unfold addNext in E. cbv zeta in E. repeat case_decide; congruence.
Qed.

(** X14: [addNext] returns exactly when the block has no next block yet
    and the target has no [prev] link yet; it then makes the target the
    only next block and the block the only [prev] link of the target, and
    changes no other link, instruction or out-edge.  Otherwise one of its
    assertions fails. *)
Theorem addNext_links (h : heap) (self block : block_id) :
  (next (h self) = [] ∧ prev (h block) = [] →
   ∃ h', addNext h self block = Ret h'
         ∧ next (h' self) = [block] ∧ prev (h' block) = [self]
         ∧ (∀ b, b ≠ self → next (h' b) = next (h b))
         ∧ (∀ b, b ≠ block → prev (h' b) = prev (h b))
         ∧ (∀ b, insts (h' b) = insts (h b)
                 ∧ outEdges (h' b) = outEdges (h b)))
  ∧ (¬ (next (h self) = [] ∧ prev (h block) = []) →
     addNext h self block = Raise AssertionError).
Proof.
  split; [|apply addNext_taken].
  intros [Hnext Hprev].
  destruct (addNext_free h self block Hnext Hprev) as [h' Hrun].
  exists h'. split; [done|].
  apply addNext_Ret in Hrun as (_ & _ & Hn & Hp & Hns & Hps & Hrest).
  repeat split; try done; apply Hrest.
Qed.

(** ** The methods of [FlowGraph] keep the graph well formed *)

Lemma new_Block_new (label : string) (s : store) :
  s_heap (new_Block label s).2 (gBlockCounter s)
  = {| label := label; insts := []; outEdges := ∅; next := []; prev := [] |}.
Proof. unfold new_Block. cbn. apply heap_lookup_insert. Qed.

Lemma new_Block_old (label : string) (s : store) (b : block_id) :
  b ≠ gBlockCounter s → s_heap (new_Block label s).2 b = s_heap s b.
Proof.
  intros Hb. unfold new_Block. cbn. by apply heap_lookup_insert_ne.
Qed.

Lemma child_new_Block (label : string) (s : store) (c : block_id) :
  ¬ child (s_heap (new_Block label s).2) (gBlockCounter s) c.
Proof.
  unfold child. rewrite new_Block_new. cbn.
  intros [Hc|Hc]; [by apply elem_of_empty in Hc|by apply elem_of_nil in Hc].
Qed.

(** Allocating a block and adding it to the graph. *)
Lemma graph_inv_new_Block (g : FlowGraph) (s : store) (label : string) :
  graph_inv g s →
  graph_inv {| fg_current := fg_current g; fg_entry := fg_entry g;
               fg_exit := fg_exit g;
               fg_blocks := {[gBlockCounter s]} ∪ fg_blocks g |}
            (new_Block label s).2.
Proof.
  intros (Hcur & Hent & Hex & Halloc & Hchild & Hops & Hlink).
  assert (Hold : ∀ b, b ∈ fg_blocks g →
            s_heap (new_Block label s).2 b = s_heap s b).
  { intros b Hb%Halloc. apply new_Block_old. lia. }
  unfold graph_inv. cbn [fg_current fg_entry fg_exit fg_blocks].
  split; [set_solver|]. split; [set_solver|]. split; [set_solver|].
  split; [|split; [|split]].
  - intros b [->%elem_of_singleton|Hb%Halloc]%elem_of_union; cbn; lia.
  - intros b c [->%elem_of_singleton|Hb]%elem_of_union Hc.
    + by apply child_new_Block in Hc.
    + unfold child in Hc. rewrite (Hold b Hb) in Hc.
      apply elem_of_union. right. by apply (Hchild b).
  - intros b op t [->%elem_of_singleton|Hb]%elem_of_union Ht.
    + rewrite new_Block_new in Ht. by apply elem_of_nil in Ht.
    + rewrite (Hold b Hb) in Ht |- *. by apply (Hops b op).
  - intros b n [->%elem_of_singleton|Hb]%elem_of_union Hn.
    + rewrite new_Block_new in Hn. by apply elem_of_nil in Hn.
    + rewrite (Hold b Hb) in Hn |- *.
      assert (n ∈ fg_blocks g) as Hnb by (apply (Hchild b); [done|by right]).
      rewrite (Hold n Hnb). by apply Hlink.
Qed.

Lemma graph_inv_init (s : store) :
  graph_inv (new_FlowGraph s).1 (new_FlowGraph s).2.
Proof.
  unfold new_FlowGraph. cbn [fst snd].
  set (s1 := (new_Block "" s).2).
  assert (Hc1 : gBlockCounter s1 = S (gBlockCounter s)) by done.
  assert (H1 : (new_Block "exit" s1).1 = S (gBlockCounter s)) by done.
  assert (H0 : (new_Block "" s).1 = gBlockCounter s) by done.
  rewrite H1, H0.
  assert (Hex : s_heap (new_Block "exit" s1).2 (S (gBlockCounter s))
                = {| label := "exit"; insts := []; outEdges := ∅;
                     next := []; prev := [] |}).
  { rewrite <- Hc1. apply new_Block_new. }
  assert (Hen : s_heap (new_Block "exit" s1).2 (gBlockCounter s)
                = {| label := ""; insts := []; outEdges := ∅;
                     next := []; prev := [] |}).
  { rewrite new_Block_old by (rewrite Hc1; lia). apply new_Block_new. }
  assert (Hcases : ∀ b, b ∈ ({[S (gBlockCounter s)]} ∪ ({[gBlockCounter s]}
                               ∪ ∅) : gset block_id) →
            insts (s_heap (new_Block "exit" s1).2 b) = []
            ∧ outEdges (s_heap (new_Block "exit" s1).2 b) = ∅
            ∧ next (s_heap (new_Block "exit" s1).2 b) = []).
  { intros b [->%elem_of_singleton|[->%elem_of_singleton|Hb]%elem_of_union]
      %elem_of_union.
    - by rewrite Hex.
    - by rewrite Hen.
    - by apply elem_of_empty in Hb. }
  unfold graph_inv. cbn [fg_current fg_entry fg_exit fg_blocks].
  split; [set_solver|]. split; [set_solver|]. split; [set_solver|].
  split; [|split; [|split]].
  - intros b [->%elem_of_singleton|[->%elem_of_singleton|Hb]%elem_of_union]
      %elem_of_union; cbn; [lia|lia|by apply elem_of_empty in Hb].
  - intros b c Hb%Hcases [Hc|Hc]; destruct Hb as (_ & Ho & Hn).
    + rewrite Ho in Hc. by apply elem_of_empty in Hc.
    + rewrite Hn in Hc. by apply elem_of_nil in Hc.
  - intros b op t (Hi & _)%Hcases Ht. rewrite Hi in Ht.
    by apply elem_of_nil in Ht.
  - intros b n (_ & _ & Hn)%Hcases Hin. rewrite Hn in Hin.
    by apply elem_of_nil in Hin.
Qed.

Lemma graph_inv_startBlock (g : FlowGraph) (s : store) (block : block_id) :
  graph_inv g s → block ∈ fg_blocks g → graph_inv (startBlock g block) s.
Proof. intros (_ & Hrest) Hb. by split. Qed.

(** What [FlowGraph.emit] changes: the instructions and, for a block
    operand, the out-edges of the current block. *)
Lemma FlowGraph_emit_spec (g : FlowGraph) (s : store) (i : inst) :
  let h := s_heap s in
  let h' := s_heap (FlowGraph_emit g s i) in
  gBlockCounter (FlowGraph_emit g s i) = gBlockCounter s
  ∧ (∀ b, b ≠ fg_current g → h' b = h b)
  ∧ (∀ b, label (h' b) = label (h b) ∧ next (h' b) = next (h b)
          ∧ prev (h' b) = prev (h b))
  ∧ insts (h' (fg_current g)) = insts (h (fg_current g)) ++ [i]
  ∧ outEdges (h' (fg_current g))
    = match i with
      | Inst2 _ (ArgBlock block) => {[block]} ∪ outEdges (h (fg_current g))
      | _ => outEdges (h (fg_current g))
      end.
Proof.
  cbv zeta. unfold FlowGraph_emit, Block_emit, addOutEdge.
  cbn [s_heap gBlockCounter]. split; [done|]. split; [|split; [|split]].
  - intros b Hb. rewrite heap_lookup_insert_ne by done.
    destruct i as [op|op [block|v]]; try done.
    by rewrite heap_lookup_insert_ne.
  - intros b. destruct (decide (fg_current g = b)) as [<-|Hne].
    + rewrite heap_lookup_insert. cbn.
      destruct i as [op|op [block|v]]; try done.
      by rewrite heap_lookup_insert.
    + rewrite heap_lookup_insert_ne by done.
      destruct i as [op|op [block|v]]; try done.
      by rewrite heap_lookup_insert_ne.
  - rewrite heap_lookup_insert. cbn.
    destruct i as [op|op [block|v]]; try done.
    by rewrite heap_lookup_insert.
  - rewrite heap_lookup_insert. cbn.
    destruct i as [op|op [block|v]]; try done.
    by rewrite heap_lookup_insert.
Qed.

Lemma graph_inv_emit (g : FlowGraph) (s : store) (i : inst) :
  graph_inv g s →
  (∀ op block, i = Inst2 op (ArgBlock block) → block ∈ fg_blocks g) →
  graph_inv g (FlowGraph_emit g s i).
Proof.
  intros (Hcur & Hent & Hex & Halloc & Hchild & Hops & Hlink) Harg.
  destruct (FlowGraph_emit_spec g s i)
    as (Hcount & Hother & Hsame & Hinsts & Hedges).
  cbv zeta in *.
  unfold graph_inv. rewrite Hcount.
  split; [done|]. split; [done|]. split; [done|]. split; [done|].
  split; [|split].
  - intros b c Hb [Hc|Hc].
    + destruct (decide (b = fg_current g)) as [->|Hne].
      * rewrite Hedges in Hc. destruct i as [op|op [block|v]];
          try (by apply (Hchild (fg_current g)); [|left]).
        apply elem_of_union in Hc as [->%elem_of_singleton|Hc];
          [by eapply Harg|by apply (Hchild (fg_current g)); [|left]].
      * rewrite (Hother b Hne) in Hc. apply (Hchild b); [done|by left].
    + destruct (Hsame b) as (_ & Hn & _). rewrite Hn in Hc.
      apply (Hchild b); [done|by right].
  - intros b op t Hb Ht.
    destruct (decide (b = fg_current g)) as [->|Hne].
    + rewrite Hinsts in Ht. rewrite Hedges.
      apply elem_of_app in Ht as [Ht|Heq%list_elem_of_singleton].
      * apply (Hops _ op) in Ht; [|done].
        destruct i as [op'|op' [block|v]]; try done.
        apply elem_of_union. by right.
      * subst i. apply elem_of_union. left. by apply elem_of_singleton.
    + rewrite (Hother b Hne) in Ht |- *. by apply (Hops b op).
  - intros b n Hb Hn.
    destruct (Hsame b) as (_ & Hnb & _). rewrite Hnb in Hn |- *.
    destruct (Hsame n) as (_ & _ & Hpn). rewrite Hpn. by apply Hlink.
Qed.

Lemma graph_inv_addNext (g : FlowGraph) (s : store) (block : block_id)
    (h' : heap) :
  graph_inv g s → block ∈ fg_blocks g →
  addNext (s_heap s) (fg_current g) block = Ret h' →
  graph_inv (startBlock g block)
            {| s_heap := h'; gBlockCounter := gBlockCounter s |}.
Proof.
  intros (Hcur & Hent & Hex & Halloc & Hchild & Hops & Hlink) Hblock Hrun.
  apply addNext_Ret in Hrun
    as (Hfree & Hpfree & Hn & Hp & Hns & Hps & Hrest).
  unfold graph_inv.
  cbn [startBlock fg_current fg_entry fg_exit fg_blocks s_heap gBlockCounter].
  split; [done|]. split; [done|]. split; [done|]. split; [done|].
  split; [|split].
  - intros b c Hb [Hc|Hc].
    + destruct (Hrest b) as (_ & _ & Ho). rewrite Ho in Hc.
      apply (Hchild b); [done|by left].
    + destruct (decide (b = fg_current g)) as [->|Hne].
      * rewrite Hn in Hc. by apply list_elem_of_singleton in Hc as ->.
      * rewrite (Hns b Hne) in Hc. apply (Hchild b); [done|by right].
  - intros b op t Hb Ht. destruct (Hrest b) as (_ & Hi & Ho).
    rewrite Hi in Ht. rewrite Ho. by apply (Hops b op).
  - intros b n Hb Hin.
    destruct (decide (b = fg_current g)) as [->|Hne].
    + rewrite Hn in Hin |- *. apply list_elem_of_singleton in Hin as ->.
      by split.
    + rewrite (Hns b Hne) in Hin |- *.
      destruct (Hlink b n Hb Hin) as [Hnext Hprev]. split; [done|].
      destruct (decide (n = block)) as [->|Hnb]; [congruence|].
      by rewrite (Hps n Hnb).
Qed.

Lemma graph_inv_nextBlock (g g' : FlowGraph) (s s' : store)
    (block : option block_id) :
  graph_inv g s → (∀ b, block = Some b → b ∈ fg_blocks g) →
  nextBlock g s block = Ret (g', s') → graph_inv g' s'.
Proof.
  intros Hinv Hblock Hrun. unfold nextBlock in Hrun. cbv zeta in Hrun.
  inv_bind Hrun. injection Hrun as <- <-. destruct block as [b|].
  - cbn [fst snd] in *. by apply graph_inv_addNext; [|apply Hblock|].
  - unfold newBlock in *. cbn [fst snd] in *.
    apply (graph_inv_addNext _ (new_Block "" s).2);
      [by apply graph_inv_new_Block| |done].
    cbn. apply elem_of_union. left. by apply elem_of_singleton.
Qed.

(** Every graph built through the methods is well formed. *)
Lemma built_inv (g : FlowGraph) (s : store) : built g s → graph_inv g s.
Proof.
  induction 1 as [s|g s block _ IH Hb|g s _ IH|g g' s s' block _ IH Hb Hrun
                 |g s _ IH|g s i _ IH Harg].
  - apply graph_inv_init.
  - by apply graph_inv_startBlock.
  - unfold newBlock. cbn [fst snd]. by apply graph_inv_new_Block.
  - by eapply graph_inv_nextBlock.
  - apply graph_inv_startBlock; [done|]. by destruct IH as (_ & _ & ? & _).
  - by apply graph_inv_emit.
Qed.

Lemma sample_built : built sample_graph.1 sample_graph.2.
Proof.
  assert (Hjump : built sample_new.1.2 sample_jump).
  { unfold sample_jump. apply built_emit; [apply built_emit|].
    - unfold sample_new. apply built_newBlock, built_init.
    - by intros op block [=].
    - intros op block [= _ <-]. apply (bool_decide_unpack _). by vm_compute. }
  unfold sample_graph. destruct sample_next as [[g s]|e|] eqn:E;
    [|by vm_compute in E..].
  cbn [fst snd]. apply built_emit; [apply built_emit|].
  - apply (built_nextBlock sample_new.1.2 g sample_jump s
             (Some sample_new.1.1)); [exact Hjump| |exact E].
    intros b [= <-]. apply (bool_decide_unpack _). by vm_compute.
  - by intros op block [=].
  - by intros op block [=].
Qed.

(** X15: in a graph built through the [FlowGraph] methods every block has
    at most one next block, and this block has it as its only [prev] link:
    the assertion [b is b.next[0].prev[0]] of [OrderBlocks] holds of every
    block of the graph. *)
Theorem built_check_next (g : FlowGraph) (s : store) (b : block_id) :
  built g s → b ∈ fg_blocks g →
  check_next (s_heap s) b = Ret ()
  ∧ (length (next (s_heap s b)) ≤ 1)%nat
  ∧ ∀ n, n ∈ next (s_heap s b) → prev (s_heap s n) = [b].
Proof.
  intros (_ & _ & _ & _ & _ & _ & Hlink)%built_inv Hb.
  split; [|split].
  - unfold check_next. destruct (next (s_heap s b)) as [|n l] eqn:E; [done|].
    destruct (Hlink b n Hb) as [_ Hp]; [rewrite E; apply list_elem_of_here|].
    rewrite Hp. by rewrite decide_True.
  - destruct (next (s_heap s b)) as [|n l] eqn:E; [cbn; lia|].
    destruct (Hlink b n Hb) as [Hn _]; [rewrite E; apply list_elem_of_here|].
    rewrite E in Hn. injection Hn as ->. cbn. lia.
  - intros n Hn. by destruct (Hlink b n Hb Hn).
Qed.

Lemma built_check_next_witness :
  built sample_graph.1 sample_graph.2
  ∧ 0%nat ∈ fg_blocks sample_graph.1
  ∧ check_next (s_heap sample_graph.2) 0%nat = Ret ()
  ∧ (length (next (s_heap sample_graph.2 0%nat)) ≤ 1)%nat
  ∧ ∀ n, n ∈ next (s_heap sample_graph.2 0%nat) →
         prev (s_heap sample_graph.2 n) = [0%nat].
Proof.
  assert (0%nat ∈ fg_blocks sample_graph.1) as Hb
    by (apply (bool_decide_unpack _); vm_compute; exact I).
  split; [exact sample_built|]. split; [exact Hb|].
  exact (built_check_next sample_graph.1 sample_graph.2 0%nat
           sample_built Hb).
Defined.

(** X16: in a graph built through the [FlowGraph] methods every block
    operand of an instruction is an out-edge of the block that holds the
    instruction, and every block reachable from a block of the graph is a
    block of the graph, allocated before the counter. *)
Theorem built_operands_reachable (g : FlowGraph) (s : store)
    (b : block_id) :
  built g s → b ∈ fg_blocks g →
  (∀ op t, Inst2 op (ArgBlock t) ∈ insts (s_heap s b) →
           t ∈ outEdges (s_heap s b) ∧ child (s_heap s) b t)
  ∧ (∀ c, reachable (s_heap s) b c →
          c ∈ fg_blocks g ∧ (c < gBlockCounter s)%nat).
Proof.
  intros (_ & _ & _ & Halloc & Hchild & Hops & _)%built_inv Hb. split.
  - intros op t Ht%Hops; [|done]. split; [done|by left].
  - intros c Hc.
    assert (c ∈ fg_blocks g) as Hin; [|by split; [|apply Halloc]].
    eapply (rtc_ind_r (λ z, z ∈ fg_blocks g) b); [done| |exact Hc].
    intros y z _ Hyz Hy. by apply (Hchild y).
Qed.

Lemma built_operands_reachable_witness :
  built sample_graph.1 sample_graph.2
  ∧ 0%nat ∈ fg_blocks sample_graph.1
  ∧ (∀ op t, Inst2 op (ArgBlock t) ∈ insts (s_heap sample_graph.2 0%nat) →
             t ∈ outEdges (s_heap sample_graph.2 0%nat)
             ∧ child (s_heap sample_graph.2) 0%nat t)
  ∧ (∀ c, reachable (s_heap sample_graph.2) 0%nat c →
          c ∈ fg_blocks sample_graph.1
          ∧ (c < gBlockCounter sample_graph.2)%nat).
Proof.
  assert (0%nat ∈ fg_blocks sample_graph.1) as Hb
    by (apply (bool_decide_unpack _); vm_compute; exact I).
  split; [exact sample_built|]. split; [exact Hb|].
  exact (built_operands_reachable sample_graph.1 sample_graph.2 0%nat
           sample_built Hb).
Defined.

(** ** A built graph through [OrderBlocks] and [FlattenGraph] *)

(** Whatever was emitted or remained when the loop was entered is in the
    sequence it returns. *)
Lemma emit_loop_covers `{SetIter} (h : heap) (exit_block : block_id)
    (doms : gmap block_id (gset block_id)) (fuel : nat) (b : block_id)
    (order : list block_id) (R : gset block_id) (result : list block_id) :
  emit_loop fuel h exit_block doms b order R = Ret result →
  ∀ x, x ∈ order ∨ x ∈ R → x ∈ result.
Proof.
  revert b order R. induction fuel as [|fuel IH]; intros b order R Hrun; [done|].
  cbn [emit_loop] in Hrun.
  assert (Hstep : ∀ x, x ∈ order ∨ x ∈ R →
                       x ∈ order ++ [b] ∨ x ∈ R ∖ {[b]}).
  { intros x [Hx|Hx]; [left; apply elem_of_app; by left|].
    destruct (decide (x = b)) as [->|Hne].
    - left. apply elem_of_app. right. apply list_elem_of_here.
    - right. set_solver. }
  destruct (next (h b)) as [|n ns].
  - set (order' := if bool_decide (b ≠ exit_block)
                      && negb (truthy (has_unconditional_transfer (h b)))
                   then (order ++ [b]) ++ [exit_block] else order ++ [b])
      in Hrun.
    assert (Horder : ∀ x, x ∈ order ++ [b] → x ∈ order').
    { intros x Hx. subst order'.
      destruct (bool_decide (b ≠ exit_block)
                && negb (truthy (has_unconditional_transfer (h b))));
        [apply elem_of_app; by left|done]. }
    destruct (decide (R ∖ {[b]} = ∅)) as [Hempty|Hne].
    + injection Hrun as <-. intros x Hx%Hstep. destruct Hx as [Hx|Hx];
        [by apply Horder|]. rewrite Hempty in Hx. by apply elem_of_empty in Hx.
    + inv_bind Hrun. intros x [Hx|Hx]%Hstep;
        apply (IH _ _ _ Hrun); [left; by apply Horder|by right].
  - intros x Hx%Hstep. by apply (IH _ _ _ Hrun).
Qed.

(** The sequence holds nothing but what was emitted before, the exit
    block, and blocks of a set that contains the block to emit and what
    remains and is closed under next links. *)
Lemma emit_loop_members `{SetIter} (laws : SetIterLaws) (h : heap)
    (exit_block : block_id) (doms : gmap block_id (gset block_id))
    (R0 : gset block_id) (fuel : nat) (b : block_id)
    (order : list block_id) (R : gset block_id) (result : list block_id) :
  (∀ y n, y ∈ R0 → head (next (h y)) = Some n → n ∈ R0) →
  emit_loop fuel h exit_block doms b order R = Ret result →
  b ∈ R0 → R ⊆ R0 →
  ∀ x, x ∈ result → x ∈ order ∨ x = exit_block ∨ x ∈ R0.
Proof.
  intros Hclosed. revert b order R.
  induction fuel as [|fuel IH]; intros b order R Hrun Hb Hsub; [done|].
  cbn [emit_loop] in Hrun.
  assert (Hsub' : R ∖ {[b]} ⊆ R0) by set_solver.
  assert (Hback : ∀ x, x ∈ order ++ [b] ∨ x = exit_block ∨ x ∈ R0 →
                       x ∈ order ∨ x = exit_block ∨ x ∈ R0).
  { intros x [[Hx| ->%list_elem_of_singleton]%elem_of_app|Hx]; auto. }
  destruct (next (h b)) as [|n ns] eqn:Hnext.
  - set (order' := if bool_decide (b ≠ exit_block)
                      && negb (truthy (has_unconditional_transfer (h b)))
                   then (order ++ [b]) ++ [exit_block] else order ++ [b])
      in Hrun.
    assert (Horder : ∀ x, x ∈ order' → x ∈ order ++ [b] ∨ x = exit_block).
    { intros x Hx. subst order'.
      destruct (bool_decide (b ≠ exit_block)
                && negb (truthy (has_unconditional_transfer (h b))));
        [|by left].
      apply elem_of_app in Hx as [Hx| ->%list_elem_of_singleton]; auto. }
    destruct (decide (R ∖ {[b]} = ∅)) as [Hempty|Hne].
    + injection Hrun as <-. intros x [Hx| ->]%Horder; [|auto].
      apply Hback. by left.
    + inv_bind Hrun. apply (find_next_spec laws) in Hr as [Hin _].
      intros x Hx.
      destruct (IH _ _ _ Hrun (Hsub' _ Hin) Hsub' x Hx) as [Hx'|Hx']; [|auto].
      apply Horder in Hx' as [Hx'| ->]; [|auto]. apply Hback. by left.
  - intros x Hx. apply Hback.
    apply (IH _ _ _ Hrun); [|done|done].
    apply (Hclosed b); [done|by rewrite Hnext].
Qed.

(** The sequence of [OrderBlocks] holds every block reachable from the
    entry block, and nothing but reachable blocks and the exit block. *)
Lemma OrderBlocks_members `{Dis, SetIter} (laws : SetIterLaws) (fuel : nat)
    (h : heap) (start_block exit_block : block_id) (order : list block_id) :
  OrderBlocks fuel h start_block exit_block = Ret order →
  (∀ b, reachable h start_block b → b ∈ order)
  ∧ (∀ b, b ∈ order → b = exit_block ∨ reachable h start_block b).
Proof.
  intros Hrun. unfold OrderBlocks in Hrun.
  inv_bind Hrun. rename r into R0. inv_bind Hrun. rename r into doms.
  pose proof (find_blocks_reachable laws _ _ _ _ Hr) as Hreach.
  split.
  - intros b Hb%Hreach. apply (emit_loop_covers _ _ _ _ _ _ _ _ Hrun).
    by right.
  - intros b Hb.
    destruct (emit_loop_members laws h exit_block doms R0 fuel start_block
                [] R0 order) with (x := b) as [Hx|[Hx|Hx]]; try done.
    + intros y n Hy Hn%head_Some_elem. apply Hreach.
      eapply rtc_r; [by apply Hreach|]. by right.
    + apply Hreach, rtc_refl.
    + by apply elem_of_nil in Hx.
    + by left.
    + right. by apply Hreach.
Qed.

Lemma elem_of_flat_insts (h : heap) (blocks : list block_id) (t : inst) :
  t ∈ flat_insts h blocks ↔ ∃ b, b ∈ blocks ∧ t ∈ insts (h b).
Proof.
  unfold flat_insts. induction blocks as [|b0 blocks IH]; cbn.
  - split; [by intros ?%elem_of_nil|by intros (b & ?%elem_of_nil & _)].
  - rewrite elem_of_app, IH. split.
    + intros [Ht|(b & Hb & Ht)]; [exists b0|exists b]; (split; [|done]);
        [apply list_elem_of_here|by apply list_elem_of_further].
    + intros (b & [->|Hb]%elem_of_cons & Ht); [by left|right; by exists b].
Qed.

(** X17: for a graph built through the [FlowGraph] methods in which every
    jump instruction has a block as its operand and the exit block holds
    no jump, [FlattenGraph] returns on the sequence [OrderBlocks] returns:
    no jump target is missing from the layout. *)
Theorem FlattenGraph_built `{Dis, SetIter} (laws : SetIterLaws)
    (fuel : nat) (g : FlowGraph) (s : store) (order : list block_id) :
  built g s →
  (∀ b t, b ∈ fg_blocks g → t ∈ insts (s_heap s b) →
          inst_opname t ∈ HAS_JREL ∪ HAS_JABS →
          ∃ op target, t = Inst2 op (ArgBlock target)) →
  (∀ t, t ∈ insts (s_heap s (fg_exit g)) →
        inst_opname t ∉ HAS_JREL ∪ HAS_JABS) →
  OrderBlocks fuel (s_heap s) (fg_entry g) (fg_exit g) = Ret order →
  ∃ out, FlattenGraph (s_heap s) order = Ret out.
Proof.
  intros Hbuilt Hjump Hexit Hrun.
  destruct (built_inv g s Hbuilt)
    as (_ & Hent & Hex & _ & Hchild & Hops & _).
  destruct (OrderBlocks_members laws _ _ _ _ _ Hrun) as [Hall Hin].
  assert (Hclosed : ∀ b, reachable (s_heap s) (fg_entry g) b →
                         b ∈ fg_blocks g).
  { intros b Hb.
    eapply (rtc_ind_r (λ z, z ∈ fg_blocks g) (fg_entry g)); [done| |exact Hb].
    intros y z _ Hyz Hy. by apply (Hchild y). }
  apply FlattenGraph_Ret_iff, Forall_forall.
  intros t (b & Hb & Ht)%elem_of_flat_insts Hop.
  destruct (decide (b = fg_exit g)) as [->|Hne]; [by apply Hexit in Ht|].
  destruct (Hin b Hb) as [?|Hreach]; [done|].
  destruct (Hjump b t (Hclosed b Hreach) Ht Hop) as (op & target & ->).
  apply Hall. eapply rtc_r; [exact Hreach|]. left.
  by apply (Hops b op); [apply Hclosed|].
Qed.

Lemma sample_blocks (b : block_id) :
  b ∈ fg_blocks sample_graph.1 → b = 0%nat ∨ b = 1%nat ∨ b = 2%nat.
Proof.
  intros Hb. destruct (built_inv _ _ sample_built) as (_ & _ & _ & Halloc & _).
  specialize (Halloc b Hb).
  assert (gBlockCounter sample_graph.2 = 3%nat) as Hc
    by (vm_compute; reflexivity).
  rewrite Hc in Halloc. lia.
Qed.

Lemma sample_jumps (b : block_id) (t : inst) :
  b ∈ fg_blocks sample_graph.1 → t ∈ insts (s_heap sample_graph.2 b) →
  inst_opname t ∈ HAS_JREL (H := dis27) ∪ HAS_JABS (H := dis27) →
  ∃ op target, t = Inst2 op (ArgBlock target).
Proof.
  assert (insts (s_heap sample_graph.2 0%nat)
          = [Inst2 "LOAD_CONST" (ArgVal (PyInt 1));
             Inst2 "POP_JUMP_IF_FALSE" (ArgBlock 2%nat)]) as H0
    by (vm_compute; reflexivity).
  assert (insts (s_heap sample_graph.2 1%nat) = []) as H1
    by (vm_compute; reflexivity).
  assert (insts (s_heap sample_graph.2 2%nat)
          = [Inst2 "LOAD_CONST" (ArgVal PyNone); Inst1 "RETURN_VALUE"]) as H2
    by (vm_compute; reflexivity).
  intros [->|[->| ->]]%sample_blocks Ht Hop.
  - rewrite H0 in Ht.
    apply elem_of_cons in Ht as [->|Ht];
      [by apply (bool_decide_pack _) in Hop|].
    apply list_elem_of_singleton in Ht as ->. by eexists _, _.
  - rewrite H1 in Ht. by apply elem_of_nil in Ht.
  - rewrite H2 in Ht.
    apply elem_of_cons in Ht as [->|Ht];
      [by apply (bool_decide_pack _) in Hop|].
    apply list_elem_of_singleton in Ht as ->.
    by apply (bool_decide_pack _) in Hop.
Qed.

Lemma FlattenGraph_built_witness :
  built sample_graph.1 sample_graph.2
  ∧ (∀ b t, b ∈ fg_blocks sample_graph.1 →
            t ∈ insts (s_heap sample_graph.2 b) →
            inst_opname t ∈ HAS_JREL (H := dis27) ∪ HAS_JABS (H := dis27) →
            ∃ op target, t = Inst2 op (ArgBlock target))
  ∧ (∀ t, t ∈ insts (s_heap sample_graph.2 (fg_exit sample_graph.1)) →
          inst_opname t ∉ HAS_JREL (H := dis27) ∪ HAS_JABS (H := dis27))
  ∧ @OrderBlocks dis27 sorted_iter 5 (s_heap sample_graph.2)
      (fg_entry sample_graph.1) (fg_exit sample_graph.1)
    = Ret [0; 2; 1]%nat
  ∧ ∃ out, @FlattenGraph dis27 (s_heap sample_graph.2) [0; 2; 1]%nat
           = Ret out.
Proof.
  assert (∀ t, t ∈ insts (s_heap sample_graph.2 (fg_exit sample_graph.1)) →
               inst_opname t ∉ HAS_JREL (H := dis27) ∪ HAS_JABS (H := dis27))
    as Hexit.
  { intros t Ht. exfalso. revert Ht.
    assert (insts (s_heap sample_graph.2 (fg_exit sample_graph.1)) = [])
      as -> by (vm_compute; reflexivity).
    apply not_elem_of_nil. }
  assert (@OrderBlocks dis27 sorted_iter 5 (s_heap sample_graph.2)
            (fg_entry sample_graph.1) (fg_exit sample_graph.1)
          = Ret [0; 2; 1]%nat) as Hrun by (vm_compute; reflexivity).
  split; [exact sample_built|]. split; [exact sample_jumps|].
  split; [exact Hexit|]. split; [exact Hrun|].
  exact (@FlattenGraph_built dis27 sorted_iter sorted_iter_laws 5%nat
           sample_graph.1 sample_graph.2 [0; 2; 1]%nat
           sample_built sample_jumps Hexit Hrun).
Defined.

(** ** A built graph through [ComputeStackDepth] *)

Lemma foldM_total {A B} (P : A → Prop) (f : A → B → result A) (l : list B)
    (a : A) :
  (∀ a x, P a → x ∈ l → ∃ a', f a x = Ret a' ∧ P a') →
  P a → ∃ a', foldM f a l = Ret a' ∧ P a'.
Proof.
  revert a. induction l as [|x l IH]; intros a Hstep Ha; [by exists a|].
  destruct (Hstep a x Ha) as (a1 & Hf & Ha1); [apply list_elem_of_here|].
  destruct (IH a1) as (a' & Hrun & Ha'); [|done|].
  { intros a0 y Ha0 Hy. apply Hstep; [done|by apply list_elem_of_further]. }
  exists a'. split; [|done]. cbn [foldM]. by rewrite Hf.
Qed.

Lemma size_unseen (B seen : gset block_id) (b : block_id) :
  b ∈ B → b ∉ seen →
  (size (B ∖ ({[b]} ∪ seen)) < size (B ∖ seen))%nat.
Proof.
  intros Hb Hseen. apply subset_size. split; [set_solver|].
  intros Hsub. specialize (Hsub b). set_solver.
Qed.

(** The walk of [max_depth] over a set of blocks that has a depth for each
    block and is closed under children returns when the fuel exceeds the
    number of blocks not yet seen. *)
Lemma max_depth_returns `{SetIter} (laws : SetIterLaws) (h : heap)
    (exit_block : block_id) (depth : gmap block_id Z) (B : gset block_id) :
  (∀ b, b ∈ B → is_Some (depth !! b)) → exit_block ∈ B →
  (∀ b c, b ∈ B → child h b c → c ∈ B) →
  ∀ (fuel : nat) (b : block_id) (d : Z) (seen : gset block_id),
    b ∈ B → seen ⊆ B → (size (B ∖ seen) < fuel)%nat →
    ∃ r, max_depth fuel h exit_block depth b d seen = Ret r
         ∧ seen ⊆ r.2 ∧ r.2 ⊆ B.
Proof.
  intros Hdepth Hexit Hclosed.
  induction fuel as [|fuel IH]; intros b d seen Hb Hseen Hfuel; [lia|].
  cbn [max_depth]. destruct (decide (b ∈ seen)) as [Hin|Hin].
  { exists (d, seen). by repeat split. }
  destruct (Hdepth b Hb) as [db ->].
  pose proof (size_unseen B seen b Hb Hin) as Hless.
  assert (Hseen1 : {[b]} ∪ seen ⊆ B) by set_solver.
  assert (Hfuel1 : (size (B ∖ ({[b]} ∪ seen)) < fuel)%nat) by lia.
  destruct (get_children (h b)) as [|c children] eqn:Hch.
  - destruct (decide (label (h b) = "exit")).
    + exists (d + db, {[b]} ∪ seen). repeat split; [set_solver|done].
    + destruct (IH exit_block (d + db) _ Hexit Hseen1 Hfuel1)
        as (r & Hr & Hsub & HB).
      exists r. split; [done|]. split; [set_solver|done].
  - assert (Hkids : ∀ x, x ∈ c :: children → x ∈ B).
    { intros x Hx. apply (Hclosed b); [done|].
      apply (get_children_child laws). by rewrite Hch. }
    destruct (IH c (d + db) _ (Hkids c (list_elem_of_here _ _)) Hseen1 Hfuel1)
      as (r1 & Hr1 & Hsub1 & HB1).
    rewrite Hr1. cbn [mbind result_bind].
    destruct (foldM_total
                (λ acc : Z * gset block_id,
                   {[b]} ∪ seen ⊆ acc.2 ∧ acc.2 ⊆ B)
                (λ acc c,
                   r ← max_depth fuel h exit_block depth c (d + db) acc.2;
                   Ret (Z.max acc.1 r.1, r.2))
                children r1) as (r & Hr & Hsub & HB); [|done|].
    + intros acc x [Hacc HaccB] Hx.
      destruct (IH x (d + db) acc.2) as (r & Hr & Hsub & HB).
      * apply Hkids. by apply list_elem_of_further.
      * done.
      * assert (size (B ∖ acc.2) ≤ size (B ∖ ({[b]} ∪ seen)))%nat
          by (apply subseteq_size; set_solver).
        lia.
      * rewrite Hr. cbn [mbind result_bind].
        eexists. split; [done|]. cbn. split; [set_solver|done].
    + exists r. split; [done|]. split; [set_solver|done].
Qed.

Lemma block_depths_Ret `{SetIter} (laws : SetIterLaws) (h : heap)
    (blocks : gset block_id) (depth : gmap block_id Z) :
  block_depths h blocks = Ret depth →
  ∀ b, b ∈ blocks → ∃ d, findDepth (insts (h b)) = Ret d.
Proof.
  unfold block_depths. intros Hrun b Hb%(block_set_iter_elem laws).
  eapply (foldM_establishes
            (λ b (_ : gmap block_id Z),
               ∃ d, findDepth (insts (h b)) = Ret d));
    [| |exact Hrun|exact Hb].
  - intros m x m' Hstep. cbv beta in Hstep. inv_bind Hstep. by eexists.
  - by intros m x m' y _ Hy.
Qed.

(** X18: for a graph built through the [FlowGraph] methods and fuel above
    the number of its blocks, [ComputeStackDepth] returns exactly when
    [findDepth] returns on the instructions of every block of the graph,
    reachable or not: no block is missing from the table [depth]. *)
Theorem ComputeStackDepth_built `{SetIter} (laws : SetIterLaws) (fuel : nat)
    (g : FlowGraph) (s : store) :
  built g s → (size (fg_blocks g) < fuel)%nat →
  (∃ z, ComputeStackDepth fuel (s_heap s) (fg_blocks g) (fg_entry g)
          (fg_exit g) = Ret z)
  ↔ ∀ b, b ∈ fg_blocks g → ∃ d, findDepth (insts (s_heap s b)) = Ret d.
Proof.
  intros (_ & Hent & Hex & _ & Hchild & _)%built_inv Hfuel.
  unfold ComputeStackDepth. split.
  - intros [z Hrun]. inv_bind Hrun.
    exact (block_depths_Ret laws _ _ _ Hr).
  - intros Hall.
    destruct (block_depths_loop (s_heap s) (block_set_iter (fg_blocks g)) ∅)
      as (depth & Hdepth & Hin & _).
    { intros b Hb%(block_set_iter_elem laws). by apply Hall. }
    unfold block_depths. rewrite Hdepth. cbn [mbind result_bind].
    assert (Hd : ∀ b, b ∈ fg_blocks g → is_Some (depth !! b)).
    { intros b Hb%(block_set_iter_elem laws).
      destruct (Hin b Hb) as (d & -> & _). by eexists. }
    destruct (max_depth_returns laws (s_heap s) (fg_exit g) depth
                (fg_blocks g) Hd Hex Hchild fuel (fg_entry g) 0 ∅ Hent)
      as (r & Hr & _); [set_solver|by rewrite difference_empty_L|].
    rewrite Hr. by eexists.
Qed.

Lemma ComputeStackDepth_built_witness :
  built sample_graph.1 sample_graph.2
  ∧ (size (fg_blocks sample_graph.1) < 4)%nat
  ∧ ((∃ z, @ComputeStackDepth sorted_iter 4 (s_heap sample_graph.2)
             (fg_blocks sample_graph.1) (fg_entry sample_graph.1)
             (fg_exit sample_graph.1) = Ret z)
     ↔ ∀ b, b ∈ fg_blocks sample_graph.1 →
            ∃ d, findDepth (insts (s_heap sample_graph.2 b)) = Ret d).
Proof.
  assert (size (fg_blocks sample_graph.1) < 4)%nat as Hfuel
    by (vm_compute; lia).
  split; [exact sample_built|]. split; [exact Hfuel|].
  exact (@ComputeStackDepth_built sorted_iter sorted_iter_laws 4%nat
           sample_graph.1 sample_graph.2 sample_built Hfuel).
Defined.

(** ** [MakeCodeObject]: from the graph to the code object *)

Lemma fixup_inst_shape `{Dis} (begin : gmap block_id Z) (pc : Z)
    (t t' : inst) :
  fixup_inst begin pc t = Ret t' →
  inst_opname t' = inst_opname t ∧ inst_size t' = inst_size t.
Proof.
  unfold fixup_inst. repeat case_bool_decide.
  - destruct t as [op|op arg]; [done|]. intros Hrun. inv_bind Hrun.
    by injection Hrun as <-.
  - destruct t as [op|op arg]; [done|]. intros Hrun. inv_bind Hrun.
    by injection Hrun as <-.
  - by intros [= <-].
Qed.

Lemma fixup_pass_shape `{Dis} (begin : gmap block_id Z) (pc : Z)
    (insts out : list inst) :
  fixup_pass begin pc insts = Ret out →
  inst_opname <$> out = inst_opname <$> insts
  ∧ code_size out = code_size insts.
Proof.
  revert pc out. induction insts as [|t insts IH]; intros pc out Hrun.
  - by injection Hrun as <-.
  - cbn [fixup_pass] in Hrun. inv_bind Hrun. inv_bind Hrun.
    injection Hrun as <-.
    apply fixup_inst_shape in Hr as [Hop Hsize].
    destruct (IH _ _ Hr0) as [Hops Hsizes].
    rewrite !fmap_cons, !code_size_cons, Hop, Hops, Hsize, Hsizes. done.
Qed.

(** [FlattenGraph] keeps the opcode names and the size in bytes. *)
Lemma FlattenGraph_shape `{Dis} (h : heap) (blocks : list block_id)
    (out : list inst) :
  FlattenGraph h blocks = Ret out →
  inst_opname <$> out = inst_opname <$> flat_insts h blocks
  ∧ code_size out = code_size (flat_insts h blocks).
Proof.
  unfold FlattenGraph. cbv zeta.
  destruct (layout_pass_spec h blocks) as (-> & _ & _).
  apply fixup_pass_shape.
Qed.

(** X19: when [MakeCodeObject] returns, [OrderBlocks] has returned a
    sequence of blocks, and the code of the code object has as many bytes
    as the instructions of these blocks occupy: 1 for each 1-field
    instruction, none for [SET_LINENO], 3 for each other 2-field
    instruction.  Neither the jump fix-up nor the encoding of the operands
    changes the size. *)
Theorem MakeCodeObject_code_length `{Dis, SetIter} (fuel : nat) (h : heap)
    (g g' : PyFlowGraph) (co : CodeType) :
  MakeCodeObject fuel h g = Ret (g', co) →
  ∃ order,
    OrderBlocks fuel h (entry g) (exit g) = Ret order
    ∧ Z.of_nat (length (co_code co)) = code_size (flat_insts h order).
Proof.
  unfold MakeCodeObject. intros Hrun.
  inv_bind Hrun. rename r into stacksize.
  inv_bind Hrun. rename r into order.
  inv_bind Hrun. rename r into flat. cbv zeta in Hrun.
  inv_bind Hrun. destruct r as [out enc].
  inv_bind Hrun. rename r into ass.
  inv_bind Hrun. injection Hrun as <- <-.
  exists order. split; [done|]. cbn [co_code].
  apply FlattenGraph_shape in Hr1 as [_ <-].
  apply encode_loop_shape in Hr2 as (_ & _ & <-).
  by apply Assemble_offsets in Hr3 as [_ ?].
Qed.

Lemma MakeCodeObject_state `{Dis, SetIter} (fuel : nat) (h : heap)
    (g g' : PyFlowGraph) (co : CodeType) :
  MakeCodeObject fuel h g = Ret (g', co) →
  (docstring g :: consts g) `prefix_of` co_consts co
  ∧ names g `prefix_of` co_names co
  ∧ varnames g `prefix_of` co_varnames co
  ∧ co_nlocals co
    = (if decide (Z.land (flags g) CO_NEWLOCALS = 0) then 0
       else Z.of_nat (length (co_varnames co)))
  ∧ co_argcount co
    = (if decide (Z.land (flags g) CO_VARKEYWORDS = 0) then argcount g
       else argcount g - 1)
  ∧ consts g' = co_consts co ∧ names g' = co_names co
  ∧ varnames g' = co_varnames co ∧ argcount g' = co_argcount co
  ∧ docstring g' = docstring g ∧ flags g' = flags g
  ∧ co_flags co = flags g.
Proof.
  unfold MakeCodeObject. intros Hrun.
  inv_bind Hrun. rename r into stacksize.
  inv_bind Hrun. rename r into order.
  inv_bind Hrun. rename r into flat. cbv zeta in Hrun.
  inv_bind Hrun. destruct r as [out enc].
  inv_bind Hrun. rename r into ass.
  inv_bind Hrun. injection Hrun as <- <-.
  apply encode_loop_shape in Hr2 as ([_ Hext] & _).
  pose proof (Hext Consts) as Hc. pose proof (Hext Names) as Hn.
  pose proof (Hext Varnames) as Hv.
  cbn in Hc, Hn, Hv. cbn. by repeat split.
Qed.

(** X20: when [MakeCodeObject] returns, the constants of the code object
    start with the docstring followed by the constants of the graph, and
    its names and local names start with those of the graph; [co_nlocals]
    is the number of local names when [CO_NEWLOCALS] is set and 0
    otherwise; [co_argcount] is the argument count of the graph, less one
    when [CO_VARKEYWORDS] is set.  The graph is left with the tables and
    the argument count of the code object. *)
Theorem MakeCodeObject_tables `{Dis, SetIter} (fuel : nat) (h : heap)
    (g g' : PyFlowGraph) (co : CodeType) :
  MakeCodeObject fuel h g = Ret (g', co) →
  (docstring g :: consts g) `prefix_of` co_consts co
  ∧ names g `prefix_of` co_names co
  ∧ varnames g `prefix_of` co_varnames co
  ∧ co_nlocals co
    = (if decide (Z.land (flags g) CO_NEWLOCALS = 0) then 0
       else Z.of_nat (length (co_varnames co)))
  ∧ co_argcount co
    = (if decide (Z.land (flags g) CO_VARKEYWORDS = 0) then argcount g
       else argcount g - 1)
  ∧ consts g' = co_consts co ∧ names g' = co_names co
  ∧ varnames g' = co_varnames co ∧ argcount g' = co_argcount co
  ∧ docstring g' = docstring g ∧ flags g' = flags g
  ∧ co_flags co = flags g.
Proof. apply MakeCodeObject_state. Qed.

Lemma MakeCodeObject_tables_witness :
  ∃ g' co,
    @MakeCodeObject dis27 sorted_iter 5 (s_heap sample_graph.2)
      sample_function = Ret (g', co)
    ∧ (docstring sample_function :: consts sample_function)
        `prefix_of` co_consts co
    ∧ names sample_function `prefix_of` co_names co
    ∧ varnames sample_function `prefix_of` co_varnames co
    ∧ co_nlocals co
      = (if decide (Z.land (flags sample_function) CO_NEWLOCALS = 0) then 0
         else Z.of_nat (length (co_varnames co)))
    ∧ co_argcount co
      = (if decide (Z.land (flags sample_function) CO_VARKEYWORDS = 0)
         then argcount sample_function else argcount sample_function - 1)
    ∧ consts g' = co_consts co ∧ names g' = co_names co
    ∧ varnames g' = co_varnames co ∧ argcount g' = co_argcount co
    ∧ docstring g' = docstring sample_function
    ∧ flags g' = flags sample_function
    ∧ co_flags co = flags sample_function.
Proof.
  destruct (@MakeCodeObject dis27 sorted_iter 5 (s_heap sample_graph.2)
              sample_function) as [[g' co]|e|] eqn:E;
    [|by vm_compute in E..].
  exists g', co. split; [reflexivity|].
  exact (@MakeCodeObject_tables dis27 sorted_iter 5%nat
           (s_heap sample_graph.2) sample_function g' co E).
Defined.

Lemma MakeCodeObject_code_length_witness :
  ∃ g' co,
    @MakeCodeObject dis27 sorted_iter 5 (s_heap sample_graph.2)
      sample_function = Ret (g', co)
    ∧ ∃ order,
        @OrderBlocks dis27 sorted_iter 5 (s_heap sample_graph.2)
          (entry sample_function) (exit sample_function) = Ret order
        ∧ Z.of_nat (length (co_code co))
          = code_size (flat_insts (s_heap sample_graph.2) order).
Proof.
  destruct (@MakeCodeObject dis27 sorted_iter 5 (s_heap sample_graph.2)
              sample_function) as [[g' co]|e|] eqn:E;
    [|by vm_compute in E..].
  exists g', co. split; [reflexivity|].
  exact (@MakeCodeObject_code_length dis27 sorted_iter 5%nat
           (s_heap sample_graph.2) sample_function g' co E).
Defined.

(** X21: [MakeCodeObject] changes the graph it is called on: when a
    second call on the same graph returns, the constants of its code
    object start with the docstring twice, and with [CO_VARKEYWORDS] set
    its [co_argcount] is the argument count of the graph less two. *)
Theorem MakeCodeObject_twice `{Dis, SetIter} (fuel : nat) (h : heap)
    (g g1 g2 : PyFlowGraph) (co1 co2 : CodeType) :
  MakeCodeObject fuel h g = Ret (g1, co1) →
  MakeCodeObject fuel h g1 = Ret (g2, co2) →
  (docstring g :: docstring g :: consts g) `prefix_of` co_consts co2
  ∧ co_argcount co2
    = (if decide (Z.land (flags g) CO_VARKEYWORDS = 0) then argcount g
       else argcount g - 2).
Proof.
  intros (Hc1 & _ & _ & _ & Ha1 & Hg1 & _ & _ & Hga & Hd & Hf & _)
    %MakeCodeObject_state.
  intros (Hc2 & _ & _ & _ & Ha2 & _)%MakeCodeObject_state.
  rewrite Hd, Hg1 in Hc2. rewrite Hf, Hga, Ha1 in Ha2. split.
  - etrans; [|exact Hc2]. by apply prefix_cons.
  - rewrite Ha2. case_decide; lia.
Qed.

Lemma MakeCodeObject_twice_witness :
  ∃ g1 co1 g2 co2,
    @MakeCodeObject dis27 sorted_iter 5 (s_heap sample_graph.2)
      sample_function = Ret (g1, co1)
    ∧ @MakeCodeObject dis27 sorted_iter 5 (s_heap sample_graph.2) g1
      = Ret (g2, co2)
    ∧ (docstring sample_function :: docstring sample_function
         :: consts sample_function) `prefix_of` co_consts co2
    ∧ co_argcount co2
      = (if decide (Z.land (flags sample_function) CO_VARKEYWORDS = 0)
         then argcount sample_function else argcount sample_function - 2).
Proof.
  destruct (@MakeCodeObject dis27 sorted_iter 5 (s_heap sample_graph.2)
              sample_function) as [[g1 co1]|e|] eqn:E1;
    [|by vm_compute in E1..].
  destruct (@MakeCodeObject dis27 sorted_iter 5 (s_heap sample_graph.2) g1)
    as [[g2 co2]|e|] eqn:E2.
  - exists g1, co1, g2, co2. split; [reflexivity|]. split; [exact E2|].
    exact (@MakeCodeObject_twice dis27 sorted_iter 5%nat
             (s_heap sample_graph.2) sample_function g1 g2 co1 co2 E1 E2).
  - exfalso. vm_compute in E1. injection E1 as <- _.
    by vm_compute in E2.
  - exfalso. vm_compute in E1. injection E1 as <- _.
    by vm_compute in E2.
Defined.

(** ** [setFlag] and [checkFlag] *)

Lemma land_lor_same (a f : Z) : Z.land (Z.lor a f) f = f.
Proof.
  apply Z.bits_inj'. intros n Hn. rewrite Z.land_spec, Z.lor_spec.
  by destruct (Z.testbit a n), (Z.testbit f n).
Qed.

(** X22: after [setFlag(flag)] with a flag that is not 0, [checkFlag]
    finds the flag; a flag [checkFlag] found before is still found, and
    the answer for a flag that shares no bit with the one set is what it
    was. *)
Theorem setFlag_checkFlag (g : PyFlowGraph) (flag other : Z) :
  (flag ≠ 0 → checkFlag (setFlag g flag) flag = Some 1)
  ∧ (checkFlag g other = Some 1 →
     checkFlag (setFlag g flag) other = Some 1)
  ∧ (Z.land flag other = 0 →
     checkFlag (setFlag g flag) other = checkFlag g other).
Proof.
  unfold checkFlag, setFlag. cbn [flags]. split; [|split].
  - intros Hflag. rewrite land_lor_same. by rewrite decide_False.
  - rewrite Z.land_lor_distr_l. intros Hother.
    destruct (decide (Z.land (flags g) other = 0)) as [|Hne]; [done|].
    rewrite decide_False; [done|]. rewrite Z.lor_eq_0_iff. tauto.
  - intros Hdisj. by rewrite Z.land_lor_distr_l, Hdisj, Z.lor_0_r.
Qed.

(** * [OrderBlocks]: what it returns, and when *)

(** ** The exit block after the blocks that fall off their end *)


(** ** The dominators are no more than the walks add *)








(** ** When the loops of [OrderBlocks] return *)







(** ** The sequence of [OrderBlocks] *)


(** ** The chain example *)

Lemma chain_blocks (b : block_id) :
  b ∈ ({[0; 2; 3; 4]}%nat : gset block_id) →
  b = 0%nat ∨ b = 2%nat ∨ b = 3%nat ∨ b = 4%nat.
Proof. set_solver. Qed.

Lemma chain_closed (x c : block_id) :
  x ∈ ({[0; 2; 3; 4]}%nat : gset block_id) → child chain_heap x c →
  c ∈ ({[0; 2; 3; 4]}%nat : gset block_id).
Proof.
  intros [->|[->|[->| ->]]]%chain_blocks [Hc|Hc]; cbn in Hc; set_solver.
Qed.



Lemma chain_prev_pos (c p : block_id) :
  head (prev (chain_heap c)) = Some p → (chain_pos p < chain_pos c)%nat.
Proof.
  destruct c as [|[|[|[|[|c]]]]]; cbn; intros [= <-]; cbn; lia.
Qed.




Lemma chain_pos_bound (c : block_id) : (chain_pos c < 10)%nat.
Proof. destruct c as [|[|[|[|[|c]]]]]; cbn; lia. Qed.


(** The chain example: blocks 2 and 3 have [prev] links, along which the
    position decreases, and the walk from block 3, a follower of block 0,
    goes back over block 2. *)
Lemma OrderBlocks_terminates_witness :
  0%nat ∈ ({[0; 2; 3; 4]}%nat : gset block_id)
  ∧ (∀ x c, x ∈ ({[0; 2; 3; 4]}%nat : gset block_id) →
            child chain_heap x c →
            c ∈ ({[0; 2; 3; 4]}%nat : gset block_id))
  ∧ (∀ c p, head (prev (chain_heap c)) = Some p →
            (chain_pos p < chain_pos c)%nat)
  ∧ head (prev (chain_heap 3%nat)) = Some 2%nat
  ∧ head (prev (chain_heap 2%nat)) = Some 0%nat
  ∧ (∀ c, chain_pos c < 10)%nat
  ∧ (1 + pending_work (H := sorted_iter) chain_heap {[0; 2; 3; 4]}%nat
     ≤ 10)%nat
  ∧ prev (chain_heap 0%nat) = []
  ∧ @OrderBlocks dis27 sorted_iter 10 chain_heap 0%nat 1%nat ≠ OutOfFuel.
Proof.
  assert (H1 : 0%nat ∈ ({[0; 2; 3; 4]}%nat : gset block_id))
    by (apply (bool_decide_unpack _); vm_compute; exact I).
  assert (H5 : (1 + pending_work (H := sorted_iter) chain_heap
                      {[0; 2; 3; 4]}%nat ≤ 10)%nat)
    by (vm_compute; lia).
  assert (H6 : prev (chain_heap 0%nat) = []) by reflexivity.
  split; [exact H1|]. split; [exact chain_closed|].
  split; [exact chain_prev_pos|]. split; [reflexivity|].
  split; [reflexivity|]. split; [exact chain_pos_bound|].
  split; [exact H5|]. split; [exact H6|].
  exact (@OrderBlocks_terminates dis27 sorted_iter sorted_iter_laws
           chain_heap {[0; 2; 3; 4]}%nat chain_pos 10%nat 0%nat 1%nat
           H1 chain_closed chain_prev_pos chain_pos_bound H5 H6).
Defined.
